(** * gibson2.core.physics.interactive_objects

    A shallow embedding of [gibson2/core/physics/interactive_objects.py]:
    the [Object] base class (load-once state, pose accessors forwarding to
    the physics engine), [BoxShape._load], and what
    [InteractiveObj2.__init__] does to the parsed URDF tree: the mesh file
    names and the bounding-box rescaling.

    Conventions of the embedding.
    - numpy's float64 is a type class [Scalar]; its two instances are the
      kernel's binary64 floats (what the code computes with) and the real
      numbers (exact arithmetic: what would hold without rounding, and
      the examples whose rotation needs a sine and a cosine).  A theorem
      holds for every instance unless its statement names one.
    - An ElementTree element is a tag, its attributes and its children.
      Python holds elements by reference and mutates them in place; here a
      reference is the path of the element from the root of the document
      and a mutation rewrites the document at that path.
    - Numeric attributes ("1 0 0") are kept parsed, as three scalars:
      [' '.join(map(str, v))] prints the shortest digits that read back as
      the same float64 (numpy 1.14 and later), so printing and parsing with
      [float(val) for val in s.split(" ")] is the identity (the printing
      and the parsing themselves are modelled in section [Text]).  The
      documents considered carry three numbers in each such attribute, so
      the [ValueError] that [float] and numpy raise on other text is not
      among the exceptions of the embedding.
    - Exceptions are values of [result]; the [while] loop takes fuel. *)

From Stdlib Require Import List String Bool Arith Lia.
From Stdlib Require Import Reals Lra.
From Stdlib Require Floats DecimalString.
Import ListNotations.

Set Implicit Arguments.
Set Warnings "-register-all".

(** ** Scalars and numpy's element-wise operations *)

Class Scalar (F : Type) : Type := {
  fadd : F -> F -> F;
  fsub : F -> F -> F;
  fmul : F -> F -> F;
  fdiv : F -> F -> F;
  fabs : F -> F;
  fsqrt : F -> F
}.

#[export] Instance binary64 : Scalar PrimFloat.float := {
  fadd := PrimFloat.add;
  fsub := PrimFloat.sub;
  fmul := PrimFloat.mul;
  fdiv := PrimFloat.div;
  fabs := PrimFloat.abs;
  fsqrt := PrimFloat.sqrt
}.

#[export] Instance exact : Scalar R := {
  fadd := Rplus;
  fsub := Rminus;
  fmul := Rmult;
  fdiv := Rdiv;
  fabs := Rabs;
  fsqrt := sqrt
}.

Record vec (F : Type) : Type := Vec { vx : F; vy : F; vz : F }.

Section Numpy.
Context {F : Type} {SF : Scalar F}.

Definition np_subtract (a b : vec F) : vec F :=
  Vec (fsub (vx a) (vx b)) (fsub (vy a) (vy b)) (fsub (vz a) (vz b)).

Definition np_multiply (a b : vec F) : vec F :=
  Vec (fmul (vx a) (vx b)) (fmul (vy a) (vy b)) (fmul (vz a) (vz b)).

Definition np_divide (a b : vec F) : vec F :=
  Vec (fdiv (vx a) (vx b)) (fdiv (vy a) (vy b)) (fdiv (vz a) (vz b)).

Definition np_absolute (a : vec F) : vec F :=
  Vec (fabs (vx a)) (fabs (vy a)) (fabs (vz a)).

(** [np.linalg.norm] of a 1-D array: the square root of [x.dot(x)].  The
    three products are rounded one by one and added from left to right; a
    BLAS [dot] that fuses or reorders them can differ in the last bit. *)
Definition np_linalg_norm (a : vec F) : F :=
  fsqrt (fadd (fadd (fmul (vx a) (vx a)) (fmul (vy a) (vy a)))
              (fmul (vz a) (vz a))).

(** [v /= k]: every component divided by the scalar [k]. *)
Definition div_scalar (a : vec F) (k : F) : vec F :=
  Vec (fdiv (vx a) k) (fdiv (vy a) k) (fdiv (vz a) k).
End Numpy.

(** ** Exceptions *)

(** Python's own exceptions as far as the module can meet them (the
    constructor raises the first three on a document that lacks an element
    or attribute it reads; the engine rejects a [None] body with
    [TypeError] and an unknown one with its own [error]), and the three
    error classes the specification names. *)
Inductive exn : Type :=
| IndexError | KeyError | AttributeError | TypeError | EngineError
| MalformedTreeError | DegenerateAxisError | NotLoadedError.

Inductive result (A : Type) : Type :=
| Ok (a : A)
| Raise (e : exn).
Arguments Raise {A} e.

Definition bind {A B} (m : result A) (k : A -> result B) : result B :=
  match m with
  | Ok a => k a
  | Raise e => Raise e
  end.

Notation "x <- m ;; k" := (bind m (fun x => k))
  (at level 61, m at next level, right associativity).
Notation "' p <- m ;; k" := (bind m (fun x => let p := x in k))
  (at level 61, p pattern, m at next level, right associativity).

(** [for x in xs: body], threading the mutable state. *)
Fixpoint for_each {A S} (xs : list A) (body : A -> S -> result S) (s : S)
  : result S :=
  match xs with
  | [] => Ok s
  | x :: xs' => s' <- body x s ;; for_each xs' body s'
  end.

(** A list comprehension [[x for x in xs if cond(x)]] whose condition may
    raise. *)
Fixpoint comprehension {A} (cond : A -> result bool) (xs : list A)
  : result (list A) :=
  match xs with
  | [] => Ok []
  | x :: xs' =>
      b <- cond x ;;
      rest <- comprehension cond xs' ;;
      Ok (if b then x :: rest else rest)
  end.

(** ** The document: ElementTree elements *)

Section Document.
Context {F : Type}.

(** The attributes the module reads or writes. *)
Record Attrib : Type := {
  at_name : option string;
  at_link : option string;
  at_filename : option string;
  at_scale : option (vec F);
  at_xyz : option (vec F);
  at_rpy : option (vec F)
}.

Definition no_attrib : Attrib :=
  Build_Attrib None None None None None None.

Definition set_filename (s : string) (a : Attrib) : Attrib :=
  Build_Attrib (at_name a) (at_link a) (Some s) (at_scale a) (at_xyz a)
               (at_rpy a).
Definition set_scale (v : vec F) (a : Attrib) : Attrib :=
  Build_Attrib (at_name a) (at_link a) (at_filename a) (Some v) (at_xyz a)
               (at_rpy a).
Definition set_xyz (v : vec F) (a : Attrib) : Attrib :=
  Build_Attrib (at_name a) (at_link a) (at_filename a) (at_scale a) (Some v)
               (at_rpy a).

Inductive Element : Type :=
  Elem (tag : string) (attrib : Attrib) (children : list Element).

Definition tag (e : Element) : string := let (t, _, _) := e in t.
Definition attrib (e : Element) : Attrib := let (_, a, _) := e in a.
Definition children (e : Element) : list Element := let (_, _, c) := e in c.

(** A reference to an element: the child indices leading to it. *)
Definition path : Type := list nat.

Fixpoint get (p : path) (e : Element) : option Element :=
  match p with
  | [] => Some e
  | i :: p' =>
      match nth_error (children e) i with
      | Some c => get p' c
      | None => None
      end
  end.

Fixpoint update_nth {A} (i : nat) (f : A -> A) (l : list A) : list A :=
  match l, i with
  | [], _ => []
  | x :: l', O => f x :: l'
  | x :: l', S i' => x :: update_nth i' f l'
  end.

(** Assigning the attribute dictionary of the element at [p]. *)
Fixpoint set_attrib (p : path) (a : Attrib) (e : Element) : Element :=
  match p with
  | [] => Elem (tag e) a (children e)
  | i :: p' =>
      Elem (tag e) (attrib e) (update_nth i (set_attrib p' a) (children e))
  end.

(** An in-place update of the attributes of the element at [p]; the
    update may raise.  The loops take their references from [iter], and
    those always resolve (lemma [in_iter]), so the last branch is never
    taken. *)
Definition mutate (f : Attrib -> result Attrib) (p : path) (t : Element)
  : result Element :=
  match get p t with
  | Some e => a <- f (attrib e) ;; Ok (set_attrib p a t)
  | None => Ok t
  end.

Definition imap {A B} (f : nat -> A -> list B) : nat -> list A -> list B :=
  fix go (i : nat) (l : list A) : list B :=
    match l with
    | [] => []
    | x :: l' => f i x ++ go (S i) l'
    end.

(** [Element.iter()]: the element itself, then everything below it, in
    document order. *)
Fixpoint iter (e : Element) : list path :=
  match e with
  | Elem _ _ cs => [] :: imap (fun i c => map (cons i) (iter c)) 0 cs
  end.

Definition has_tag (tg : string) (t : Element) (p : path) : bool :=
  match get p t with
  | Some e => String.eqb (tag e) tg
  | None => false
  end.

(** [elem.iter(tag)] for the element referenced by [p], as references
    from the root. *)
Definition iter_all (p : path) (t : Element) : list path :=
  match get p t with
  | Some e => map (app p) (iter e)
  | None => []
  end.

Definition iter_tag (tg : string) (p : path) (t : Element) : list path :=
  filter (has_tag tg t) (iter_all p t).

(** [elem.findall(tag)]: the direct children with that tag. *)
Definition findall (tg : string) (p : path) (t : Element) : list path :=
  match get p t with
  | Some e =>
      filter (has_tag tg t)
             (map (fun i => p ++ [i]) (seq 0 (List.length (children e))))
  | None => []
  end.

(** [elem.find(tag)]: the first such child, or [None]. *)
Definition find (tg : string) (p : path) (t : Element) : option path :=
  hd_error (findall tg p t).

(** [elem.attrib[key]] for a string-valued key. *)
Definition attrib_str (key : Attrib -> option string) (p : path)
  (t : Element) : result string :=
  match get p t with
  | Some e =>
      match key (attrib e) with
      | Some s => Ok s
      | None => Raise KeyError
      end
  | None => Raise KeyError
  end.
End Document.

Arguments Attrib F : clear implicits.
Arguments Element F : clear implicits.

(** ** InteractiveObj2.__init__: rescaling the tree to a bounding box *)

Section Rescale.
Context {F : Type} {SF : Scalar F}.

(** [gibson2.utils.utils.rotate_vector_3d(v, r, p, y, cck)], imported by
    the module. *)
Variable rotate_vector_3d : vec F -> F -> F -> F -> bool -> vec F.

(** Lines 277-283: a mesh's [scale] attribute is multiplied by [scale],
    or set to it when the mesh has none. *)
Definition scale_mesh (scale : vec F) (a : Attrib F) : result (Attrib F) :=
  match at_scale a with
  | Some current_scale => Ok (set_scale (np_multiply current_scale scale) a)
  | None => Ok (set_scale scale a)
  end.

(** Lines 286-288 and 300-302: [origin.attrib["xyz"]] times [scale]. *)
Definition scale_origin (scale : vec F) (a : Attrib F) : result (Attrib F) :=
  match at_xyz a with
  | Some current_origin_xyz =>
      Ok (set_xyz (np_multiply current_origin_xyz scale) a)
  | None => Raise KeyError
  end.

(** Lines 313-316: [axis.attrib["xyz"]] times [scale], divided by its
    norm. *)
Definition scale_axis (scale : vec F) (a : Attrib F) : result (Attrib F) :=
  match at_xyz a with
  | Some current_axis_xyz =>
      let new_axis_xyz := np_multiply current_axis_xyz scale in
      Ok (set_xyz (div_scalar new_axis_xyz (np_linalg_norm new_axis_xyz)) a)
  | None => Raise KeyError
  end.

(** The variables of the [while] loop. *)
Record Walk : Type := {
  object_tree : Element F;
  cur_scale : vec F;
  parent_link_name : option string
}.

(** Line 272: the first [link] child of the root named
    [parent_link_name]. *)
Definition find_parent_link (name : string) (t : Element F) : result path :=
  links <- comprehension
             (fun link =>
                n <- attrib_str at_name link t ;; Ok (String.eqb n name))
             (findall "link" [] t) ;;
  match links with
  | parent_link :: _ => Ok parent_link
  | [] => Raise IndexError
  end.

(** Lines 274-288: for every element of the link (itself included),
    every mesh and every origin at or below that element is rescaled. *)
Definition scale_link (scale : vec F) (parent_link : path) (t : Element F)
  : result (Element F) :=
  for_each (iter_all parent_link t)
    (fun xml_child t =>
       t <- for_each (iter_tag "mesh" xml_child t)
              (mutate (scale_mesh scale)) t ;;
       for_each (iter_tag "origin" xml_child t)
         (mutate (scale_origin scale)) t)
    t.

(** Line 293: the [joint] children of the root whose [parent] names the
    current link. *)
Definition joints_from (parent_link : path) (t : Element F)
  : result (list path) :=
  comprehension
    (fun joint =>
       match find "parent" joint t with
       | Some parent =>
           l <- attrib_str at_link parent t ;;
           n <- attrib_str at_name parent_link t ;;
           Ok (String.eqb l n)
       | None => Raise AttributeError
       end)
    (findall "joint" [] t).

Definition rpy_of (joint : path) (t : Element F) : option (vec F) :=
  match get joint t with
  | Some e => at_rpy (attrib e)
  | None => None
  end.

(** Line 320: [joint_news[0].find("child").attrib["link"]]. *)
Definition first_child (joint_news : list path) (t : Element F)
  : result string :=
  match joint_news with
  | joint :: _ =>
      match find "child" joint t with
      | Some child => attrib_str at_link child t
      | None => Raise AttributeError
      end
  | [] => Raise IndexError
  end.

(** Lines 296-320: the body of [for joint_new in joint_news]. *)
Definition process_joint (joint_news : list path) (joint_new : path)
  (w : Walk) : result Walk :=
  t <- for_each (iter_tag "origin" joint_new (object_tree w))
         (mutate (scale_origin (cur_scale w))) (object_tree w) ;;
  let scale :=
    match rpy_of joint_new t with
    | Some joint_frame_rot =>
        np_absolute
          (rotate_vector_3d (cur_scale w) (vx joint_frame_rot)
             (vy joint_frame_rot) (vz joint_frame_rot) true)
    | None => cur_scale w
    end in
  t <- for_each (iter_tag "axis" [] t) (mutate (scale_axis scale)) t ;;
  name <- first_child joint_news t ;;
  Ok (Build_Walk t scale (Some name)).

(** Lines 272-322: the body of [while parent_link_name != None]. *)
Definition loop_body (name : string) (w : Walk) : result Walk :=
  parent_link <- find_parent_link name (object_tree w) ;;
  t <- scale_link (cur_scale w) parent_link (object_tree w) ;;
  joint_news <- joints_from parent_link t ;;
  match joint_news with
  | [] => Ok (Build_Walk t (cur_scale w) None)
  | _ :: _ =>
      for_each joint_news (process_joint joint_news)
        (Build_Walk t (cur_scale w) (Some name))
  end.

(** The [while] loop; [None] when the fuel runs out. *)
Fixpoint while_loop (fuel : nat) (w : Walk) : option (result Walk) :=
  match parent_link_name w with
  | None => Some (Ok w)
  | Some name =>
      match fuel with
      | O => None
      | S fuel' =>
          match loop_body name w with
          | Ok w' => while_loop fuel' w'
          | Raise e => Some (Raise e)
          end
      end
  end.

(** Lines 252-253: every mesh's filename is prefixed by the model path. *)
Definition resolve_mesh_paths (model_path : string) (t : Element F)
  : result (Element F) :=
  for_each (iter_tag "mesh" [] t)
    (mutate (fun a =>
               match at_filename a with
               | Some f => Ok (set_filename (model_path ++ "/" ++ f) a)
               | None => Raise KeyError
               end))
    t.

(** The contents of [misc/bbox.json]. *)
Record bbox_json : Type := { bbox_max : vec F; bbox_min : vec F }.

(** Lines 259-322, from the base scale on. *)
Definition rescale (bounding_box original_bbox : vec F) (t : Element F)
  (fuel : nat) : option (result (Element F)) :=
  let scale := np_divide bounding_box original_bbox in
  match while_loop fuel (Build_Walk t scale (Some "base_link"%string)) with
  | Some (Ok w) => Some (Ok (object_tree w))
  | Some (Raise e) => Some (Raise e)
  | None => None
  end.

(** [InteractiveObj2.__init__], after the file names are resolved:
    [parsed] is [ET.parse(filename)], [bounding_box] the optional
    attribute of [xml_element], [data] the bounding-box file.  The result
    is [self.object_tree]. *)
Definition InteractiveObj2_init (model_path : string) (parsed : Element F)
  (bounding_box : option (vec F)) (data : bbox_json) (fuel : nat)
  : option (result (Element F)) :=
  match resolve_mesh_paths model_path parsed with
  | Raise e => Some (Raise e)
  | Ok t =>
      match bounding_box with
      | Some bounding_box =>
          let original_bbox := np_subtract (bbox_max data) (bbox_min data) in
          rescale bounding_box original_bbox t fuel
      | None => Some (Ok t)
      end
  end.
End Rescale.

Arguments Walk F : clear implicits.
Arguments bbox_json F : clear implicits.

(** Modelled from the spec: [rotate_vector_3d] of [gibson2/utils/utils.py],
    which is not among the sources.  Section 4.1 makes it a pure function
    applying a 3D Euler rotation composed in a fixed axis order, with a flag
    for the winding.  The rotation matrix is [Rz(yaw) Ry(pitch) Rx(roll)];
    counter-clockwise winding ([cck]) applies its transpose. *)
Definition rotate_vector_3d (v : vec R) (r p y : R) (cck : bool) : vec R :=
  let m11 := (cos y * cos p)%R in
  let m12 := (cos y * sin p * sin r - sin y * cos r)%R in
  let m13 := (cos y * sin p * cos r + sin y * sin r)%R in
  let m21 := (sin y * cos p)%R in
  let m22 := (sin y * sin p * sin r + cos y * cos r)%R in
  let m23 := (sin y * sin p * cos r - cos y * sin r)%R in
  let m31 := (- sin p)%R in
  let m32 := (cos p * sin r)%R in
  let m33 := (cos p * cos r)%R in
  if cck then
    Vec (m11 * vx v + m21 * vy v + m31 * vz v)%R
        (m12 * vx v + m22 * vy v + m32 * vz v)%R
        (m13 * vx v + m23 * vy v + m33 * vz v)%R
  else
    Vec (m11 * vx v + m12 * vy v + m13 * vz v)%R
        (m21 * vx v + m22 * vy v + m23 * vz v)%R
        (m31 * vx v + m32 * vy v + m33 * vz v)%R.

(** ** The Object base class *)

(** The physics engine ([pybullet], imported as [p]) as far as [Object]
    uses it.  A call either fails or returns its value and the next state
    of the simulation; the body argument is [self.body_id], which is
    [None] until the object is loaded. *)
Class PhysicsEngine : Type := {
  World : Type;
  BodyId : Type;
  Pos : Type;
  Orn : Type;
  getBasePositionAndOrientation :
    option BodyId -> World -> result (Pos * Orn);
  resetBasePositionAndOrientation :
    option BodyId -> Pos -> Orn -> World -> result World
}.

Section ObjectClass.
Context {PE : PhysicsEngine}.

(** The fields a subclass adds to [body_id] and [loaded]. *)
Variable Fields : Type.

Record Object : Type := {
  body_id : option BodyId;
  loaded : bool;
  fields : Fields
}.

(** [Object.__init__], lines 16-18. *)
Definition Object_init (d : Fields) : Object :=
  {| body_id := None; loaded := false; fields := d |}.

(** The method each subclass defines: it creates the body in the engine,
    may set fields of its own ([cid], [mass]) and returns the handle. *)
Variable _load : Fields -> World -> result (BodyId * Fields * World).

(** A method leaves the object in some state, whether it returns or
    raises; when it returns, it also leaves a simulation state. *)
Definition outcome (A : Type) : Type := (Object * result (A * World))%type.

(** Lines 20-25. *)
Definition load (self : Object) (w : World) : outcome (option BodyId) :=
  if loaded self then (self, Ok (body_id self, w))
  else
    match _load (fields self) w with
    | Ok (b, d, w') =>
        let self' := {| body_id := Some b; loaded := true; fields := d |} in
        (self', Ok (body_id self', w'))
    | Raise e => (self, Raise e)
    end.

(** Lines 27-29. *)
Definition get_position (self : Object) (w : World) : outcome Pos :=
  (self,
   '(pos, _) <- getBasePositionAndOrientation (body_id self) w ;;
   Ok (pos, w)).

(** Lines 31-36. *)
Definition get_orientation (self : Object) (w : World) : outcome Orn :=
  (self,
   '(_, orn) <- getBasePositionAndOrientation (body_id self) w ;;
   Ok (orn, w)).

(** Lines 38-40. *)
Definition set_position (self : Object) (pos : Pos) (w : World)
  : outcome unit :=
  (self,
   '(_, old_orn) <- getBasePositionAndOrientation (body_id self) w ;;
   w' <- resetBasePositionAndOrientation (body_id self) pos old_orn w ;;
   Ok (tt, w')).

(** Lines 42-44. *)
Definition set_orientation (self : Object) (orn : Orn) (w : World)
  : outcome unit :=
  (self,
   '(old_pos, _) <- getBasePositionAndOrientation (body_id self) w ;;
   w' <- resetBasePositionAndOrientation (body_id self) old_pos orn w ;;
   Ok (tt, w')).

(** Lines 46-47. *)
Definition set_position_orientation (self : Object) (pos : Pos) (orn : Orn)
  (w : World) : outcome unit :=
  (self,
   w' <- resetBasePositionAndOrientation (body_id self) pos orn w ;;
   Ok (tt, w')).

(** The other methods of the module ([Pedestrian.reset_position_orientation],
    [VisualMarker.set_color], [SoftObject.addAnchor]) read [body_id] and
    the subclass fields and call the engine; none assigns a field. *)
Definition engine_method : Type :=
  option BodyId -> Fields -> World -> result World.

(** The calls a client can make on an object; [PrivateLoad] is [_load()]
    called directly, which sets the subclass fields only. *)
Inductive call : Type :=
| Load
| PrivateLoad
| GetPosition
| GetOrientation
| SetPosition (pos : Pos)
| SetOrientation (orn : Orn)
| SetPositionOrientation (pos : Pos) (orn : Orn)
| Method (m : engine_method).

Inductive value : Type :=
| Handle (b : option BodyId)
| Position (pos : Pos)
| Orientation (orn : Orn)
| NoValue.

Definition returning {A} (f : A -> value) (o : outcome A) : outcome value :=
  (fst o, '(a, w) <- snd o ;; Ok (f a, w)).

Definition invoke (c : call) (self : Object) (w : World) : outcome value :=
  match c with
  | Load => returning Handle (load self w)
  | PrivateLoad =>
      match _load (fields self) w with
      | Ok (b, d, w') =>
          ({| body_id := body_id self; loaded := loaded self; fields := d |},
           Ok (Handle (Some b), w'))
      | Raise e => (self, Raise e)
      end
  | GetPosition => returning Position (get_position self w)
  | GetOrientation => returning Orientation (get_orientation self w)
  | SetPosition pos => returning (fun _ => NoValue) (set_position self pos w)
  | SetOrientation orn =>
      returning (fun _ => NoValue) (set_orientation self orn w)
  | SetPositionOrientation pos orn =>
      returning (fun _ => NoValue) (set_position_orientation self pos orn w)
  | Method m =>
      (self, w' <- m (body_id self) (fields self) w ;; Ok (NoValue, w'))
  end.

(** The five pose accessors and mutators among the calls. *)
Definition pose_call (c : call) : bool :=
  match c with
  | Load | PrivateLoad | Method _ => false
  | _ => true
  end.
End ObjectClass.

(** ** Notions used to state the properties *)

Section DocumentViews.
Context {F : Type}.

(** What the constructor can observe of the element at [p]: its tag, its
    attributes and the number of its children. *)
Definition node (p : path) (t : Element F)
  : option (string * Attrib F * nat) :=
  match get p t with
  | Some e => Some (tag e, attrib e, List.length (children e))
  | None => None
  end.

Definition path_eq_dec : forall p q : path, {p = q} + {p <> q} :=
  list_eq_dec Nat.eq_dec.

(** Two attribute dictionaries that differ at most in the values of
    [scale] and [xyz]: the control flow of the constructor reads nothing
    else of them. *)
Definition attr_frame (a b : Attrib F) : Prop :=
  at_name a = at_name b /\ at_link a = at_link b /\
  at_filename a = at_filename b /\ at_rpy a = at_rpy b /\
  (at_xyz a = None <-> at_xyz b = None).

(** Two documents of the same shape and tags whose attributes are related
    by [P] at every element. *)
Definition agree (P : path -> string -> Attrib F -> Attrib F -> Prop)
  (t1 t2 : Element F) : Prop :=
  forall p,
    match node p t1, node p t2 with
    | Some (tg1, a1, n1), Some (tg2, a2, n2) =>
        tg1 = tg2 /\ n1 = n2 /\ P p tg1 a1 a2
    | None, None => True
    | _, _ => False
    end.
End DocumentViews.

(** Two outcomes of the same kind: the same exception, or results related
    by [R]. *)
Definition rel_result {A B} (R : A -> B -> Prop) (r1 : result A)
  (r2 : result B) : Prop :=
  match r1, r2 with
  | Ok a, Ok b => R a b
  | Raise e1, Raise e2 => e1 = e2
  | _, _ => False
  end.

Definition rel_option {A B} (R : A -> B -> Prop) (o1 : option A)
  (o2 : option B) : Prop :=
  match o1, o2 with
  | Some a, Some b => R a b
  | None, None => True
  | _, _ => False
  end.

(** [tagged TAG P] relates the attributes of an element by [P] and fixes
    its tag to the one [TAG] assigns to its path. *)
Definition tagged {F} (TAG : path -> string)
  (P : path -> Attrib F -> Attrib F -> Prop)
  : path -> string -> Attrib F -> Attrib F -> Prop :=
  fun p tg a1 a2 => tg = TAG p /\ P p a1 a2.

(** Two states of the [while] loop at the same link, with documents of
    the same frame and scales related by [S]. *)
Definition walk_rel {F} (TAG : path -> string)
  (P : path -> Attrib F -> Attrib F -> Prop) (S : vec F -> vec F -> Prop)
  (w1 w2 : Walk F) : Prop :=
  agree (tagged TAG P) (object_tree w1) (object_tree w2) /\
  S (cur_scale w1) (cur_scale w2) /\
  parent_link_name w1 = parent_link_name w2.

(** Documents of the same frame: same shape, same tags, and attributes
    that differ at most in the values of [scale] and [xyz]. *)
Definition frame {F} (t1 t2 : Element F) : Prop :=
  agree (fun _ _ => attr_frame) t1 t2.

Section RescaleViews.
Context {F : Type} {SF : Scalar F}.
Variable rotate_vector_3d : vec F -> F -> F -> F -> bool -> vec F.

(** Lines 305-309: the scale after a joint, given the joint's [rpy]. *)
Definition turn (rpy : option (vec F)) (scale : vec F) : vec F :=
  match rpy with
  | Some joint_frame_rot =>
      np_absolute
        (rotate_vector_3d scale (vx joint_frame_rot) (vy joint_frame_rot)
           (vz joint_frame_rot) true)
  | None => scale
  end.

(** The states the loop goes through from [w]: zero or more iterations
    that did not raise. *)
Inductive reaches (w : Walk F) : Walk F -> Prop :=
| reaches_here : reaches w w
| reaches_next name w1 w2 :
    reaches w w1 -> parent_link_name w1 = Some name ->
    loop_body rotate_vector_3d name w1 = Ok w2 -> reaches w w2.

(** No [joint] child of the root carries an [rpy] attribute. *)
Definition no_joint_rotation (t : Element F) : Prop :=
  forall joint, In joint (findall "joint" [] t) -> rpy_of joint t = None.

(** The attributes of the element at [p] after [f] was applied to them. *)
Definition update_node (f : Attrib F -> Attrib F)
  (n : option (string * Attrib F * nat)) : option (string * Attrib F * nat) :=
  match n with
  | Some (tg, a, k) => Some (tg, f a, k)
  | None => None
  end.

(** The total readings of the three rescaling steps. *)
Definition mesh_scaled (scale : vec F) (a : Attrib F) : Attrib F :=
  match at_scale a with
  | Some current_scale => set_scale (np_multiply current_scale scale) a
  | None => set_scale scale a
  end.

Definition xyz_scaled (scale : vec F) (a : Attrib F) : Attrib F :=
  match at_xyz a with
  | Some v => set_xyz (np_multiply v scale) a
  | None => a
  end.

Definition normalized (v : vec F) : vec F := div_scalar v (np_linalg_norm v).

Definition axis_scaled (scale : vec F) (a : Attrib F) : Attrib F :=
  match at_xyz a with
  | Some v => set_xyz (normalized (np_multiply v scale)) a
  | None => a
  end.
End RescaleViews.

Section AxisViews.
Context {F : Type} {SF : Scalar F}.


End AxisViews.

Section RoundTripViews.
Context {F : Type} {SF : Scalar F}.

Definition tag_at (t : Element F) (p : path) : string :=
  match get p t with
  | Some e => tag e
  | None => EmptyString
  end.

Definition attrib_at (t : Element F) (p : path) : Attrib F :=
  match get p t with
  | Some e => attrib e
  | None => no_attrib
  end.

(** The rescaling step the loop applies to an element with tag [tg]. *)
Definition step_of (tg : string) (scale : vec F) : Attrib F -> Attrib F :=
  if String.eqb tg "mesh" then mesh_scaled scale
  else if String.eqb tg "origin" then xyz_scaled scale
  else if String.eqb tg "axis" then axis_scaled scale
  else fun a => a.

(** What a run from [t1] with scale [s1] and a run from [t2] with scale
    [s2] keep between the attributes [a1] and [a2] they hold at [p]: each
    is the initial one after the same number of rescaling steps. *)
Definition rescaled_alike (t1 t2 : Element F) (s1 s2 : vec F) (p : path)
  (a1 a2 : Attrib F) : Prop :=
  attr_frame a1 a2 /\
  (forall i, p = [i] -> tag_at t1 p = "joint"%string -> at_rpy a1 = None) /\
  exists k,
    a1 = Nat.iter k (step_of (tag_at t1 p) s1) (attrib_at t1 p) /\
    a2 = Nat.iter k (step_of (tag_at t1 p) s2) (attrib_at t2 p).
End RoundTripViews.

(** A mesh without a [scale] attribute has scale (1, 1, 1). *)
Definition scale_value (a : Attrib R) : vec R :=
  match at_scale a with
  | Some v => v
  | None => Vec 1%R 1%R 1%R
  end.

(** Attributes with the same [xyz] and the same scale (and the same
    frame). *)
Definition same_attrib (a a' : Attrib R) : Prop :=
  attr_frame a a' /\ at_xyz a' = at_xyz a /\ scale_value a' = scale_value a.

(** Two documents with the same mesh scales, origins and axes. *)
Definition same_values (t t' : Element R) : Prop :=
  agree (fun _ _ => same_attrib) t t'.

(** Every axis of the document is a unit vector. *)
Definition unit_axes (t : Element R) : Prop :=
  forall p tg a n v,
    node p t = Some (tg, a, n) -> tg = "axis"%string -> at_xyz a = Some v ->
    np_linalg_norm v = 1%R.

Definition nonzero (v : vec R) : Prop :=
  vx v <> 0%R /\ vy v <> 0%R /\ vz v <> 0%R.

(** [s'] undoes [s]: their components are inverse to each other. *)
Definition inverse_scale (s s' : vec R) : Prop :=
  (vx s * vx s' = 1 /\ vy s * vy s' = 1 /\ vz s * vz s' = 1)%R.

(** The exceptions Python itself raises in the constructor: a list index
    out of range, a missing dictionary key, an attribute of [None]. *)
Definition builtin_exn (e : exn) : Prop :=
  e = IndexError \/ e = KeyError \/ e = AttributeError.

Section LoopViews.
Context {F : Type} {SF : Scalar F}.
Variable rotate_vector_3d : vec F -> F -> F -> F -> bool -> vec F.

(** What processing the joint [j] makes of the state [w]: the scale is
    turned through the joint's [rpy]; the origins of the joint have been
    multiplied by the scale in force before, every axis of the document by
    the scale in force after (and normalized); nothing else has changed. *)
Definition joint_processed (j : path) (w w' : Walk F) : Prop :=
  cur_scale w' =
    turn rotate_vector_3d (rpy_of j (object_tree w)) (cur_scale w) /\
  forall p tg a n,
    node p (object_tree w) = Some (tg, a, n) ->
    (In p (iter_tag "origin" j (object_tree w)) ->
     node p (object_tree w') = Some (tg, xyz_scaled (cur_scale w) a, n)) /\
    (tg = "axis"%string ->
     node p (object_tree w') = Some (tg, axis_scaled (cur_scale w') a, n)) /\
    (~ In p (iter_tag "origin" j (object_tree w)) -> tg <> "axis"%string ->
     node p (object_tree w') = Some (tg, a, n)).

(** What one iteration of the loop at the link [name] makes of [w]: the
    joints leaving the link are processed one after the other, the scale
    handed on is the scale of the link turned through the [rpy] of each of
    them in document order, and the next link is the child of the first. *)
Definition link_processed (name : string) (w w' : Walk F) : Prop :=
  exists parent_link joint_news,
    find_parent_link name (object_tree w) = Ok parent_link /\
    joints_from parent_link (object_tree w) = Ok joint_news /\
    (exists u,
        scale_link (cur_scale w) parent_link (object_tree w) = Ok u /\
        for_each joint_news (process_joint rotate_vector_3d joint_news)
          (Build_Walk u (cur_scale w)
             (match joint_news with [] => None | _ :: _ => Some name end))
        = Ok w') /\
    (forall j x x',
        process_joint rotate_vector_3d joint_news j x = Ok x' ->
        joint_processed j x x') /\
    cur_scale w' =
      fold_left
        (fun s j => turn rotate_vector_3d (rpy_of j (object_tree w)) s)
        joint_news (cur_scale w) /\
    match joint_news with
    | [] => parent_link_name w' = None
    | _ :: _ =>
        exists child,
          first_child joint_news (object_tree w) = Ok child /\
          parent_link_name w' = Some child
    end.

(** The scale is the same before and after every joint of the document. *)
Definition scale_kept (scale : vec F) (w : Walk F) : Prop :=
  cur_scale w = scale /\
  forall joint,
    In joint (findall "joint" [] (object_tree w)) ->
    turn rotate_vector_3d (rpy_of joint (object_tree w)) (cur_scale w) = scale.
End LoopViews.

(** ** Documents used as examples *)

Section Markup.
Context {F : Type}.

(** [<tg> ... </tg>] without attributes. *)
Definition element (tg : string) (cs : list (Element F)) : Element F :=
  Elem tg no_attrib cs.

(** [<link name="..."> ... </link>]. *)
Definition link_element (name : string) (cs : list (Element F)) : Element F :=
  Elem "link" (Build_Attrib (Some name) None None None None None) cs.

(** [<mesh filename="..." scale="..."/>]. *)
Definition mesh_element (filename : string) (scale : option (vec F))
  : Element F :=
  Elem "mesh" (Build_Attrib None None (Some filename) scale None None) [].

(** [<parent link="..."/>] and [<child link="..."/>]. *)
Definition link_reference (tg link : string) : Element F :=
  Elem tg (Build_Attrib None (Some link) None None None None) [].

(** [<origin xyz="..."/>] and [<axis xyz="..."/>]. *)
Definition xyz_element (tg : string) (xyz : vec F) : Element F :=
  Elem tg (Build_Attrib None None None None (Some xyz) None) [].

(** [<joint name="..." rpy="..."> <parent/> <child/> ... </joint>]. *)
Definition joint_element (name : string) (rpy : option (vec F))
  (parent child : string) (cs : list (Element F)) : Element F :=
  Elem "joint" (Build_Attrib (Some name) None None None None rpy)
    (link_reference "parent" parent :: link_reference "child" child :: cs).
End Markup.

Section Binary64Examples.
Import PrimFloat.
Local Open Scope float_scope.

(** A root link whose visual geometry is one mesh without [scale]. *)
Definition one_mesh_doc : Element float :=
  element "robot"
    [ link_element "base_link"
        [ element "visual"
            [ element "geometry" [ mesh_element "base.obj" None ] ] ] ].

(** The path of that mesh. *)
Definition one_mesh_path : path := [0; 0; 0; 0]%nat.

Definition unit_box : bbox_json float :=
  Build_bbox_json (Vec 0.5 0.5 0.5) (Vec (-0.5) (-0.5) (-0.5)).

(** A bounding-box file of a flat model: no extent along y. *)
Definition flat_box : bbox_json float :=
  Build_bbox_json (Vec 1 0 1) (Vec 0 0 0).

(** Two links and a joint between them with the given axis. *)
Definition hinge_doc (axis : vec float) : Element float :=
  element "robot"
    [ link_element "base_link" [];
      link_element "door" [];
      joint_element "hinge" None "base_link" "door"
        [ xyz_element "axis" axis ] ].

Definition hinge_axis_path : path := [2; 2]%nat.

Definition nan3 : vec float := Vec nan nan nan.

(** The ways a binary64 number is not finite. *)
Definition non_finite (x : float) : Prop :=
  is_nan x = true \/ is_infinity x = true.

(** The two zeros of binary64. *)
Definition is_zero_float (x : float) : Prop := x = 0 \/ x = -0.

Definition has_zero (v : vec float) : Prop :=
  is_zero_float (vx v) \/ is_zero_float (vy v) \/ is_zero_float (vz v).

Definition has_non_finite (v : vec float) : Prop :=
  non_finite (vx v) \/ non_finite (vy v) \/ non_finite (vz v).

Definition all_non_finite (v : vec float) : Prop :=
  non_finite (vx v) /\ non_finite (vy v) /\ non_finite (vz v).

(** Stands for [rotate_vector_3d] where a binary64 example needs one: the
    kernel's floats have no sine and cosine, and no example has a rotated
    joint, so the function is never called. *)
Definition no_rotation (v : vec float) (r p y : float) (cck : bool)
  : vec float := v.

(** The constructor does not look at the bounding-box file before it
    divides: the base scale has a component that is not finite, the
    outcome is of the same kind as with any other file, and it is not a
    [MalformedTreeError]. *)
Definition division_unguarded
  (rot : vec float -> float -> float -> float -> bool -> vec float)
  (model_path : string) (parsed : Element float) (bounding_box : vec float)
  (data : bbox_json float) (fuel : nat) : Prop :=
  has_non_finite
    (np_divide bounding_box (np_subtract (bbox_max data) (bbox_min data))) /\
  (forall data',
      rel_option (rel_result frame)
        (InteractiveObj2_init rot model_path parsed (Some bounding_box) data
           fuel)
        (InteractiveObj2_init rot model_path parsed (Some bounding_box) data'
           fuel)) /\
  InteractiveObj2_init rot model_path parsed (Some bounding_box) data fuel
  <> Some (Raise MalformedTreeError).

(** The axis step does not look at the norm before it divides: it returns
    normally, with an axis none of whose components is finite; and no run
    of the constructor raises anything but Python's own exceptions. *)
Definition normalization_unguarded (scale : vec float) (a : Attrib float)
  : Prop :=
  (exists b w,
      scale_axis scale a = Ok b /\ at_xyz b = Some w /\ all_non_finite w) /\
  (forall rot model_path parsed bounding_box data fuel e,
      InteractiveObj2_init (F := float) rot model_path parsed bounding_box
        data fuel = Some (Raise e) ->
      builtin_exn e).
End Binary64Examples.

Section ExactExamples.
Local Open Scope R_scope.

(** A link with two outgoing joints; only the second one is rotated, by
    a quarter turn about z. *)
Definition two_joint_doc : Element R :=
  element "robot"
    [ link_element "base_link" [];
      link_element "left" [];
      link_element "right" [];
      joint_element "to_left" None "base_link" "left" [];
      joint_element "to_right" (Some (Vec 0 0 (PI / 2))) "base_link" "right" [] ].



(** Two links and an unrotated joint with an origin and an axis. *)
Definition plain_doc : Element R :=
  element "robot"
    [ link_element "base_link" [ mesh_element "base.obj" None ];
      link_element "door" [];
      joint_element "hinge" None "base_link" "door"
        [ xyz_element "origin" (Vec 1 2 3); xyz_element "axis" (Vec 1 0 0) ] ].
End ExactExamples.

Section ExactRuns.
Local Open Scope R_scope.

Definition small_target : vec R := Vec 2 1 (1 / 2).
Definition unit_bbox : vec R := Vec 1 1 1.

(** The state of the loop at the start of a rescaling. *)
Definition start_walk (t : Element R) (bounding_box original_bbox : vec R)
  : Walk R :=
  Build_Walk t (np_divide bounding_box original_bbox)
    (Some "base_link"%string).

(** The state after the iteration at the base link. *)
Definition after_base_link (t : Element R) (bounding_box original_bbox : vec R)
  : Walk R :=
  match loop_body rotate_vector_3d "base_link"
          (start_walk t bounding_box original_bbox) with
  | Ok w => w
  | Raise _ => start_walk t bounding_box original_bbox
  end.

(** The rescaled document, or the document itself if rescaling fails. *)
Definition rescaled (t : Element R) (bounding_box original_bbox : vec R)
  (fuel : nat) : Element R :=
  match rescale rotate_vector_3d bounding_box original_bbox t fuel with
  | Some (Ok t') => t'
  | _ => t
  end.
End ExactRuns.

(** ** Notions used to state the properties of [Object] *)

Section ObjectViews.
Context {PE : PhysicsEngine}.
Variable Fields : Type.
Variable _load : Fields -> World -> result (BodyId * Fields * World).

(** The engine calls that the pose call [c] makes on the body [b] fail
    with [e]: the query of lines 28, 35, 39 and 43, or the reset of lines
    40, 44 and 47 with the arguments the method hands it. *)
Definition engine_fails (c : call Fields) (b : option BodyId) (w : World)
  (e : exn) : Prop :=
  match c with
  | GetPosition _ | GetOrientation _ =>
      getBasePositionAndOrientation b w = Raise e
  | SetPosition _ pos =>
      getBasePositionAndOrientation b w = Raise e \/
      exists old_pos old_orn,
        getBasePositionAndOrientation b w = Ok (old_pos, old_orn) /\
        resetBasePositionAndOrientation b pos old_orn w = Raise e
  | SetOrientation _ orn =>
      getBasePositionAndOrientation b w = Raise e \/
      exists old_pos old_orn,
        getBasePositionAndOrientation b w = Ok (old_pos, old_orn) /\
        resetBasePositionAndOrientation b old_pos orn w = Raise e
  | SetPositionOrientation _ pos orn =>
      resetBasePositionAndOrientation b pos orn w = Raise e
  | Load _ | PrivateLoad _ | Method _ => False
  end.

Definition mark_loaded (self : Object Fields) : Object Fields :=
  {| body_id := body_id self; loaded := true; fields := fields self |}.

(** The call [c] is settled by the engine alone: the loaded flag plays no
    part in its outcome, the object is left as it was, and the call raises
    [e] exactly when one of its engine calls on the stored handle raises
    [e]. *)
Definition engine_decides (c : call Fields) (self : Object Fields)
  (w : World) : Prop :=
  snd (invoke _load c self w) = snd (invoke _load c (mark_loaded self) w) /\
  fst (invoke _load c self w) = self /\
  forall e,
    snd (invoke _load c self w) = Raise e <->
    engine_fails c (body_id self) w e.

(** A second [load] returns the handle [h] again and changes neither the
    object nor the simulation, whatever [_load] would do; and no call
    clears the loaded flag. *)
Definition loaded_for_good (self : Object Fields) (h : option BodyId)
  (w : World) : Prop :=
  loaded self = true /\
  (forall _load', load _load' self w = (self, Ok (h, w))) /\
  (forall _load' c (o : Object Fields) x,
      loaded o = true -> loaded (fst (invoke _load' c o x)) = true).

(** What the engine stores with [resetBasePositionAndOrientation] is what
    [getBasePositionAndOrientation] returns afterwards. *)
Definition pose_is_stored : Prop :=
  forall b pos orn w w',
    resetBasePositionAndOrientation b pos orn w = Ok w' ->
    getBasePositionAndOrientation b w' = Ok (pos, orn).

(** After the call that led from [w] to [w'], the object is at position
    [pos] with orientation [orn]. *)
Definition pose_after (self : Object Fields) (w' : World) (pos : Pos)
  (orn : Orn) : Prop :=
  snd (get_position self w') = Ok (pos, w') /\
  snd (get_orientation self w') = Ok (orn, w').
End ObjectViews.

(** ** A small engine for the examples

    It keeps each pose as it is given and rejects a handle it has not
    issued.  It is not pybullet, which normalizes the quaternion it is
    given and returns from a reset of a body it does not know; the
    theorems on [Object] hold for every engine, and this one serves
    their examples. *)

Section Simulation.
Import PrimFloat.
Local Open Scope float_scope.

Definition quaternion : Type := (float * float * float * float)%type.

(** The poses of the bodies, indexed by body id, and the number of shapes
    created so far. *)
Record sim : Type := {
  poses : list (vec float * quaternion);
  shapes : nat
}.

Definition empty_sim : sim := {| poses := []; shapes := 0%nat |}.

Definition sim_get (b : option nat) (w : sim)
  : result (vec float * quaternion) :=
  match b with
  | Some i =>
      match nth_error (poses w) i with
      | Some pose => Ok pose
      | None => Raise EngineError
      end
  | None => Raise TypeError
  end.

Definition sim_reset (b : option nat) (pos : vec float) (orn : quaternion)
  (w : sim) : result sim :=
  match b with
  | Some i =>
      if Nat.ltb i (List.length (poses w))
      then Ok {| poses := update_nth i (fun _ => (pos, orn)) (poses w);
                 shapes := shapes w |}
      else Raise EngineError
  | None => Raise TypeError
  end.

#[export] Instance simulation : PhysicsEngine := {
  World := sim;
  BodyId := nat;
  Pos := vec float;
  Orn := quaternion;
  getBasePositionAndOrientation := sim_get;
  resetBasePositionAndOrientation := sim_reset
}.

(** [p.createCollisionShape] and [p.createVisualShape]. *)
Definition sim_create_shape (w : sim) : nat * sim :=
  (shapes w, {| poses := poses w; shapes := S (shapes w) |}).

(** [p.createMultiBody] with the default base pose. *)
Definition sim_create_body (w : sim) : nat * sim :=
  (List.length (poses w),
   {| poses := poses w ++ [(Vec 0 0 0, (0, 0, 0, 1))]; shapes := shapes w |}).

(** The fields of [BoxShape], lines 193-199. *)
Record BoxShape : Type := {
  basePos : vec float;
  dimension : vec float;
  visual_only : bool;
  mass : float;
  color : quaternion
}.

(** [BoxShape._load], lines 201-215. *)
Definition BoxShape_load (self : BoxShape) (w : sim)
  : result (nat * BoxShape * sim) :=
  let baseOrientation := (0, 0, 0, 1) in
  let '(colBoxId, w) := sim_create_shape w in
  let '(visualShapeId, w) := sim_create_shape w in
  let '(body_id, w) := sim_create_body w in
  w <- sim_reset (Some body_id) (basePos self) baseOrientation w ;;
  Ok (body_id, self, w).

(** [BoxShape()] with its default arguments. *)
Definition default_box : Object BoxShape :=
  Object_init (Build_BoxShape (Vec 1 2 3) (Vec 1 2 3) false 1000 (1, 1, 1, 1)).

(** The box after [load()] in the empty simulation. *)
Definition loaded_box : Object BoxShape :=
  fst (load BoxShape_load default_box empty_sim).

Definition sim_with_box : sim :=
  match snd (load BoxShape_load default_box empty_sim) with
  | Ok (_, w) => w
  | Raise _ => empty_sim
  end.
End Simulation.
(** ** Notions used to state further properties of the rescaling *)

Section TraversalViews.
Context {F : Type} {SF : Scalar F}.

(** What the rescaling may change of an element with tag [tg]: the
    [scale] of a mesh, the [xyz] of an origin or of an axis, and it
    neither adds nor removes an [xyz]. *)
Definition rescaled_only (tg : string) (a a' : Attrib F) : Prop :=
  at_name a' = at_name a /\ at_link a' = at_link a /\
  at_filename a' = at_filename a /\ at_rpy a' = at_rpy a /\
  (tg <> "mesh"%string -> at_scale a' = at_scale a) /\
  (tg <> "origin"%string -> tg <> "axis"%string -> at_xyz a' = at_xyz a) /\
  (at_xyz a = None <-> at_xyz a' = None).

(** The rescaled document has the shape and the tags of the original, and
    its attributes differ from the original ones in the rescaled values
    only. *)
Definition same_but_rescaled (t t' : Element F) : Prop :=
  agree (fun _ => rescaled_only) t t'.

(** [p] is [q] or lies below it. *)
Definition below (q p : path) : Prop := exists r, p = q ++ r.

Fixpoint prefix_of (q p : path) : bool :=
  match q, p with
  | [], _ => true
  | i :: q', j :: p' => Nat.eqb i j && prefix_of q' p'
  | _ :: _, [] => false
  end.

(** The number of elements of [l] that are [p] or an ancestor of [p]:
    when [l] is what the outer loop over a link goes through, the number
    of times the inner loops come to [p]. *)
Definition visits (l : list path) (p : path) : nat :=
  List.length (filter (fun x => prefix_of x p) l).

(** The step that the loops over a link (lines 274-288) apply to an
    element with tag [tg]. *)
Definition link_step (tg : string) (scale : vec F) : Attrib F -> Attrib F :=
  if String.eqb tg "mesh" then mesh_scaled scale
  else if String.eqb tg "origin" then xyz_scaled scale
  else fun a => a.
End TraversalViews.

Section ResolveViews.
Context {F : Type}.

(** What lines 252-253 make of the attributes of an element with tag
    [tg]. *)
Definition prefixed (model_path tg : string) (a : Attrib F) : Attrib F :=
  if String.eqb tg "mesh" then
    match at_filename a with
    | Some f => set_filename (model_path ++ "/" ++ f) a
    | None => a
    end
  else a.

(** Every mesh of the document has a [filename]. *)
Definition meshes_have_files (t : Element F) : Prop :=
  forall p tg a n,
    node p t = Some (tg, a, n) -> tg = "mesh"%string -> at_filename a <> None.
End ResolveViews.

Section RunViews.
Context {F : Type} {SF : Scalar F}.
Variable rotate_vector_3d : vec F -> F -> F -> F -> bool -> vec F.

(** The state after [k] iterations of the [while] loop from [w], when
    none of them raised and the loop had not finished before. *)
Fixpoint after_iterations (k : nat) (w : Walk F) : option (Walk F) :=
  match k with
  | O => Some w
  | S k' =>
      match parent_link_name w with
      | Some name =>
          match loop_body rotate_vector_3d name w with
          | Ok w' => after_iterations k' w'
          | Raise _ => None
          end
      | None => None
      end
  end.

(** The links the loop is at, one after the other, in its first [k]
    iterations from [w]: the values of [parent_link] at line 272. *)
Fixpoint trail (k : nat) (w : Walk F) : list path :=
  match k with
  | O => []
  | S k' =>
      match parent_link_name w with
      | Some name =>
          match find_parent_link name (object_tree w) with
          | Ok parent_link =>
              parent_link ::
              match loop_body rotate_vector_3d name w with
              | Ok w' => trail k' w'
              | Raise _ => []
              end
          | Raise _ => []
          end
      | None => []
      end
  end.
End RunViews.

Section WellFormedViews.
Context {F : Type}.

(** Some [link] child of the root is called [name]. *)
Definition has_link (name : string) (t : Element F) : Prop :=
  exists link,
    In link (findall "link" [] t) /\ at_name (attrib_at t link) = Some name.

(** A document that has all the constructor reads: a name on every link,
    an [xyz] on every origin and axis, and in every joint a parent that
    names a link and a child that names a link of the document. *)
Definition well_formed (t : Element F) : Prop :=
  (forall link,
      In link (findall "link" [] t) -> at_name (attrib_at t link) <> None) /\
  (forall p tg a n,
      node p t = Some (tg, a, n) ->
      tg = "origin"%string \/ tg = "axis"%string -> at_xyz a <> None) /\
  (forall joint,
      In joint (findall "joint" [] t) ->
      exists parent child name,
        find "parent" joint t = Some parent /\
        at_link (attrib_at t parent) <> None /\
        find "child" joint t = Some child /\
        at_link (attrib_at t child) = Some name /\
        has_link name t).
End WellFormedViews.

(** The outcome of a run in which every lookup succeeded: no list index
    was out of range ([IndexError]), no dictionary key was missing
    ([KeyError]) and no attribute was read of [None]
    ([AttributeError]). *)
Definition lookups_succeed {A} (o : option (result A)) : Prop :=
  match o with
  | Some (Raise IndexError) | Some (Raise KeyError)
  | Some (Raise AttributeError) => False
  | _ => True
  end.

(** ** Further documents used as examples *)

Section MoreBinary64Examples.
Import PrimFloat.
Local Open Scope float_scope.

(** A document whose only link is not called [base_link]. *)
Definition no_base_doc : Element float :=
  element "robot" [ link_element "body" [ mesh_element "body.obj" None ] ].

(** A document with a link that has no [name] attribute, after the base
    link. *)
Definition nameless_link_doc : Element float :=
  element "robot" [ link_element "base_link" []; element "link" [] ].

(** A joint that leads from the base link back to the base link. *)
Definition loop_doc : Element float :=
  element "robot"
    [ link_element "base_link" [];
      joint_element "spin" None "base_link" "base_link" [] ].

(** A base link whose visual has an origin and a mesh, and no joint. *)
Definition visual_doc : Element float :=
  element "robot"
    [ link_element "base_link"
        [ element "visual"
            [ xyz_element "origin" (Vec 1 2 3);
              element "geometry" [ mesh_element "base.obj" None ] ] ] ].

(** The path of that mesh below the base link. *)
Definition visual_mesh_below : path := [0; 1; 0]%nat.

(** The document after the loops over its base link, with scale
    (2, 1, 0.5). *)
Definition visual_doc_scaled : Element float :=
  match scale_link (Vec 2 1 0.5) [0%nat] visual_doc with
  | Ok t => t
  | Raise _ => visual_doc
  end.

(** A mesh without a [filename]. *)
Definition bare_mesh_doc : Element float :=
  element "robot" [ link_element "base_link" [ element "mesh" [] ] ].

(** An origin without an [xyz] in the base link. *)
Definition bare_origin_doc : Element float :=
  element "robot" [ link_element "base_link" [ element "origin" [] ] ].

(** A hinge, and a second joint that has a child but no parent. *)
Definition orphan_joint_doc : Element float :=
  element "robot"
    [ link_element "base_link" [];
      link_element "door" [];
      joint_element "hinge" None "base_link" "door" [];
      Elem "joint" (Build_Attrib (Some "loose"%string) None None None None None)
        [ link_reference "child" "door" ] ].

(** A base link with a visual, a door with a mesh, and the hinge between
    them with its origin and axis. *)
Definition door_doc : Element float :=
  element "robot"
    [ link_element "base_link"
        [ element "visual"
            [ xyz_element "origin" (Vec 0 0 1);
              element "geometry" [ mesh_element "base.obj" None ] ] ];
      link_element "door" [ mesh_element "door.obj" None ];
      joint_element "hinge" None "base_link" "door"
        [ xyz_element "origin" (Vec 1 2 3); xyz_element "axis" (Vec 0 0 1) ] ].

(** The state of the loop at the start of a rescaling to the scale [s]. *)
Definition start_at (t : Element float) (s : vec float) : Walk float :=
  Build_Walk t s (Some "base_link"%string).

(** A cabinet: two doors hinged on the base link, each with a mesh. *)
Definition fork_doc : Element float :=
  element "robot"
    [ link_element "base_link" [ mesh_element "base.obj" None ];
      link_element "left" [ mesh_element "left.obj" None ];
      link_element "right" [ mesh_element "right.obj" None ];
      joint_element "to_left" None "base_link" "left" [];
      joint_element "to_right" None "base_link" "right" [] ].

(** How the loop ends on the cabinet, given fuel for ten iterations. *)
Definition fork_end : result (Walk float) :=
  match while_loop no_rotation 10 (start_at fork_doc (Vec 2 1 0.5)) with
  | Some r => r
  | None => Ok (start_at fork_doc (Vec 2 1 0.5))
  end.

(** The state of the loop on the cabinet when it gets to the left door. *)
Definition fork_at_left : Walk float :=
  match after_iterations no_rotation 1
          (start_at fork_doc (np_divide (Vec 2 1 0.5) (Vec 1 1 1))) with
  | Some w => w
  | None => start_at fork_doc (Vec 2 1 0.5)
  end.

(** The rescaled cabinet, or the cabinet itself if rescaling fails. *)
Definition fork_rescaled : Element float :=
  match rescale no_rotation (Vec 2 1 0.5) (Vec 1 1 1) fork_doc 3 with
  | Some (Ok t) => t
  | _ => fork_doc
  end.
End MoreBinary64Examples.

(** ** Numeric attributes as text *)

(** The constructor reads a numeric attribute with
    [[float(val) for val in s.split(" ")]] (lines 260, 279, 286, 300, 306,
    314) and writes it with [' '.join(map(str, v))] (lines 281, 284, 288,
    302, 316). *)
Section Text.
Import Ascii.
Context {F : Type}.

(** [str(x)] for an element of a float64 array, and [float(s)], with
    [None] for its [ValueError]. *)
Variable str : F -> string.
Variable float : string -> option F.

Definition is_space (c : Ascii.ascii) : bool := Ascii.eqb c " "%char.

(** [s.split(" ")]: the pieces between single spaces, empty ones
    included. *)
Fixpoint split (s : string) : list string :=
  match s with
  | EmptyString => [EmptyString]
  | String c s' =>
      if is_space c then EmptyString :: split s'
      else
        match split s' with
        | piece :: pieces => String c piece :: pieces
        | [] => [String c EmptyString]
        end
  end.

(** [' '.join(l)]. *)
Fixpoint join (l : list string) : string :=
  match l with
  | [] => EmptyString
  | [x] => x
  | x :: l' => (x ++ " " ++ join l')%string
  end.

(** [[float(val) for val in l]]. *)
Fixpoint floats (l : list string) : option (list F) :=
  match l with
  | [] => Some []
  | val :: l' =>
      match float val with
      | Some x =>
          match floats l' with
          | Some xs => Some (x :: xs)
          | None => None
          end
      | None => None
      end
  end.

Definition parse (s : string) : option (list F) := floats (split s).

Definition format (v : list F) : string := join (map str v).

Fixpoint has_space (s : string) : bool :=
  match s with
  | EmptyString => false
  | String c s' => is_space c || has_space s'
  end.

(** A text in which [split] finds an empty piece: the empty text, a space
    at either end, or two spaces in a row. *)
Definition stray_space (s : string) : Prop :=
  (s = EmptyString \/ (exists r, s = " " ++ r) \/ (exists r, s = r ++ " ") \/
   (exists r1 r2, s = r1 ++ "  " ++ r2))%string.
End Text.

(** Decimal text for natural numbers, to have an instance of [str] and
    [float] at hand. *)
Definition str_nat (n : nat) : string :=
  DecimalString.NilZero.string_of_uint (Nat.to_uint n).

Definition float_nat (s : string) : option nat :=
  option_map Nat.of_uint (DecimalString.NilZero.uint_of_string s).

(** ** Notions used to state further properties of [Object] *)

Section ObjectStates.
Context {PE : PhysicsEngine}.
Variable Fields : Type.
Variable _load : Fields -> World -> result (BodyId * Fields * World).

(** The states a client can bring an object to: the one [__init__]
    leaves, and the one any call leaves, made in any state of the
    simulation, whether it returns or raises. *)
Inductive reachable : Object Fields -> Prop :=
| reachable_init d : reachable (Object_init d)
| reachable_call c self w :
    reachable self -> reachable (fst (invoke _load c self w)).

(** [self.body_id] is a handle exactly when [self.loaded] is set. *)
Definition handle_matches_flag (self : Object Fields) : Prop :=
  (loaded self = true /\ exists b, body_id self = Some b) \/
  (loaded self = false /\ body_id self = None).
End ObjectStates.

Section MoreSimulation.
Import PrimFloat.
Local Open Scope float_scope.

(** The simulation a call on a box leaves, or the empty one if the call
    raises. *)
Definition sim_after {A} (o : outcome (PE := simulation) BoxShape A) : sim :=
  match snd o with
  | Ok (_, w) => w
  | Raise _ => empty_sim
  end.

(** A half turn about the z axis, as a quaternion in xyzw. *)
Definition turned : quaternion := (0, 0, 1, 0).
End MoreSimulation.

(** ** [BoxShape._load] against any engine *)

Section Bullet.
Import PrimFloat.
Local Open Scope float_scope.

(** The arguments of [p.createCollisionShape] and [p.createVisualShape]
    for [p.GEOM_BOX]. *)
Record box_shape : Type := {
  halfExtents : vec float;
  rgbaColor : option quaternion
}.

(** The arguments of [p.createMultiBody] as [BoxShape._load] passes them;
    the index [-1] is [None], and so is a mass left out. *)
Record multi_body (ShapeId : Type) : Type := {
  baseMass : option float;
  baseCollisionShapeIndex : option ShapeId;
  baseVisualShapeIndex : option ShapeId
}.

(** pybullet as far as [BoxShape] calls it.  Every call may raise, and
    leaves a state of the simulation when it returns. *)
Class Bullet : Type := {
  bullet_World : Type;
  bullet_BodyId : Type;
  ShapeId : Type;
  bullet_get :
    option bullet_BodyId -> bullet_World -> result (vec float * quaternion);
  bullet_reset :
    option bullet_BodyId -> vec float -> quaternion -> bullet_World ->
    result bullet_World;
  createCollisionShape :
    box_shape -> bullet_World -> result (ShapeId * bullet_World);
  createVisualShape :
    box_shape -> bullet_World -> result (ShapeId * bullet_World);
  createMultiBody :
    multi_body ShapeId -> bullet_World -> result (bullet_BodyId * bullet_World)
}.

(** The part of it that [Object] calls. *)
Definition Bullet_engine (B : Bullet) : PhysicsEngine := {|
  World := bullet_World;
  BodyId := bullet_BodyId;
  Pos := vec float;
  Orn := quaternion;
  getBasePositionAndOrientation := bullet_get;
  resetBasePositionAndOrientation := bullet_reset
|}.

(** [BoxShape._load], lines 201-215. *)
Definition BoxShape__load (B : Bullet) (self : BoxShape) (w : bullet_World)
  : result (bullet_BodyId * BoxShape * bullet_World) :=
  let baseOrientation := (0, 0, 0, 1) in
  '(colBoxId, w) <-
    createCollisionShape
      {| halfExtents := dimension self; rgbaColor := None |} w ;;
  '(visualShapeId, w) <-
    createVisualShape
      {| halfExtents := dimension self; rgbaColor := Some (color self) |} w ;;
  '(body_id, w) <-
    (if visual_only self then
       createMultiBody
         {| baseMass := None;
            baseCollisionShapeIndex := None;
            baseVisualShapeIndex := Some visualShapeId |} w
     else
       createMultiBody
         {| baseMass := Some (mass self);
            baseCollisionShapeIndex := Some colBoxId;
            baseVisualShapeIndex := Some visualShapeId |} w) ;;
  w <- bullet_reset (Some body_id) (basePos self) baseOrientation w ;;
  Ok (body_id, self, w).

(** The small engine of the examples as an instance. *)
Definition sim_bullet : Bullet := {|
  bullet_World := sim;
  bullet_BodyId := nat;
  ShapeId := nat;
  bullet_get := sim_get;
  bullet_reset := sim_reset;
  createCollisionShape := fun _ w => Ok (sim_create_shape w);
  createVisualShape := fun _ w => Ok (sim_create_shape w);
  createMultiBody := fun _ w => Ok (sim_create_body w)
|}.

(** A box for display only, two units above the ground. *)
Definition ghost_box : Object (PE := Bullet_engine sim_bullet) BoxShape :=
  Object_init (PE := Bullet_engine sim_bullet)
    (Build_BoxShape (Vec 0 0 2) (Vec 1 1 1) true 1000 (1, 0, 0, 1)).

(** That box after [load()] in the empty simulation. *)
Definition ghost_loaded : Object (PE := Bullet_engine sim_bullet) BoxShape :=
  fst (load (PE := Bullet_engine sim_bullet) (BoxShape__load sim_bullet)
         ghost_box empty_sim).

Definition sim_with_ghost : sim :=
  match snd (load (PE := Bullet_engine sim_bullet) (BoxShape__load sim_bullet)
               ghost_box empty_sim) with
  | Ok (_, w) => w
  | Raise _ => empty_sim
  end.
End Bullet.

(** ** Notions used to state the axis passes and the round trip *)

Section AxisPassViews.
Context {F : Type} {SF : Scalar F}.
Variable rotate_vector_3d : vec F -> F -> F -> F -> bool -> vec F.

(** The scales of the axis passes (lines 311-316) made while the joints
    [joint_news] are processed from [scale]: one pass per joint, with the
    scale turned through the [rpy] of that joint and of the joints before
    it. *)
Fixpoint joint_scales (joint_news : list path) (scale : vec F)
  (t : Element F) : list (vec F) :=
  match joint_news with
  | [] => []
  | joint_new :: rest =>
      let scale' := turn rotate_vector_3d (rpy_of joint_new t) scale in
      scale' :: joint_scales rest scale' t
  end.

(** The scales of the axis passes of the first [k] iterations of the
    [while] loop from [w], in the order in which they are made. *)
Fixpoint axis_scales (k : nat) (w : Walk F) : list (vec F) :=
  match k with
  | O => []
  | S k' =>
      match parent_link_name w with
      | Some name =>
          match find_parent_link name (object_tree w) with
          | Ok parent_link =>
              match joints_from parent_link (object_tree w) with
              | Ok joint_news =>
                  joint_scales joint_news (cur_scale w) (object_tree w) ++
                  match loop_body rotate_vector_3d name w with
                  | Ok w' => axis_scales k' w'
                  | Raise _ => []
                  end
              | Raise _ => []
              end
          | Raise _ => []
          end
      | None => []
      end
  end.

End AxisPassViews.

Section RetraceViews.
Context {F : Type} {SF : Scalar F}.
Variable rotate_vector_3d : vec F -> F -> F -> F -> bool -> vec F.

(** A list of steps there and back: each entry pairs the scale of a step
    of the run there with the scale of the same step of the run back. *)
Definition forth (tg : string) (l : list (vec F * vec F)) (a : Attrib F)
  : Attrib F :=
  fold_left (fun a ss => step_of tg (fst ss) a) l a.

Definition back (tg : string) (l : list (vec F * vec F)) (a : Attrib F)
  : Attrib F :=
  fold_left (fun a ss => step_of tg (snd ss) a) l a.

Definition related_steps (Srel : vec F -> vec F -> Prop)
  (l : list (vec F * vec F)) : Prop :=
  Forall (fun ss => Srel (fst ss) (snd ss)) l.

(** The rotations of the joints of [t] keep the relation [Srel] between
    two scales. *)
Definition keeps_related (Srel : vec F -> vec F -> Prop) (t : Element F)
  : Prop :=
  forall joint joint_frame_rot scale scale',
    In joint (findall "joint" [] t) ->
    rpy_of joint t = Some joint_frame_rot ->
    Srel scale scale' ->
    Srel (turn rotate_vector_3d (Some joint_frame_rot) scale)
         (turn rotate_vector_3d (Some joint_frame_rot) scale').

(** What the run there and the run back keep between the attributes [a1]
    and [a2] they hold at [p]: the first is the attribute of [t] after the
    steps there, the second the attribute of [t1] after the same number of
    steps back, taken with related scales. *)
Definition retracing (Srel : vec F -> vec F -> Prop) (t t1 : Element F)
  (p : path) (a1 a2 : Attrib F) : Prop :=
  attr_frame a1 a2 /\
  exists l,
    related_steps Srel l /\
    a1 = forth (tag_at t p) l (attrib_at t p) /\
    a2 = back (tag_at t p) l (attrib_at t1 p).

End RetraceViews.

Section Binary64RoundTrip.
Import PrimFloat.
Local Open Scope float_scope.

(** The product of the two scales is (1, 1, 1) in binary64. *)
Definition undone_by (s s' : vec float) : Prop :=
  np_multiply s s' = Vec 1 1 1.

(** [door_doc] rescaled to (2, 1, 0.5), or the document itself if
    rescaling fails. *)
Definition door_doc_rescaled : Element float :=
  match rescale no_rotation (Vec 2 1 0.5) (Vec 1 1 1) door_doc 3 with
  | Some (Ok t) => t
  | _ => door_doc
  end.

(** The float64 values of 1e100, 1e-100 and 0.1. *)
Definition huge : float := 0x1.249ad2594c37dp+332.
Definition tiny : float := 0x1.bff2ee48e053p-333.
Definition tenth : float := 0x1.999999999999ap-4.
End Binary64RoundTrip.

Section ExactRoundTripExamples.
Local Open Scope R_scope.

(** A joint rotated by a quarter turn about z, with an origin and an
    axis, and a mesh of scale (1, 1, 1) in its child link. *)
Definition quarter_turn_doc : Element R :=
  element "robot"
    [ link_element "base_link" [];
      link_element "arm" [ mesh_element "arm.obj" (Some (Vec 1 1 1)) ];
      joint_element "shoulder" (Some (Vec 0 0 (PI / 2))) "base_link" "arm"
        [ xyz_element "origin" (Vec 1 2 3); xyz_element "axis" (Vec 1 0 0) ] ].
End ExactRoundTripExamples.

(** * Properties *)

(** ** Documents *)

Section DocumentFacts.
Context {F : Type}.
Implicit Types (t e : Element F) (p q : path).

Lemma Element_induction (P : Element F -> Prop) :
  (forall tg a cs, Forall P cs -> P (Elem tg a cs)) -> forall e, P e.
Proof.
  intros H. fix IH 1. intros [tg a cs]. apply H.
  induction cs as [|c cs IHcs]; constructor; auto.
Qed.

Lemma length_update_nth {A} (f : A -> A) (l : list A) i :
  List.length (update_nth i f l) = List.length l.
Proof.
  revert i; induction l as [|x l IHl]; intros [|i]; simpl; auto.
Qed.

Lemma nth_error_update_nth {A} (f : A -> A) (l : list A) i j :
  nth_error (update_nth i f l) j =
  if Nat.eq_dec i j then option_map f (nth_error l j) else nth_error l j.
Proof.
  revert i j; induction l as [|x l IHl]; intros i j.
  - destruct i, j, (Nat.eq_dec _ _); reflexivity.
  - destruct i as [|i], j as [|j]; cbn [update_nth nth_error].
    + destruct (Nat.eq_dec 0 0); [reflexivity|lia].
    + destruct (Nat.eq_dec 0 (S j)); [lia|reflexivity].
    + destruct (Nat.eq_dec (S i) 0); [lia|reflexivity].
    + rewrite IHl. destruct (Nat.eq_dec i j), (Nat.eq_dec (S i) (S j));
        try reflexivity; lia.
Qed.

(** Assigning the attributes of one element changes nothing else. *)
Lemma node_set_attrib p a t q :
  node q (set_attrib p a t) =
  match node q t with
  | Some (tg, a0, n) => Some (tg, if path_eq_dec p q then a else a0, n)
  | None => None
  end.
Proof.
  revert q t; induction p as [|i p IHp]; intros q [tg a0 cs].
  - destruct q as [|j q]; [reflexivity|].
    unfold node; simpl. destruct (nth_error cs j) as [c|]; [|reflexivity].
    destruct (get q c); reflexivity.
  - destruct q as [|j q].
    + unfold node; simpl. now rewrite length_update_nth.
    + unfold node in *; simpl. rewrite nth_error_update_nth.
      destruct (Nat.eq_dec i j) as [->|Hij].
      * destruct (nth_error cs j) as [c|]; simpl; [|reflexivity].
        specialize (IHp q c). rewrite IHp.
        destruct (get q c); [|reflexivity].
        destruct (path_eq_dec p q), (path_eq_dec (j :: p) (j :: q));
          try reflexivity; congruence.
      * destruct (nth_error cs j) as [c|]; [|reflexivity].
        destruct (get q c); [|reflexivity].
        destruct (path_eq_dec (i :: p) (j :: q)); [congruence|reflexivity].
Qed.

Lemma get_app p q t :
  get (p ++ q) t = match get p t with Some e => get q e | None => None end.
Proof.
  revert t; induction p as [|i p IHp]; intros t; simpl; [reflexivity|].
  destruct (nth_error (children t) i); auto.
Qed.

Lemma in_imap {A B} (f : nat -> A -> list B) (l : list A) k y :
  In y (imap f k l) <->
  exists i x, nth_error l i = Some x /\ In y (f (k + i) x).
Proof.
  revert k; induction l as [|x l IHl]; intros k; simpl.
  - split; [tauto|]. intros (i & x & H & _). destruct i; discriminate.
  - rewrite in_app_iff, IHl. split.
    + intros [H|(i & z & Hz & H)].
      * exists 0, x. rewrite Nat.add_0_r. auto.
      * exists (S i), z. rewrite <- Nat.add_succ_comm. auto.
    + intros (i & z & Hz & H). destruct i as [|i].
      * injection Hz as ->. rewrite Nat.add_0_r in H. auto.
      * right. exists i, z. rewrite Nat.add_succ_comm. auto.
Qed.

(** [iter] lists exactly the references that resolve. *)
Lemma in_iter e q : In q (iter e) <-> get q e <> None.
Proof.
  revert q; induction e as [tg a cs IH] using Element_induction; intros q.
  cbn [iter]. destruct q as [|j q].
  - split; [discriminate|]. intros _. now left.
  - cbn [get children]. split.
    + intros [H|H]; [discriminate|].
      apply in_imap in H. destruct H as (i & c & Hc & H).
      apply in_map_iff in H. destruct H as (q' & Hq & H).
      injection Hq as <- <-. rewrite Hc.
      rewrite Forall_forall in IH. apply (IH c); [|exact H].
      eapply nth_error_In; eauto.
    + intros H. right. apply in_imap.
      destruct (nth_error cs j) as [c|] eqn:Hc; [|congruence].
      exists j, c. split; [assumption|]. apply in_map.
      rewrite Forall_forall in IH. apply (IH c); [|exact H].
      eapply nth_error_In; eauto.
Qed.

(** [iter] depends on the shape of the element only. *)
Lemma iter_shape e1 e2 :
  (forall q, get q e1 = None <-> get q e2 = None) -> iter e1 = iter e2.
Proof.
  revert e2; induction e1 as [tg a cs IH] using Element_induction.
  intros [tg2 a2 cs2] H. cbn [iter]. f_equal.
  assert (Hs : forall i q,
             match nth_error cs i with Some c => get q c | None => None end
               = None <->
             match nth_error cs2 i with Some c => get q c | None => None end
               = None)
    by (intros i q; apply (H (i :: q))).
  clear H. generalize 0 as k. revert cs2 Hs.
  induction cs as [|c cs IHcs]; intros cs2 Hs k.
  - destruct cs2 as [|c2 cs2]; [reflexivity|].
    destruct (Hs 0 []) as [H _]. specialize (H eq_refl). discriminate.
  - destruct cs2 as [|c2 cs2].
    + destruct (Hs 0 []) as [_ H]. specialize (H eq_refl). discriminate.
    + inversion IH as [|? ? Hc Hcs]; subst. cbn [imap]. f_equal.
      * f_equal. apply Hc. intros q. apply (Hs 0 q).
      * apply IHcs; [assumption|]. intros i q. apply (Hs (S i) q).
Qed.
End DocumentFacts.

(** ** Two outcomes of the same kind *)

Lemma rel_result_bind {A1 A2 B1 B2} (R : A1 -> A2 -> Prop)
  (R' : B1 -> B2 -> Prop) m1 m2 (k1 : A1 -> result B1) (k2 : A2 -> result B2) :
  rel_result R m1 m2 ->
  (forall a1 a2, R a1 a2 -> rel_result R' (k1 a1) (k2 a2)) ->
  rel_result R' (bind m1 k1) (bind m2 k2).
Proof.
  destruct m1, m2; simpl; intros H Hk; try contradiction; auto.
Qed.

(** Two loops over the same list whose bodies keep a relation between
    their states run in lockstep. *)
Lemma for_each_lockstep {A S1 S2} (R : S1 -> S2 -> Prop) (l : list A)
  (body1 : A -> S1 -> result S1) (body2 : A -> S2 -> result S2) :
  (forall x s1 s2, In x l -> R s1 s2 -> rel_result R (body1 x s1) (body2 x s2)) ->
  forall s1 s2, R s1 s2 ->
  rel_result R (for_each l body1 s1) (for_each l body2 s2).
Proof.
  induction l as [|x l IHl]; intros Hb s1 s2 HR; simpl; [exact HR|].
  apply rel_result_bind with (R := R).
  - apply Hb; [now left|assumption].
  - intros a1 a2 Ha. apply IHl; [|assumption].
    intros y t1 t2 Hy. apply Hb. now right.
Qed.

Lemma comprehension_ext {A} (c1 c2 : A -> result bool) (l : list A) :
  (forall x, In x l -> c1 x = c2 x) -> comprehension c1 l = comprehension c2 l.
Proof.
  induction l as [|x l IHl]; intros H; simpl; [reflexivity|].
  rewrite (H x) by now left. rewrite IHl; [reflexivity|].
  intros y Hy. apply H. now right.
Qed.

Lemma comprehension_incl {A} (c : A -> result bool) (l l' : list A) :
  comprehension c l = Ok l' -> incl l' l.
Proof.
  revert l'; induction l as [|x l IHl]; intros l'; simpl.
  - intros [= <-]. apply incl_refl.
  - destruct (c x) as [b|]; [|discriminate]. simpl.
    destruct (comprehension c l) as [r|]; [|discriminate]. simpl.
    intros [= <-]. specialize (IHl r eq_refl).
    destruct b; [apply incl_cons; [now left|]|]; apply incl_tl; assumption.
Qed.

(** ** What documents of the same frame have in common *)

Section AgreeFacts.
Context {F : Type}.
Variable P : path -> string -> Attrib F -> Attrib F -> Prop.
Variables t1 t2 : Element F.
Hypothesis H12 : agree P t1 t2.

Lemma agree_get_none p : get p t1 = None <-> get p t2 = None.
Proof.
  specialize (H12 p). unfold node in H12.
  destruct (get p t1), (get p t2); try contradiction; split; congruence.
Qed.

Lemma agree_has_tag tg p : has_tag tg t1 p = has_tag tg t2 p.
Proof.
  specialize (H12 p). unfold node in H12. unfold has_tag.
  destruct (get p t1), (get p t2); try contradiction; [|reflexivity].
  destruct H12 as [-> _]. reflexivity.
Qed.

Lemma agree_iter_all p : iter_all p t1 = iter_all p t2.
Proof.
  unfold iter_all. pose proof (agree_get_none p) as Hp.
  destruct (get p t1) as [e1|] eqn:E1, (get p t2) as [e2|] eqn:E2;
    try reflexivity.
  - f_equal. apply iter_shape. intros q.
    pose proof (agree_get_none (p ++ q)) as Hq.
    now rewrite !get_app, E1, E2 in Hq.
  - destruct Hp as [_ Hp]. now specialize (Hp eq_refl).
  - destruct Hp as [Hp _]. now specialize (Hp eq_refl).
Qed.

Lemma agree_iter_tag tg p : iter_tag tg p t1 = iter_tag tg p t2.
Proof.
  unfold iter_tag. rewrite agree_iter_all.
  apply filter_ext. intros q. apply agree_has_tag.
Qed.

Lemma agree_findall tg p : findall tg p t1 = findall tg p t2.
Proof.
  unfold findall. pose proof (H12 p) as Hp. unfold node in Hp.
  destruct (get p t1), (get p t2); try contradiction; [|reflexivity].
  destruct Hp as (_ & -> & _).
  apply filter_ext. intros q. apply agree_has_tag.
Qed.

Lemma agree_find tg p : find tg p t1 = find tg p t2.
Proof. unfold find. now rewrite agree_findall. Qed.

Hypothesis P_frame : forall p tg a1 a2, P p tg a1 a2 -> attr_frame a1 a2.

Lemma agree_name p : attrib_str at_name p t1 = attrib_str at_name p t2.
Proof.
  unfold attrib_str. pose proof (H12 p) as Hp. unfold node in Hp.
  destruct (get p t1), (get p t2); try contradiction; [|reflexivity].
  destruct Hp as (_ & _ & Hp). apply P_frame in Hp.
  destruct Hp as (-> & _). reflexivity.
Qed.

Lemma agree_link p : attrib_str at_link p t1 = attrib_str at_link p t2.
Proof.
  unfold attrib_str. pose proof (H12 p) as Hp. unfold node in Hp.
  destruct (get p t1), (get p t2); try contradiction; [|reflexivity].
  destruct Hp as (_ & _ & Hp). apply P_frame in Hp.
  destruct Hp as (_ & -> & _). reflexivity.
Qed.

Lemma agree_rpy_of p : rpy_of p t1 = rpy_of p t2.
Proof.
  unfold rpy_of. pose proof (H12 p) as Hp. unfold node in Hp.
  destruct (get p t1), (get p t2); try contradiction; [|reflexivity].
  destruct Hp as (_ & _ & Hp). apply P_frame in Hp.
  destruct Hp as (_ & _ & _ & -> & _). reflexivity.
Qed.

Lemma agree_find_parent_link name :
  find_parent_link name t1 = find_parent_link name t2.
Proof.
  unfold find_parent_link. rewrite agree_findall.
  erewrite comprehension_ext; [reflexivity|].
  intros link _. simpl. now rewrite agree_name.
Qed.

Lemma agree_joints_from pl : joints_from pl t1 = joints_from pl t2.
Proof.
  unfold joints_from. rewrite agree_findall.
  apply comprehension_ext. intros joint _. rewrite agree_find.
  destruct (find "parent" joint t2); [|reflexivity].
  now rewrite agree_link, agree_name.
Qed.

Lemma agree_first_child js : first_child js t1 = first_child js t2.
Proof.
  unfold first_child. destruct js as [|j js]; [reflexivity|].
  rewrite agree_find. destruct (find "child" j t2); [|reflexivity].
  apply agree_link.
Qed.
End AgreeFacts.

(** ** Two runs of the loop in lockstep

    The loop reads the numeric attributes only to rescale them: which
    elements it visits, in which order, and whether it raises depend on
    the frame of the document alone.  Hence two runs on documents of the
    same frame proceed in lockstep, and any relation [P] between their
    attributes that the three rescaling steps preserve holds between
    their results. *)

Section Lockstep.
Context {F : Type} {SF : Scalar F}.
Variable rot : vec F -> F -> F -> F -> bool -> vec F.
Variable TAG : path -> string.
Variable P : path -> Attrib F -> Attrib F -> Prop.
Variable S : vec F -> vec F -> Prop.

Hypothesis P_frame : forall p a1 a2, P p a1 a2 -> attr_frame a1 a2.
Hypothesis P_mesh : forall p s1 s2 a1 a2 b1 b2,
  TAG p = "mesh"%string -> S s1 s2 -> P p a1 a2 ->
  scale_mesh s1 a1 = Ok b1 -> scale_mesh s2 a2 = Ok b2 -> P p b1 b2.
Hypothesis P_origin : forall p s1 s2 a1 a2 b1 b2,
  TAG p = "origin"%string -> S s1 s2 -> P p a1 a2 ->
  scale_origin s1 a1 = Ok b1 -> scale_origin s2 a2 = Ok b2 -> P p b1 b2.
Hypothesis P_axis : forall p s1 s2 a1 a2 b1 b2,
  TAG p = "axis"%string -> S s1 s2 -> P p a1 a2 ->
  scale_axis s1 a1 = Ok b1 -> scale_axis s2 a2 = Ok b2 -> P p b1 b2.
Hypothesis S_rot : forall i s1 s2 a1 a2 r,
  TAG [i] = "joint"%string -> S s1 s2 -> P [i] a1 a2 -> at_rpy a1 = Some r ->
  S (np_absolute (rot s1 (vx r) (vy r) (vz r) true))
    (np_absolute (rot s2 (vx r) (vy r) (vz r) true)).

Local Abbreviation PT := (tagged TAG P).

Lemma PT_frame p tg a1 a2 : PT p tg a1 a2 -> attr_frame a1 a2.
Proof. intros [_ H]. eauto. Qed.

Lemma agree_tag t1 t2 tg p :
  agree PT t1 t2 -> has_tag tg t1 p = true -> TAG p = tg.
Proof.
  intros H Ht. specialize (H p). unfold node in H. unfold has_tag in Ht.
  destruct (get p t1) as [e1|]; [|discriminate].
  destruct (get p t2); [|contradiction].
  destruct H as (_ & _ & <- & _). now apply String.eqb_eq.
Qed.

Lemma agree_iter_tag_tag t1 t2 tg q p :
  agree PT t1 t2 -> In p (iter_tag tg q t1) -> TAG p = tg.
Proof.
  intros H Hp. apply filter_In in Hp. eapply agree_tag; [eassumption|apply Hp].
Qed.

Lemma agree_findall_tag t1 t2 tg q p :
  agree PT t1 t2 -> In p (findall tg q t1) -> TAG p = tg.
Proof.
  intros H Hp. unfold findall in Hp. destruct (get q t1); [|contradiction].
  apply filter_In in Hp. eapply agree_tag; [eassumption|apply Hp].
Qed.

(** One in-place update on each side. *)
Lemma mutate_lockstep f1 f2 p t1 t2 :
  (forall a1 a2, P p a1 a2 -> rel_result (P p) (f1 a1) (f2 a2)) ->
  agree PT t1 t2 ->
  rel_result (agree PT) (mutate f1 p t1) (mutate f2 p t2).
Proof.
  intros Hf H. unfold mutate. pose proof (H p) as Hp. unfold node in Hp.
  destruct (get p t1) as [e1|], (get p t2) as [e2|]; try contradiction;
    [|exact H].
  destruct Hp as (_ & _ & _ & Hp). specialize (Hf _ _ Hp).
  destruct (f1 (attrib e1)) as [b1|], (f2 (attrib e2)) as [b2|]; simpl in *;
    try contradiction; [|assumption].
  intros q. rewrite !node_set_attrib. specialize (H q).
  destruct (node q t1) as [[[tg1 a1] n1]|], (node q t2) as [[[tg2 a2] n2]|];
    try contradiction; [|exact I].
  destruct H as (-> & -> & Ht & Ha). repeat split; try assumption.
  destruct (path_eq_dec p q) as [->|]; assumption.
Qed.

Lemma scale_mesh_lockstep p s1 s2 a1 a2 :
  TAG p = "mesh"%string -> S s1 s2 -> P p a1 a2 ->
  rel_result (P p) (scale_mesh s1 a1) (scale_mesh s2 a2).
Proof.
  intros Ht Hs Ha.
  destruct (scale_mesh s1 a1) as [b1|] eqn:E1;
    [|unfold scale_mesh in E1; destruct (at_scale a1); discriminate].
  destruct (scale_mesh s2 a2) as [b2|] eqn:E2;
    [|unfold scale_mesh in E2; destruct (at_scale a2); discriminate].
  simpl. eauto.
Qed.

Lemma scale_origin_lockstep p s1 s2 a1 a2 :
  TAG p = "origin"%string -> S s1 s2 -> P p a1 a2 ->
  rel_result (P p) (scale_origin s1 a1) (scale_origin s2 a2).
Proof.
  intros Ht Hs Ha.
  destruct (scale_origin s1 a1) as [b1|] eqn:E1,
           (scale_origin s2 a2) as [b2|] eqn:E2; simpl; eauto;
    apply P_frame in Ha; destruct Ha as (_ & _ & _ & _ & Hx);
    unfold scale_origin in *;
    destruct (at_xyz a1), (at_xyz a2); try discriminate;
    try (destruct Hx as [Hx _]; now specialize (Hx eq_refl));
    try (destruct Hx as [_ Hx]; now specialize (Hx eq_refl)).
  congruence.
Qed.

Lemma scale_axis_lockstep p s1 s2 a1 a2 :
  TAG p = "axis"%string -> S s1 s2 -> P p a1 a2 ->
  rel_result (P p) (scale_axis s1 a1) (scale_axis s2 a2).
Proof.
  intros Ht Hs Ha.
  destruct (scale_axis s1 a1) as [b1|] eqn:E1,
           (scale_axis s2 a2) as [b2|] eqn:E2; simpl; eauto;
    apply P_frame in Ha; destruct Ha as (_ & _ & _ & _ & Hx);
    unfold scale_axis in *;
    destruct (at_xyz a1), (at_xyz a2); try discriminate;
    try (destruct Hx as [Hx _]; now specialize (Hx eq_refl));
    try (destruct Hx as [_ Hx]; now specialize (Hx eq_refl)).
  congruence.
Qed.

(** A loop over the elements with one tag, rescaling each. *)
Lemma rescale_tag_lockstep tg f1 f2 q t1 t2 :
  (forall p a1 a2, TAG p = tg -> P p a1 a2 ->
                   rel_result (P p) (f1 a1) (f2 a2)) ->
  agree PT t1 t2 ->
  rel_result (agree PT)
    (for_each (iter_tag tg q t1) (mutate f1) t1)
    (for_each (iter_tag tg q t2) (mutate f2) t2).
Proof.
  intros Hf H. rewrite <- (agree_iter_tag H).
  apply for_each_lockstep; [|assumption].
  intros p u1 u2 Hp Hu. apply mutate_lockstep; [|assumption].
  intros a1 a2. apply Hf. eapply agree_iter_tag_tag; [exact H|exact Hp].
Qed.

Lemma scale_link_lockstep s1 s2 pl t1 t2 :
  S s1 s2 -> agree PT t1 t2 ->
  rel_result (agree PT) (scale_link s1 pl t1) (scale_link s2 pl t2).
Proof.
  intros Hs H. unfold scale_link. rewrite <- (agree_iter_all H).
  apply for_each_lockstep; [|assumption].
  intros c u1 u2 _ Hu.
  apply rel_result_bind with (R := agree PT).
  - apply rescale_tag_lockstep; [|assumption].
    intros p a1 a2 Ht. now apply scale_mesh_lockstep.
  - intros v1 v2 Hv. apply rescale_tag_lockstep; [|assumption].
    intros p a1 a2 Ht. now apply scale_origin_lockstep.
Qed.

Local Abbreviation WR := (walk_rel TAG P S).

Lemma in_findall_root tg (t : Element F) j :
  In j (findall tg [] t) -> exists i, j = [i].
Proof.
  unfold findall. simpl. intros H. apply filter_In in H. destruct H as [H _].
  apply in_map_iff in H. destruct H as (i & <- & _). now exists i.
Qed.

Lemma process_joint_lockstep js i w1 w2 :
  TAG [i] = "joint"%string -> WR w1 w2 ->
  rel_result WR (process_joint rot js [i] w1) (process_joint rot js [i] w2).
Proof.
  intros Hj (Ht & Hs & Hn). unfold process_joint. set (j := [i]) in *.
  apply rel_result_bind with (R := agree PT).
  { apply rescale_tag_lockstep; [|assumption].
    intros p a1 a2 Hp. now apply scale_origin_lockstep. }
  intros u1 u2 Hu.
  assert (Hs' : S match rpy_of j u1 with
                  | Some r => np_absolute
                                (rot (cur_scale w1) (vx r) (vy r) (vz r) true)
                  | None => cur_scale w1
                  end
                  match rpy_of j u2 with
                  | Some r => np_absolute
                                (rot (cur_scale w2) (vx r) (vy r) (vz r) true)
                  | None => cur_scale w2
                  end).
  { rewrite <- (agree_rpy_of Hu PT_frame).
    unfold rpy_of. pose proof (Hu j) as Hu'. unfold node in Hu'.
    destruct (get j u1) as [e1|]; [|assumption].
    destruct (get j u2) as [e2|]; [|contradiction].
    destruct Hu' as (_ & _ & _ & Hp).
    destruct (at_rpy (attrib e1)) as [r|] eqn:Er; [|assumption].
    eapply S_rot; eassumption. }
  apply rel_result_bind with (R := agree PT).
  { apply rescale_tag_lockstep; [|assumption].
    intros p a1 a2 Hp. now apply scale_axis_lockstep. }
  intros v1 v2 Hv. rewrite <- (agree_first_child Hv PT_frame).
  destruct (first_child js v1); simpl; [|reflexivity].
  repeat split; assumption.
Qed.

Lemma loop_body_lockstep name w1 w2 :
  WR w1 w2 -> rel_result WR (loop_body rot name w1) (loop_body rot name w2).
Proof.
  intros (Ht & Hs & Hn). unfold loop_body.
  rewrite <- (agree_find_parent_link Ht PT_frame).
  destruct (find_parent_link name (object_tree w1)) as [pl|]; simpl;
    [|reflexivity].
  apply rel_result_bind with (R := agree PT).
  { now apply scale_link_lockstep. }
  intros u1 u2 Hu. rewrite <- (agree_joints_from Hu PT_frame).
  destruct (joints_from pl u1) as [js|] eqn:Ejs; simpl; [|reflexivity].
  destruct js as [|j js]; [repeat split; assumption|].
  apply for_each_lockstep; [|repeat split; assumption].
  intros x x1 x2 Hx Hw.
  apply comprehension_incl in Ejs. apply Ejs in Hx.
  destruct (in_findall_root _ _ _ Hx) as (i & ->).
  apply process_joint_lockstep; [|assumption].
  eapply agree_findall_tag; [exact Hu|exact Hx].
Qed.

Theorem while_loop_lockstep fuel w1 w2 :
  WR w1 w2 ->
  rel_option (rel_result WR) (while_loop rot fuel w1) (while_loop rot fuel w2).
Proof.
  revert w1 w2; induction fuel as [|fuel IH]; intros w1 w2 Hw;
    pose proof Hw as (_ & _ & Hn); simpl; rewrite <- Hn;
    destruct (parent_link_name w1) as [name|]; simpl; try assumption;
    try exact I.
  pose proof (loop_body_lockstep name Hw) as Hb.
  destruct (loop_body rot name w1) as [v1|], (loop_body rot name w2) as [v2|];
    simpl in Hb; try contradiction; [|assumption].
  now apply IH.
Qed.
End Lockstep.

(** ** One run: what an iteration leaves unchanged *)

Section FrameFacts.
Context {F : Type} {SF : Scalar F}.
Implicit Types (t u : Element F) (a b : Attrib F).

Lemma attr_frame_refl a : attr_frame a a.
Proof. unfold attr_frame. tauto. Qed.

Lemma attr_frame_sym a b : attr_frame a b -> attr_frame b a.
Proof. unfold attr_frame. intuition congruence. Qed.

Lemma attr_frame_trans a b c : attr_frame a b -> attr_frame b c -> attr_frame a c.
Proof.
  unfold attr_frame. intros (-> & -> & -> & -> & H1) (-> & -> & -> & -> & H2).
  tauto.
Qed.

Lemma frame_refl t : frame t t.
Proof.
  intros p. destruct (node p t) as [[[tg a] n]|]; [|exact I].
  auto using attr_frame_refl.
Qed.

Lemma frame_sym t u : frame t u -> frame u t.
Proof.
  intros H p. specialize (H p).
  destruct (node p t) as [[[tg a] n]|], (node p u) as [[[tg' a'] n']|];
    try contradiction; [|exact I].
  destruct H as (-> & -> & H). auto using attr_frame_sym.
Qed.

Lemma frame_trans t u v : frame t u -> frame u v -> frame t v.
Proof.
  intros H1 H2 p. specialize (H1 p). specialize (H2 p).
  destruct (node p t) as [[[tg a] n]|], (node p u) as [[[tg' a'] n']|],
    (node p v) as [[[tg'' a''] n'']|]; try contradiction; [|exact I].
  destruct H1 as (-> & -> & H1), H2 as (-> & -> & H2).
  eauto using attr_frame_trans.
Qed.

Lemma frame_attr (p : path) (tg : string) a b :
  (fun (_ : path) (_ : string) => @attr_frame F) p tg a b -> attr_frame a b.
Proof. auto. Qed.

Lemma scale_mesh_total s a : scale_mesh s a = Ok (mesh_scaled s a).
Proof. unfold scale_mesh, mesh_scaled. destruct (at_scale a); reflexivity. Qed.

Lemma scale_origin_ok s a b : scale_origin s a = Ok b -> b = xyz_scaled s a.
Proof.
  unfold scale_origin, xyz_scaled. destruct (at_xyz a); [|discriminate].
  now intros [= <-].
Qed.

Lemma scale_axis_ok s a b : scale_axis s a = Ok b -> b = axis_scaled s a.
Proof.
  unfold scale_axis, axis_scaled, normalized. destruct (at_xyz a); [|discriminate].
  now intros [= <-].
Qed.

Lemma mesh_scaled_frame s a : attr_frame a (mesh_scaled s a).
Proof.
  unfold mesh_scaled, attr_frame. destruct (at_scale a); simpl; tauto.
Qed.

Lemma xyz_scaled_frame s a : attr_frame a (xyz_scaled s a).
Proof.
  unfold xyz_scaled, attr_frame. destruct (at_xyz a) eqn:E; simpl;
    repeat split; auto; congruence.
Qed.

Lemma axis_scaled_frame s a : attr_frame a (axis_scaled s a).
Proof.
  unfold axis_scaled, attr_frame. destruct (at_xyz a) eqn:E; simpl;
    repeat split; auto; congruence.
Qed.

(** The exact effect of one in-place update. *)
Lemma mutate_other f p t t' q :
  mutate f p t = Ok t' -> q <> p -> node q t' = node q t.
Proof.
  unfold mutate. intros H Hq.
  destruct (get p t) as [e|] eqn:E; [|now injection H as <-].
  destruct (f (attrib e)) as [b|] eqn:Ef; [|discriminate].
  injection H as <-. rewrite node_set_attrib.
  destruct (node q t) as [[[tg a] n]|] eqn:En; [|reflexivity].
  destruct (path_eq_dec p q) as [<-|]; [contradiction|reflexivity].
Qed.

Lemma mutate_same f p t t' tg a n :
  mutate f p t = Ok t' -> node p t = Some (tg, a, n) ->
  exists b, f a = Ok b /\ node p t' = Some (tg, b, n).
Proof.
  unfold mutate, node at 1. intros H Hn.
  destruct (get p t) as [e|] eqn:E; [|discriminate].
  injection Hn as <- <- <-.
  destruct (f (attrib e)) as [b|] eqn:Ef; [|discriminate].
  injection H as <-. exists b. split; [reflexivity|].
  rewrite node_set_attrib. unfold node. rewrite E.
  destruct (path_eq_dec p p); [reflexivity|contradiction].
Qed.

Lemma mutate_none f p t t' :
  mutate f p t = Ok t' -> node p t = None -> t' = t.
Proof.
  unfold mutate, node. destruct (get p t); [discriminate|].
  now intros [= <-].
Qed.

Lemma mutate_frame f p t t' :
  (forall a b, f a = Ok b -> attr_frame a b) ->
  mutate f p t = Ok t' -> frame t t'.
Proof.
  intros Hf H q. destruct (path_eq_dec q p) as [->|Hq].
  - destruct (node p t) as [[[tg a] n]|] eqn:En.
    + destruct (mutate_same _ _ _ H En) as (b & Hb & ->). auto.
    + rewrite (mutate_none _ _ _ H En), En. exact I.
  - rewrite (mutate_other _ _ H Hq). apply frame_refl.
Qed.

(** A loop whose body keeps a preorder between the state before and the
    state after keeps it overall. *)
Lemma for_each_preserves {A S} (R : S -> S -> Prop) (l : list A)
  (body : A -> S -> result S) :
  (forall s, R s s) -> (forall s1 s2 s3, R s1 s2 -> R s2 s3 -> R s1 s3) ->
  (forall x s s', In x l -> body x s = Ok s' -> R s s') ->
  forall s s', for_each l body s = Ok s' -> R s s'.
Proof.
  intros Hrefl Htrans. induction l as [|x l IHl]; intros Hb s s'; simpl.
  - intros [= <-]. apply Hrefl.
  - destruct (body x s) as [s1|] eqn:E; [|discriminate]. simpl. intros H.
    apply Htrans with s1; [apply (Hb x); [now left|assumption]|].
    apply IHl; [|assumption]. intros y u u' Hy. apply Hb. now right.
Qed.

Lemma rescale_tag_frame tg f q t t' :
  (forall a b, f a = Ok b -> attr_frame a b) ->
  for_each (iter_tag tg q t) (mutate f) t = Ok t' -> frame t t'.
Proof.
  intros Hf. apply for_each_preserves;
    [apply frame_refl|apply frame_trans|].
  intros p u u' _. now apply mutate_frame.
Qed.

Lemma scale_mesh_frame s a b : scale_mesh s a = Ok b -> attr_frame a b.
Proof. rewrite scale_mesh_total. intros [= <-]. apply mesh_scaled_frame. Qed.

Lemma scale_origin_frame s a b : scale_origin s a = Ok b -> attr_frame a b.
Proof. intros H. apply scale_origin_ok in H as ->. apply xyz_scaled_frame. Qed.

Lemma scale_axis_frame s a b : scale_axis s a = Ok b -> attr_frame a b.
Proof. intros H. apply scale_axis_ok in H as ->. apply axis_scaled_frame. Qed.

Lemma scale_link_frame s pl t t' : scale_link s pl t = Ok t' -> frame t t'.
Proof.
  unfold scale_link. apply for_each_preserves;
    [apply frame_refl|apply frame_trans|].
  intros c u u' _ H.
  destruct (for_each (iter_tag "mesh" c u) (mutate (scale_mesh s)) u)
    as [v|] eqn:E; [|discriminate]. simpl in H.
  apply frame_trans with v.
  - eapply rescale_tag_frame; [|exact E]. apply scale_mesh_frame.
  - eapply rescale_tag_frame; [|exact H]. apply scale_origin_frame.
Qed.

End FrameFacts.

Section JointFacts.
Context {F : Type} {SF : Scalar F}.
Variable rot : vec F -> F -> F -> F -> bool -> vec F.

(** One joint: the document keeps its frame, the scale is turned through
    the joint's [rpy], and the next link is the child of the first
    matching joint. *)
Lemma process_joint_frame js j w w' :
  process_joint rot js j w = Ok w' ->
  frame (object_tree w) (object_tree w') /\
  cur_scale w' = turn rot (rpy_of j (object_tree w)) (cur_scale w) /\
  exists name, first_child js (object_tree w) = Ok name /\
               parent_link_name w' = Some name.
Proof.
  unfold process_joint. intros H.
  destruct (for_each (iter_tag "origin" j (object_tree w))
              (mutate (scale_origin (cur_scale w))) (object_tree w))
    as [u|] eqn:Eu; [|discriminate]. simpl in H.
  assert (Hu : frame (object_tree w) u)
    by (eapply rescale_tag_frame; [|exact Eu]; apply scale_origin_frame).
  match type of H with
  | bind (for_each ?l ?b u) _ = _ => destruct (for_each l b u) as [v|] eqn:Ev
  end; [|discriminate]. simpl in H.
  assert (Hv : frame u v)
    by (eapply rescale_tag_frame; [|exact Ev]; apply scale_axis_frame).
  destruct (first_child js v) as [name|] eqn:En; [|discriminate].
  injection H as <-. simpl.
  pose proof (frame_trans Hu Hv) as Huv.
  split; [assumption|]. split.
  - rewrite (agree_rpy_of Hu frame_attr). reflexivity.
  - exists name. split; [|reflexivity].
    now rewrite (agree_first_child Huv frame_attr).
Qed.
End JointFacts.

Section LoopFacts.
Context {F : Type} {SF : Scalar F}.
Variable rot : vec F -> F -> F -> F -> bool -> vec F.
Implicit Types (t u : Element F) (w : Walk F).

(** The joints of one link, in document order. *)
Lemma for_each_joints_spec js js' w w' :
  for_each js' (process_joint rot js) w = Ok w' ->
  frame (object_tree w) (object_tree w') /\
  cur_scale w' =
    fold_left (fun s j => turn rot (rpy_of j (object_tree w)) s) js'
      (cur_scale w) /\
  match js' with
  | [] => w' = w
  | _ :: _ => exists name, first_child js (object_tree w) = Ok name /\
                           parent_link_name w' = Some name
  end.
Proof.
  revert w; induction js' as [|j js' IH]; intros w; simpl.
  - intros [= <-]. auto using frame_refl.
  - destruct (process_joint rot js j w) as [w1|] eqn:E1; [|discriminate].
    simpl. intros H. apply process_joint_frame in E1.
    destruct E1 as (Hf1 & Hs1 & name1 & Hc1 & Hn1).
    destruct (IH _ H) as (Hf & Hs & Hn).
    split; [eapply frame_trans; eassumption|]. split.
    + rewrite Hs, Hs1. clear - Hf1.
      generalize (turn rot (rpy_of j (object_tree w)) (cur_scale w)) as s.
      induction js' as [|k js' IHk]; intros s; simpl; [reflexivity|].
      rewrite <- (agree_rpy_of Hf1 (@frame_attr F)). apply IHk.
    + destruct js' as [|k js'].
      * subst w'. eauto.
      * destruct Hn as (name & Hc & Hn). exists name. split; [|assumption].
        now rewrite (agree_first_child Hf1 (@frame_attr F)).
Qed.

(** One iteration of the loop. *)
Lemma loop_body_spec name w w' :
  loop_body rot name w = Ok w' ->
  exists parent_link joint_news,
    find_parent_link name (object_tree w) = Ok parent_link /\
    joints_from parent_link (object_tree w) = Ok joint_news /\
    frame (object_tree w) (object_tree w') /\
    cur_scale w' =
      fold_left (fun s j => turn rot (rpy_of j (object_tree w)) s) joint_news
        (cur_scale w) /\
    match joint_news with
    | [] => parent_link_name w' = None
    | _ :: _ => exists child, first_child joint_news (object_tree w) = Ok child /\
                              parent_link_name w' = Some child
    end.
Proof.
  unfold loop_body. intros H.
  destruct (find_parent_link name (object_tree w)) as [pl|]; [|discriminate].
  simpl in H.
  destruct (scale_link (cur_scale w) pl (object_tree w)) as [u|] eqn:Eu;
    [|discriminate]. simpl in H.
  pose proof (scale_link_frame _ _ _ Eu) as Hu.
  destruct (joints_from pl u) as [js|] eqn:Ejs; [|discriminate]. simpl in H.
  exists pl, js. split; [reflexivity|].
  split; [now rewrite (agree_joints_from Hu (@frame_attr F))|].
  destruct js as [|j js].
  - injection H as <-. simpl. auto.
  - apply for_each_joints_spec in H. cbn [object_tree cur_scale] in H.
    destruct H as (Hf & Hs & child & Hc & Hn).
    split; [eapply frame_trans; eassumption|]. split.
    + rewrite Hs. clear - Hu. generalize (cur_scale w) as s.
      generalize (j :: js) as l.
      induction l as [|k l IHl]; intros s; simpl; [reflexivity|].
      rewrite <- (agree_rpy_of Hu (@frame_attr F)). apply IHl.
    + exists child. split; [|assumption].
      now rewrite (agree_first_child Hu (@frame_attr F)).
Qed.

Lemma frame_no_joint_rotation t u :
  frame t u -> no_joint_rotation t -> no_joint_rotation u.
Proof.
  intros H Ht j Hj. rewrite <- (agree_findall H) in Hj.
  rewrite <- (agree_rpy_of H (@frame_attr F)). auto.
Qed.

Lemma in_joints_from pl t js j :
  joints_from pl t = Ok js -> In j js -> In j (findall "joint" [] t).
Proof. intros H. apply comprehension_incl in H. apply H. Qed.

Lemma reaches_frame w0 w :
  reaches rot w0 w -> frame (object_tree w0) (object_tree w).
Proof.
  induction 1 as [|name w1 w2 _ IH _ Hb]; [apply frame_refl|].
  apply loop_body_spec in Hb. destruct Hb as (pl & js & _ & _ & Hf & _).
  eapply frame_trans; eassumption.
Qed.

(** A run that the fuel lets finish goes through the states of [reaches]. *)
Lemma while_loop_reaches fuel w w' :
  while_loop rot fuel w = Some (Ok w') ->
  reaches rot w w' /\ parent_link_name w' = None.
Proof.
  intros H.
  assert (G : forall w0, reaches rot w0 w ->
                         reaches rot w0 w' /\ parent_link_name w' = None);
    [|apply G; constructor].
  revert w H; induction fuel as [|fuel IH]; intros w H w0 Hw0; simpl in H;
    destruct (parent_link_name w) as [name|] eqn:En;
    try discriminate; try (injection H as <-; now split).
  destruct (loop_body rot name w) as [w1|] eqn:Eb; [|discriminate].
  apply (IH _ H). econstructor; eassumption.
Qed.

(** More fuel does not change the outcome of a run. *)
Lemma while_loop_fuel fuel fuel' w r :
  while_loop rot fuel w = Some r -> fuel <= fuel' ->
  while_loop rot fuel' w = Some r.
Proof.
  revert fuel' w; induction fuel as [|fuel IH]; intros fuel' w H Hle;
    simpl in H.
  - destruct (parent_link_name w) eqn:En; [discriminate|].
    destruct fuel'; simpl; now rewrite En.
  - destruct fuel' as [|fuel']; [lia|]. simpl.
    destruct (parent_link_name w); [|assumption].
    destruct (loop_body rot s w); [|assumption].
    apply IH; [assumption|lia].
Qed.
End LoopFacts.

(** ** One run: the exact effect of a rescaling loop *)

Section PointwiseFacts.
Context {F : Type}.
Implicit Types (t u e : Element F) (p q : path).

Lemma NoDup_map_inj {A B} (f : A -> B) (l : list A) :
  (forall x y, f x = f y -> x = y) -> NoDup l -> NoDup (map f l).
Proof.
  intros Hf. induction 1 as [|x l Hx _ IH]; simpl; constructor; auto.
  intros H. apply in_map_iff in H. destruct H as (y & Hy & Hin).
  apply Hf in Hy. now subst.
Qed.

Lemma NoDup_imap {A B} (f : nat -> A -> list B) (l : list A) k :
  (forall i x, nth_error l i = Some x -> NoDup (f (k + i) x)) ->
  (forall i j x y z, nth_error l i = Some x -> nth_error l j = Some y ->
                     In z (f (k + i) x) -> In z (f (k + j) y) -> i = j) ->
  NoDup (imap f k l).
Proof.
  revert k; induction l as [|x l IHl]; intros k Hn Hd; simpl;
    [constructor|].
  apply NoDup_app.
  - rewrite <- (Nat.add_0_r k). now apply (Hn 0).
  - apply IHl.
    + intros i y Hy. rewrite Nat.add_succ_comm. now apply (Hn (S i)).
    + intros i j y1 y2 z H1 H2 Hz1 Hz2.
      rewrite Nat.add_succ_comm in Hz1, Hz2.
      specialize (Hd (S i) (S j) y1 y2 z H1 H2 Hz1 Hz2). lia.
  - intros z Hz Hz'. apply in_imap in Hz'. destruct Hz' as (i & y & Hy & Hz').
    rewrite Nat.add_succ_comm in Hz'. rewrite <- (Nat.add_0_r k) in Hz.
    specialize (Hd 0 (S i) x y z eq_refl Hy Hz Hz'). discriminate.
Qed.

(** No element is listed twice by [iter]. *)
Lemma NoDup_iter e : NoDup (iter e).
Proof.
  induction e as [tg a cs IH] using Element_induction. cbn [iter].
  constructor.
  - intros H. apply in_imap in H. destruct H as (i & c & _ & H).
    apply in_map_iff in H. destruct H as (? & ? & _). discriminate.
  - apply NoDup_imap.
    + intros i c Hc. apply NoDup_map_inj; [now intros ? ? [= ->]|].
      rewrite Forall_forall in IH. apply IH. eapply nth_error_In; eauto.
    + intros i j c1 c2 z _ _ H1 H2.
      apply in_map_iff in H1, H2.
      destruct H1 as (? & <- & _), H2 as (? & [= H _] & _). simpl in H. lia.
Qed.

Lemma NoDup_iter_tag tg q t : NoDup (iter_tag tg q t).
Proof.
  unfold iter_tag, iter_all. apply NoDup_filter.
  destruct (get q t); [|constructor].
  apply NoDup_map_inj; [apply app_inv_head|apply NoDup_iter].
Qed.

Lemma in_iter_tag tg q t p :
  In p (iter_tag tg q t) <->
  has_tag tg t p = true /\ exists r, p = q ++ r.
Proof.
  unfold iter_tag, iter_all. rewrite filter_In. split.
  - intros [H Ht]. split; [assumption|].
    destruct (get q t); [|contradiction].
    apply in_map_iff in H. destruct H as (r & <- & _). eauto.
  - intros [Ht (r & ->)]. split; [|assumption].
    unfold has_tag in Ht. rewrite get_app in Ht.
    destruct (get q t) as [e|]; [|discriminate].
    apply in_map. apply in_iter. destruct (get r e); [discriminate|discriminate].
Qed.

Lemma in_iter_tag_root tg t p :
  In p (iter_tag tg [] t) <-> has_tag tg t p = true.
Proof.
  rewrite in_iter_tag. split; [tauto|]. intros H. split; [assumption|].
  now exists p.
Qed.

(** A loop of in-place updates over distinct elements applies the update
    once to each of them and leaves the others alone. *)
Lemma for_each_mutate_spec f (l : list path) t t' :
  NoDup l ->
  for_each l (mutate f) t = Ok t' ->
  forall p,
    (In p l -> forall tg a n, node p t = Some (tg, a, n) ->
               exists b, f a = Ok b /\ node p t' = Some (tg, b, n)) /\
    (~ In p l -> node p t' = node p t).
Proof.
  intros Hl. revert t. induction Hl as [|x l Hx Hl IH]; intros t; simpl.
  - intros [= <-] p. split; [contradiction|reflexivity].
  - destruct (mutate f x t) as [u|] eqn:Eu; [|discriminate]. simpl.
    intros H p. specialize (IH _ H p). destruct IH as [IH1 IH2].
    split.
    + intros [->|Hin] tg a n Hn.
      * rewrite (IH2 Hx). eapply mutate_same; eassumption.
      * assert (Hne : p <> x) by (intros ->; contradiction).
        apply IH1; [assumption|].
        now rewrite (mutate_other _ _ Eu Hne).
    + intros Hnot.
      assert (Hne : p <> x) by (intros ->; apply Hnot; now left).
      rewrite <- (mutate_other _ _ Eu Hne). apply IH2.
      intros Hin. apply Hnot. now right.
Qed.
End PointwiseFacts.

Section RescaleTagFacts.
Context {F : Type} {SF : Scalar F}.
Implicit Types (t u : Element F) (w : Walk F).

Lemma rescale_tag_in tg f q t t' p tg' a n :
  for_each (iter_tag tg q t) (mutate f) t = Ok t' ->
  In p (iter_tag tg q t) -> node p t = Some (tg', a, n) ->
  exists b, f a = Ok b /\ node p t' = Some (tg', b, n).
Proof.
  intros H Hin. eapply for_each_mutate_spec in H; [|apply NoDup_iter_tag].
  now apply H.
Qed.

Lemma rescale_tag_out tg f q t t' p :
  for_each (iter_tag tg q t) (mutate f) t = Ok t' ->
  ~ In p (iter_tag tg q t) -> node p t' = node p t.
Proof.
  intros H Hin. eapply for_each_mutate_spec in H; [|apply NoDup_iter_tag].
  now apply H.
Qed.

Lemma node_has_tag t p tg a n tg' :
  node p t = Some (tg, a, n) -> has_tag tg' t p = String.eqb tg tg'.
Proof.
  unfold node, has_tag. destruct (get p t); [|discriminate].
  now intros [= <- _ _].
Qed.



End RescaleTagFacts.

Section AxisFacts.
Context {F : Type} {SF : Scalar F}.
Variable rot : vec F -> F -> F -> F -> bool -> vec F.
Implicit Types (t u : Element F) (w : Walk F).





End AxisFacts.

(** ** Two runs on the same frame rescale the same elements equally often *)

Section AlikeFacts.
Context {F : Type} {SF : Scalar F}.
Variable rot : vec F -> F -> F -> F -> bool -> vec F.
Implicit Types (t u : Element F) (w : Walk F).

Lemma node_tag_at t p tg a n :
  node p t = Some (tg, a, n) -> tag_at t p = tg /\ attrib_at t p = a.
Proof.
  unfold node, tag_at, attrib_at. destruct (get p t); [|discriminate].
  now intros [= <- <- _].
Qed.

Lemma in_findall_child tg t i a n :
  node [i] t = Some (tg, a, n) -> In [i] (findall tg [] t).
Proof.
  intros H. unfold findall. cbn [get]. apply filter_In. split.
  - apply in_map_iff. exists i. split; [reflexivity|]. apply in_seq.
    unfold node in H. cbn [get] in H.
    destruct (nth_error (children t) i) eqn:E; [|discriminate].
    assert (i < List.length (children t)) by (apply nth_error_Some; congruence).
    lia.
  - rewrite (node_has_tag _ _ _ H). apply String.eqb_refl.
Qed.

Lemma frame_alike t1 t2 s1 s2 :
  no_joint_rotation t1 -> frame t1 t2 ->
  agree (tagged (tag_at t1) (rescaled_alike t1 t2 s1 s2)) t1 t2.
Proof.
  intros Hrot H p. specialize (H p).
  destruct (node p t1) as [[[tg a1] n1]|] eqn:E1,
           (node p t2) as [[[tg2 a2] n2]|] eqn:E2; try contradiction;
    [|exact I].
  destruct H as (<- & <- & H).
  destruct (node_tag_at _ _ E1) as [Ht Ha1].
  destruct (node_tag_at _ _ E2) as [_ Ha2].
  split; [reflexivity|]. split; [reflexivity|].
  split; [now symmetry|]. split; [assumption|]. split.
  - intros i -> Hj. rewrite Hj in Ht. subst tg.
    pose proof (Hrot _ (in_findall_child _ _ E1)) as Hr.
    unfold rpy_of in Hr. unfold node in E1.
    destruct (get [i] t1); [|discriminate]. now injection E1 as _ <- _.
  - exists 0. simpl. split; congruence.
Qed.

(** The back-and-forth of two runs: when the first ends, so does the
    second, and every element has been rescaled equally often in both. *)
Lemma while_loop_alike fuel t1 t2 s1 s2 name w1 :
  no_joint_rotation t1 -> frame t1 t2 ->
  while_loop rot fuel (Build_Walk t1 s1 name) = Some (Ok w1) ->
  exists w2,
    while_loop rot fuel (Build_Walk t2 s2 name) = Some (Ok w2) /\
    agree (tagged (tag_at t1) (rescaled_alike t1 t2 s1 s2))
      (object_tree w1) (object_tree w2).
Proof.
  intros Hrot Hfr H1.
  pose proof (@while_loop_lockstep F SF rot (tag_at t1)
                (rescaled_alike t1 t2 s1 s2)
                (fun x y => x = s1 /\ y = s2)) as L.
  assert (Hstep : forall tg p s1' s2' a1 a2 (f : vec F -> Attrib F -> Attrib F),
             tag_at t1 p = tg -> (forall s, step_of tg s = f s) ->
             (forall s a, attr_frame a (f s a)) ->
             s1' = s1 /\ s2' = s2 -> rescaled_alike t1 t2 s1 s2 p a1 a2 ->
             rescaled_alike t1 t2 s1 s2 p (f s1' a1) (f s2' a2)).
  { intros tg p s1' s2' a1 a2 f Ht Hf Hfr' [-> ->] (Ha & Hr & k & -> & ->).
    subst tg. split; [|split].
    - eapply attr_frame_trans; [apply attr_frame_sym, Hfr'|].
      eapply attr_frame_trans; [exact Ha|apply Hfr'].
    - intros i Hi Hj. destruct (Hfr' s1 (Nat.iter k (step_of (tag_at t1 p) s1) (attrib_at t1 p)))
        as (_ & _ & _ & <- & _). apply (Hr i); congruence.
    - exists (Datatypes.S k). cbn [Nat.iter]. now rewrite !Hf. }
  specialize (L (fun p a1 a2 H => proj1 H)).
  assert (L1 : forall p s1' s2' a1 a2 b1 b2,
             tag_at t1 p = "mesh"%string -> s1' = s1 /\ s2' = s2 ->
             rescaled_alike t1 t2 s1 s2 p a1 a2 ->
             scale_mesh s1' a1 = Ok b1 -> scale_mesh s2' a2 = Ok b2 ->
             rescaled_alike t1 t2 s1 s2 p b1 b2).
  { intros p s1' s2' a1 a2 b1 b2 Ht Hs Ha. rewrite !scale_mesh_total.
    intros [= <-] [= <-].
    apply (Hstep "mesh"%string); auto using mesh_scaled_frame. }
  assert (L2 : forall p s1' s2' a1 a2 b1 b2,
             tag_at t1 p = "origin"%string -> s1' = s1 /\ s2' = s2 ->
             rescaled_alike t1 t2 s1 s2 p a1 a2 ->
             scale_origin s1' a1 = Ok b1 -> scale_origin s2' a2 = Ok b2 ->
             rescaled_alike t1 t2 s1 s2 p b1 b2).
  { intros p s1' s2' a1 a2 b1 b2 Ht Hs Ha H H'.
    apply scale_origin_ok in H, H'. subst b1 b2.
    apply (Hstep "origin"%string); auto using xyz_scaled_frame. }
  assert (L3 : forall p s1' s2' a1 a2 b1 b2,
             tag_at t1 p = "axis"%string -> s1' = s1 /\ s2' = s2 ->
             rescaled_alike t1 t2 s1 s2 p a1 a2 ->
             scale_axis s1' a1 = Ok b1 -> scale_axis s2' a2 = Ok b2 ->
             rescaled_alike t1 t2 s1 s2 p b1 b2).
  { intros p s1' s2' a1 a2 b1 b2 Ht Hs Ha H H'.
    apply scale_axis_ok in H, H'. subst b1 b2.
    apply (Hstep "axis"%string); auto using axis_scaled_frame. }
  specialize (L L1 L2 L3). clear L1 L2 L3 Hstep.
  assert (L4 : forall i s1' s2' a1 a2 r,
             tag_at t1 [i] = "joint"%string -> s1' = s1 /\ s2' = s2 ->
             rescaled_alike t1 t2 s1 s2 [i] a1 a2 -> at_rpy a1 = Some r ->
             np_absolute (rot s1' (vx r) (vy r) (vz r) true) = s1 /\
             np_absolute (rot s2' (vx r) (vy r) (vz r) true) = s2).
  { intros i s1' s2' a1 a2 r Ht _ (_ & Hr & _) Hrpy.
    rewrite (Hr i eq_refl Ht) in Hrpy. discriminate. }
  specialize (L L4 fuel (Build_Walk t1 s1 name) (Build_Walk t2 s2 name)).
  rewrite H1 in L.
  destruct (while_loop rot fuel (Build_Walk t2 s2 name)) as [[w2|]|];
    simpl in L.
  - exists w2. split; [reflexivity|]. apply L.
    repeat split; simpl; auto using frame_alike.
  - exfalso. apply L. repeat split; simpl; auto using frame_alike.
  - exfalso. apply L. repeat split; simpl; auto using frame_alike.
Qed.
End AlikeFacts.

(** ** Exact arithmetic *)

Section ExactFacts.
Local Open Scope R_scope.
Implicit Types (v s : vec R) (a : Attrib R).

Lemma sum_squares_nonneg (x y z : R) : 0 <= x * x + y * y + z * z.
Proof. nra. Qed.

Lemma norm_square v :
  np_linalg_norm v * np_linalg_norm v =
  vx v * vx v + vy v * vy v + vz v * vz v.
Proof. unfold np_linalg_norm. cbn. apply sqrt_sqrt, sum_squares_nonneg. Qed.

Lemma norm_nonneg v : 0 <= np_linalg_norm v.
Proof. unfold np_linalg_norm. cbn. apply sqrt_pos. Qed.

(** A vector divided by its norm is a unit vector, unless the norm is
    zero. *)
Lemma norm_normalized v :
  np_linalg_norm v <> 0 -> np_linalg_norm (normalized v) = 1.
Proof.
  intros Hn. pose proof (norm_square v) as Hs.
  unfold normalized, div_scalar.
  remember (np_linalg_norm v) as n eqn:En. clear En.
  unfold np_linalg_norm. cbn.
  replace (vx v / n * (vx v / n) + vy v / n * (vy v / n) +
           vz v / n * (vz v / n))
    with ((vx v * vx v + vy v * vy v + vz v * vz v) / (n * n))
    by (field; assumption).
  rewrite <- Hs. replace (n * n / (n * n)) with 1 by (field; assumption).
  apply sqrt_1.
Qed.

Lemma multiply_inverse v s s' :
  inverse_scale s s' -> np_multiply (np_multiply v s) s' = v.
Proof.
  intros (Hx & Hy & Hz). destruct v as [x y z]. unfold np_multiply. cbn.
  f_equal; rewrite Rmult_assoc; [rewrite Hx|rewrite Hy|rewrite Hz]; ring.
Qed.

Lemma inverse_nonzero s s' : inverse_scale s s' -> nonzero s.
Proof.
  intros (Hx & Hy & Hz).
  repeat split; intros H0; rewrite H0, Rmult_0_l in *; lra.
Qed.

Lemma divide_inverse b o :
  nonzero b -> nonzero o -> inverse_scale (np_divide b o) (np_divide o b).
Proof.
  intros (? & ? & ?) (? & ? & ?). unfold inverse_scale, np_divide. cbn.
  repeat split; field; auto.
Qed.

Lemma scaled_unit_nonzero v s :
  np_linalg_norm v = 1 -> nonzero s -> np_linalg_norm (np_multiply v s) <> 0.
Proof.
  intros Hv (Hx & Hy & Hz) H0.
  pose proof (norm_square v) as Hs. rewrite Hv in Hs.
  pose proof (norm_square (np_multiply v s)) as Hs'. rewrite H0 in Hs'.
  destruct v as [x y z]. unfold np_multiply in Hs'. cbn in *.
  assert (Hxx : x * vx s = 0) by nra.
  assert (Hyy : y * vy s = 0) by nra.
  assert (Hzz : z * vz s = 0) by nra.
  apply Rmult_integral in Hxx, Hyy, Hzz.
  destruct Hxx as [->|]; [|contradiction].
  destruct Hyy as [->|]; [|contradiction].
  destruct Hzz as [->|]; [|contradiction]. lra.
Qed.

Lemma same_attrib_refl a : same_attrib a a.
Proof. repeat split; auto. all: tauto. Qed.

Lemma scale_value_mesh_scaled s a :
  scale_value (mesh_scaled s a) = np_multiply (scale_value a) s.
Proof.
  unfold mesh_scaled, scale_value. destruct (at_scale a); cbn; [reflexivity|].
  destruct s as [x y z]. unfold np_multiply. cbn. f_equal; ring.
Qed.

Lemma mesh_scaled_iter s a k :
  attr_frame a (Nat.iter k (mesh_scaled s) a) /\
  at_xyz (Nat.iter k (mesh_scaled s) a) = at_xyz a /\
  scale_value (Nat.iter k (mesh_scaled s) a) =
    Nat.iter k (fun v => np_multiply v s) (scale_value a).
Proof.
  induction k as [|k (Hf & Hx & Hs)]; [repeat split; tauto|].
  rewrite !Nat.iter_succ.
  split; [|split].
  - eapply attr_frame_trans; [exact Hf|apply mesh_scaled_frame].
  - rewrite <- Hx. generalize (Nat.iter k (mesh_scaled s) a) as b.
    intros b. unfold mesh_scaled. destruct (at_scale b); reflexivity.
  - now rewrite scale_value_mesh_scaled, Hs.
Qed.

End ExactFacts.

(** ** A rescaling that returns *)

Section RoundTrip.
Variable rot : vec R -> R -> R -> R -> bool -> vec R.

Lemma rescale_ok (b o : vec R) t fuel t1 :
  rescale rot b o t fuel = Some (Ok t1) ->
  exists w1,
    while_loop rot fuel (Build_Walk t (np_divide b o) (Some "base_link"%string))
      = Some (Ok w1) /\ object_tree w1 = t1.
Proof.
  unfold rescale.
  destruct (while_loop rot fuel _) as [[w1|]|]; try discriminate.
  intros [= <-]. eauto.
Qed.

End RoundTrip.

(** ** The exceptions of the constructor *)

Section Raises.
Context {F : Type} {SF : Scalar F}.
Implicit Types (t u : Element F) (e : exn).

Lemma bind_raises {A B} (m : result A) (k : A -> result B) e :
  bind m k = Raise e -> m = Raise e \/ exists a, m = Ok a /\ k a = Raise e.
Proof.
  destruct m as [a|e']; simpl; intros H; [right; eauto|left; congruence].
Qed.

Lemma for_each_raises {A S} (Q : exn -> Prop) (l : list A)
  (body : A -> S -> result S) :
  (forall x s e, body x s = Raise e -> Q e) ->
  forall s e, for_each l body s = Raise e -> Q e.
Proof.
  intros Hb. induction l as [|x l IHl]; intros s e; simpl; [discriminate|].
  intros H. apply bind_raises in H. destruct H as [H|(s' & _ & H)]; eauto.
Qed.

Lemma comprehension_raises {A} (Q : exn -> Prop) (c : A -> result bool)
  (l : list A) :
  (forall x e, c x = Raise e -> Q e) ->
  forall e, comprehension c l = Raise e -> Q e.
Proof.
  intros Hc. induction l as [|x l IHl]; intros e; simpl; [discriminate|].
  intros H. apply bind_raises in H. destruct H as [H|(b & _ & H)]; eauto.
  apply bind_raises in H. destruct H as [H|(r & _ & H)]; eauto. discriminate.
Qed.

Lemma mutate_raises (Q : exn -> Prop) (f : Attrib F -> result (Attrib F)) p t e :
  (forall a e, f a = Raise e -> Q e) -> mutate f p t = Raise e -> Q e.
Proof.
  intros Hf. unfold mutate. destruct (get p t); [|discriminate].
  intros H. apply bind_raises in H. destruct H as [H|(a & _ & H)]; eauto.
  discriminate.
Qed.

Lemma attrib_str_raises key p t e :
  attrib_str key p t = Raise e -> e = KeyError.
Proof.
  unfold attrib_str. destruct (get p t) as [x|]; [destruct (key (attrib x))|];
    congruence.
Qed.

Lemma scale_origin_raises s a e : scale_origin s a = Raise e -> builtin_exn e.
Proof.
  unfold scale_origin, builtin_exn. destruct (at_xyz a); intros [= <-]. auto.
Qed.

Lemma scale_axis_raises s a e : scale_axis s a = Raise e -> builtin_exn e.
Proof.
  unfold scale_axis, builtin_exn. destruct (at_xyz a); intros [= <-]. auto.
Qed.

Lemma scale_mesh_raises s a e : scale_mesh s a = Raise e -> builtin_exn e.
Proof. rewrite scale_mesh_total. discriminate. Qed.

Lemma find_parent_link_raises name t e :
  find_parent_link name t = Raise e -> builtin_exn e.
Proof.
  unfold find_parent_link. intros H. apply bind_raises in H.
  destruct H as [H|(links & _ & H)].
  - revert H. apply comprehension_raises. intros link e' H.
    apply bind_raises in H. destruct H as [H|(n & _ & H)]; [|discriminate].
    apply attrib_str_raises in H. unfold builtin_exn. auto.
  - destruct links; [|discriminate]. injection H as <-. now left.
Qed.

Lemma joints_from_raises pl t e : joints_from pl t = Raise e -> builtin_exn e.
Proof.
  unfold joints_from. apply comprehension_raises. intros joint e' H.
  destruct (find "parent" joint t).
  - apply bind_raises in H. destruct H as [H|(l & _ & H)];
      [apply attrib_str_raises in H; unfold builtin_exn; auto|].
    apply bind_raises in H. destruct H as [H|(n & _ & H)]; [|discriminate].
    apply attrib_str_raises in H. unfold builtin_exn. auto.
  - injection H as <-. unfold builtin_exn. auto.
Qed.

Lemma first_child_raises js t e : first_child js t = Raise e -> builtin_exn e.
Proof.
  unfold first_child, builtin_exn. destruct js as [|j js]; [intros [= <-]; auto|].
  destruct (find "child" j t); [|intros [= <-]; auto].
  intros H. apply attrib_str_raises in H. auto.
Qed.

Lemma rescale_tag_raises tg f q t e :
  (forall a e, f a = Raise e -> builtin_exn e) ->
  for_each (iter_tag tg q t) (mutate f) t = Raise e -> builtin_exn e.
Proof.
  intros Hf. apply for_each_raises. intros p u e'. now apply mutate_raises.
Qed.

Lemma scale_link_raises s pl t e : scale_link s pl t = Raise e -> builtin_exn e.
Proof.
  unfold scale_link. apply for_each_raises. intros c u e' H.
  apply bind_raises in H. destruct H as [H|(v & _ & H)].
  - revert H. apply rescale_tag_raises, scale_mesh_raises.
  - revert H. apply rescale_tag_raises, scale_origin_raises.
Qed.

Variable rot : vec F -> F -> F -> F -> bool -> vec F.

Lemma process_joint_raises js j w e :
  process_joint rot js j w = Raise e -> builtin_exn e.
Proof.
  unfold process_joint. intros H.
  apply bind_raises in H. destruct H as [H|(u & _ & H)];
    [revert H; apply rescale_tag_raises, scale_origin_raises|].
  apply bind_raises in H. destruct H as [H|(v & _ & H)];
    [revert H; apply rescale_tag_raises, scale_axis_raises|].
  apply bind_raises in H. destruct H as [H|(n & _ & H)]; [|discriminate].
  eapply first_child_raises; eassumption.
Qed.

Lemma loop_body_raises name w e : loop_body rot name w = Raise e -> builtin_exn e.
Proof.
  unfold loop_body. intros H.
  apply bind_raises in H. destruct H as [H|(pl & _ & H)];
    [eapply find_parent_link_raises; eassumption|].
  apply bind_raises in H. destruct H as [H|(u & _ & H)];
    [eapply scale_link_raises; eassumption|].
  apply bind_raises in H. destruct H as [H|(js & _ & H)];
    [eapply joints_from_raises; eassumption|].
  destruct js as [|j js]; [discriminate|].
  revert H. apply for_each_raises. intros x s e'. apply process_joint_raises.
Qed.

Lemma while_loop_raises fuel w e :
  while_loop rot fuel w = Some (Raise e) -> builtin_exn e.
Proof.
  revert w; induction fuel as [|fuel IH]; intros w; simpl;
    destruct (parent_link_name w) as [name|]; try discriminate.
  destruct (loop_body rot name w) as [w'|e'] eqn:E; [apply IH|].
  intros [= <-]. eapply loop_body_raises; eassumption.
Qed.

Lemma rescale_raises b o t fuel e :
  rescale rot b o t fuel = Some (Raise e) -> builtin_exn e.
Proof.
  unfold rescale. destruct (while_loop rot fuel _) as [[w|e']|] eqn:E;
    try discriminate.
  intros [= <-]. eapply while_loop_raises; eassumption.
Qed.

(** Whatever the constructor raises is one of Python's own exceptions. *)
Lemma InteractiveObj2_init_raises model_path parsed bounding_box data fuel e :
  InteractiveObj2_init rot model_path parsed bounding_box data fuel
    = Some (Raise e) ->
  builtin_exn e.
Proof.
  unfold InteractiveObj2_init.
  destruct (resolve_mesh_paths model_path parsed) as [t|e'] eqn:E.
  - destruct bounding_box; [apply rescale_raises|discriminate].
  - intros [= <-]. revert E. unfold resolve_mesh_paths.
    apply rescale_tag_raises. intros a e0.
    destruct (at_filename a); [discriminate|]. intros [= <-].
    unfold builtin_exn. auto.
Qed.

(** The outcome of the traversal does not depend on the bounding boxes:
    with other boxes it raises the same exception, or ends with a
    document of the same frame, or needs more fuel just the same. *)
Lemma rescale_outcome_independent b o b' o' t fuel :
  rel_option (rel_result frame)
    (rescale rot b o t fuel) (rescale rot b' o' t fuel).
Proof.
  pose proof (@while_loop_lockstep F SF rot (tag_at t)
                (fun _ => @attr_frame F) (fun _ _ => True)) as L.
  specialize (L (fun _ _ _ H => H)).
  specialize (L (fun p s1 s2 a1 a2 b1 b2 _ _ Ha H1 H2 =>
                   attr_frame_trans
                     (attr_frame_trans
                        (attr_frame_sym (scale_mesh_frame _ _ H1)) Ha)
                     (scale_mesh_frame _ _ H2))).
  specialize (L (fun p s1 s2 a1 a2 b1 b2 _ _ Ha H1 H2 =>
                   attr_frame_trans
                     (attr_frame_trans
                        (attr_frame_sym (scale_origin_frame _ _ H1)) Ha)
                     (scale_origin_frame _ _ H2))).
  specialize (L (fun p s1 s2 a1 a2 b1 b2 _ _ Ha H1 H2 =>
                   attr_frame_trans
                     (attr_frame_trans
                        (attr_frame_sym (scale_axis_frame _ _ H1)) Ha)
                     (scale_axis_frame _ _ H2))).
  specialize (L (fun _ _ _ _ _ _ _ _ _ _ => I)).
  unfold rescale.
  specialize (L fuel
                (Build_Walk t (np_divide b o) (Some "base_link"%string))
                (Build_Walk t (np_divide b' o') (Some "base_link"%string))).
  assert (H0 : walk_rel (tag_at t) (fun _ => @attr_frame F) (fun _ _ => True)
                 (Build_Walk t (np_divide b o) (Some "base_link"%string))
                 (Build_Walk t (np_divide b' o') (Some "base_link"%string))).
  { repeat split. intros p. cbn [object_tree].
    destruct (node p t) as [[[tg a] n]|] eqn:E; [|exact I].
    destruct (node_tag_at _ _ E) as [<- _].
    repeat split; auto. all: tauto. }
  specialize (L H0).
  destruct (while_loop rot fuel _) as [[w1|e1]|],
           (while_loop rot fuel _) as [[w2|e2]|]; simpl in *; auto.
  destruct L as (L & _). intros p. specialize (L p).
  destruct (node p (object_tree w1)) as [[[tg1 a1] n1]|],
           (node p (object_tree w2)) as [[[tg2 a2] n2]|]; auto.
  destruct L as (-> & -> & _ & L). auto.
Qed.
End Raises.

(** ** binary64 *)

Section Binary64Facts.
Import PrimFloat SpecFloat FloatOps FloatAxioms.
Local Open Scope float_scope.

(** Dividing by zero gives an infinity or a nan. *)
Lemma div_zero_non_finite (x d : float) :
  is_zero_float d -> non_finite (x / d).
Proof.
  intros Hd. unfold non_finite, is_nan, is_infinity.
  rewrite !FloatAxioms.eqb_spec, abs_spec, div_spec.
  assert (Ez : exists s, Prim2SF d = S754_zero s)
    by (destruct Hd as [->| ->]; eexists; vm_compute; reflexivity).
  destruct Ez as (s & ->).
  destruct (Prim2SF x) as [sx|sx| |sx m e]; cbn; auto.
Qed.

Lemma divide_by_zero_component (b o : vec float) :
  has_zero o -> has_non_finite (np_divide b o).
Proof.
  unfold has_zero, has_non_finite, np_divide. cbn.
  intros [H|[H|H]]; [left|right; left|right; right];
    now apply div_zero_non_finite.
Qed.
End Binary64Facts.

(** ** The constructor on binary64 documents *)

Section Binary64Claims.
Import PrimFloat.
Local Open Scope float_scope.
Local Open Scope string_scope.

(** C1 (the code departs from it): with a stored bounding box
    (1, 1, 1) and a target (2, 1, 0.5) the base scale is (2, 1, 0.5), but a
    mesh of the root link that had no scale ends with (16, 1, 0.0625): the
    nested [iter] loops reach the mesh once from each of the four elements
    link, visual, geometry and mesh, so the scale is set once and then
    multiplied three more times. *)
Theorem root_mesh_is_rescaled_once_per_ancestor :
  forall rot : vec float -> float -> float -> float -> bool -> vec float,
    np_divide (Vec 2 1 0.5)
      (np_subtract (bbox_max unit_box) (bbox_min unit_box)) = Vec 2 1 0.5 /\
    at_scale (attrib_at one_mesh_doc one_mesh_path) = None /\
    exists t',
      InteractiveObj2_init rot "/model" one_mesh_doc (Some (Vec 2 1 0.5))
        unit_box 1 = Some (Ok t') /\
      at_scale (attrib_at t' one_mesh_path) = Some (Vec 16 1 0.0625).
Proof.
  intros rot. split; [vm_compute; reflexivity|].
  split; [reflexivity|].
  eexists. split; vm_compute; reflexivity.
Qed.

(** C6, counterexample: the bounding-box file of a flat model (no extent
    along y) is accepted; the y component of the base scale is 1/0, an
    infinity, and ends up in the scale of the mesh. *)
Lemma flat_bounding_box_is_accepted :
  exists t',
    (forall rot,
        InteractiveObj2_init rot "/model" one_mesh_doc (Some (Vec 2 1 0.5))
          flat_box 1 = Some (Ok t')) /\
    at_scale (attrib_at t' one_mesh_path) = Some (Vec 16 infinity 0.0625).
Proof.
  eexists. split; [intros rot|]; vm_compute; reflexivity.
Qed.


(** C9, counterexample: an axis (0, 0, 0) has zero magnitude after
    scaling; the constructor returns normally and the axis is stored as
    (nan, nan, nan). *)
Lemma zero_axis_is_accepted :
  exists t',
    (forall rot,
        InteractiveObj2_init rot "/model" (hinge_doc (Vec 0 0 0))
          (Some (Vec 2 1 0.5)) unit_box 2 = Some (Ok t')) /\
    at_xyz (attrib_at t' hinge_axis_path) = Some nan3.
Proof.
  eexists. split; [intros rot|]; vm_compute; reflexivity.
Qed.

(** The round trip of C3 also fails when the target bounding box has a
    zero component, which leaves no inverse scale: the mesh scale along x
    becomes 0 on the way there and 0 * inf = nan on the way back. *)
Lemma round_trip_fails_for_flat_target :
  exists t1 t2,
    (forall rot,
        rescale rot (Vec 0 1 1) (Vec 1 1 1) one_mesh_doc 1 = Some (Ok t1)) /\
    (forall rot,
        rescale rot (Vec 1 1 1) (Vec 0 1 1) t1 1 = Some (Ok t2)) /\
    at_scale (attrib_at t1 one_mesh_path) = Some (Vec 0 1 1) /\
    at_scale (attrib_at t2 one_mesh_path) = Some (Vec nan 1 1).
Proof.
  eexists. eexists.
  split; [intros rot; vm_compute; reflexivity|].
  split; [intros rot; vm_compute; reflexivity|].
  split; vm_compute; reflexivity.
Qed.

(** C6, amended: if the stored original bounding box has a zero
    component, construction does not fail on that account.  Nothing is
    validated: the base scale gets a component that is not finite (an
    infinity, or nan for 0/0), the traversal goes on with it exactly as it
    would with any other bounding box, and no [MalformedTreeError] is ever
    raised.  (The constructor makes no engine call at all.) *)
Theorem zero_original_bbox_is_not_validated
  (rot : vec float -> float -> float -> float -> bool -> vec float)
  (model_path : string) (parsed : Element float) (bounding_box : vec float)
  (data : bbox_json float) (fuel : nat) :
  has_zero (np_subtract (bbox_max data) (bbox_min data)) ->
  division_unguarded rot model_path parsed bounding_box data fuel.
Proof.
  intros Hz. split; [now apply divide_by_zero_component|]. split.
  - intros data'. unfold InteractiveObj2_init.
    destruct (resolve_mesh_paths model_path parsed) as [t|e]; [|reflexivity].
    apply rescale_outcome_independent.
  - intros H. apply InteractiveObj2_init_raises in H.
    destruct H as [H|[H|H]]; discriminate H.
Qed.

(** C6, witness: the flat bounding box. *)
Lemma zero_original_bbox_witness :
  division_unguarded no_rotation "/model" one_mesh_doc (Vec 2 1 0.5) flat_box 1.
Proof.
  apply (@zero_original_bbox_is_not_validated no_rotation "/model"
           one_mesh_doc (Vec 2 1 0.5) flat_box 1).
  right. left. left. vm_compute. reflexivity.
Defined.

(** C9, amended: if scaling a joint axis produces a vector of zero
    magnitude, the rescaler does not fail.  The axis step divides by the
    zero norm and stores the result, every component of which is nan or an
    infinity; no [DegenerateAxisError] is ever raised. *)
Theorem zero_norm_axis_is_stored_non_finite
  (scale v : vec float) (a : Attrib float) :
  at_xyz a = Some v ->
  is_zero_float (np_linalg_norm (np_multiply v scale)) ->
  normalization_unguarded scale a.
Proof.
  intros Hv Hz. split.
  - unfold scale_axis. rewrite Hv. eexists. eexists.
    split; [reflexivity|]. split; [reflexivity|].
    unfold all_non_finite, div_scalar. cbn [vx vy vz fdiv binary64].
    repeat split; now apply div_zero_non_finite.
  - intros rot model_path parsed bounding_box data fuel e.
    apply InteractiveObj2_init_raises.
Qed.

(** C9, witness: the axis (0, 0, 0). *)
Lemma zero_norm_axis_witness :
  normalization_unguarded (Vec 2 1 0.5)
    (attrib_at (hinge_doc (Vec 0 0 0)) hinge_axis_path).
Proof.
  apply (@zero_norm_axis_is_stored_non_finite (Vec 2 1 0.5) (Vec 0 0 0)
           (attrib_at (hinge_doc (Vec 0 0 0)) hinge_axis_path)).
  - reflexivity.
  - left. vm_compute. reflexivity.
Defined.
End Binary64Claims.

(** ** One joint, element by element *)

Section JointSpec.
Context {F : Type} {SF : Scalar F}.
Variable rot : vec F -> F -> F -> F -> bool -> vec F.
Implicit Types (t u : Element F) (w : Walk F).

(** What one pass of [for joint_new in joint_news] does to each element:
    the origins of the joint are multiplied by the scale in force, every
    axis of the document by the scale turned through the joint's [rpy]
    (and normalized), and nothing else changes. *)
Lemma process_joint_spec js j w w' :
  process_joint rot js j w = Ok w' ->
  forall p tg a n,
    node p (object_tree w) = Some (tg, a, n) ->
    (In p (iter_tag "origin" j (object_tree w)) ->
     node p (object_tree w') = Some (tg, xyz_scaled (cur_scale w) a, n)) /\
    (tg = "axis"%string ->
     node p (object_tree w') = Some (tg, axis_scaled (cur_scale w') a, n)) /\
    (~ In p (iter_tag "origin" j (object_tree w)) -> tg <> "axis"%string ->
     node p (object_tree w') = Some (tg, a, n)).
Proof.
  intros H. pose proof (process_joint_frame _ _ _ _ H) as (_ & Hs & _).
  unfold process_joint in H.
  destruct (for_each (iter_tag "origin" j (object_tree w))
              (mutate (scale_origin (cur_scale w))) (object_tree w))
    as [u|] eqn:Eu; [|discriminate]. simpl in H.
  assert (Hfu : frame (object_tree w) u)
    by (eapply rescale_tag_frame; [|exact Eu]; apply scale_origin_frame).
  rewrite <- (agree_rpy_of Hfu (@frame_attr F)) in H.
  fold (turn rot (rpy_of j (object_tree w)) (cur_scale w)) in H.
  rewrite <- Hs in H.
  destruct (for_each (iter_tag "axis" [] u) (mutate (scale_axis (cur_scale w'))) u)
    as [v|] eqn:Ev; [|discriminate]. simpl in H.
  destruct (first_child js v) as [child|]; [|discriminate]. injection H as H.
  assert (Hv : object_tree w' = v) by (rewrite <- H; reflexivity).
  rewrite Hv. clear H Hv.
  intros p tg a n Hn.
  assert (Horigin : In p (iter_tag "origin" j (object_tree w)) ->
                    tg = "origin"%string).
  { intros Hin. apply in_iter_tag in Hin. destruct Hin as [Hin _].
    rewrite (node_has_tag _ _ _ Hn) in Hin. now apply String.eqb_eq in Hin. }
  assert (Haxis : forall b, node p u = Some (tg, b, n) ->
                            In p (iter_tag "axis" [] u) <-> tg = "axis"%string).
  { intros b Hb. rewrite in_iter_tag_root, (node_has_tag _ _ _ Hb).
    apply String.eqb_eq. }
  split; [|split].
  - intros Hin.
    destruct (rescale_tag_in _ _ _ _ p Eu Hin Hn) as (b & Hb & Hu).
    apply scale_origin_ok in Hb. subst b.
    rewrite (rescale_tag_out _ _ _ _ p Ev); [exact Hu|].
    rewrite (Haxis _ Hu). rewrite (Horigin Hin). discriminate.
  - intros ->.
    assert (Hu : node p u = Some ("axis"%string, a, n)).
    { rewrite (rescale_tag_out _ _ _ _ p Eu); [exact Hn|].
      intros Hin. apply Horigin in Hin. discriminate. }
    assert (Hin : In p (iter_tag "axis" [] u)) by now apply (Haxis _ Hu).
    destruct (rescale_tag_in _ _ _ _ p Ev Hin Hu) as (b & Hb & Hv).
    apply scale_axis_ok in Hb. now subst b.
  - intros Hout Hne.
    assert (Hu : node p u = Some (tg, a, n))
      by (rewrite (rescale_tag_out _ _ _ _ p Eu); [exact Hn|exact Hout]).
    rewrite (rescale_tag_out _ _ _ _ p Ev); [exact Hu|].
    now rewrite (Haxis _ Hu).
Qed.
End JointSpec.

(** ** The traversal *)

Section TraversalClaims.
Context {F : Type} {SF : Scalar F}.
Variable rot : vec F -> F -> F -> F -> bool -> vec F.

(** C2, amended: when a link has outgoing joints, they are processed in
    document order.  Each joint's origins are multiplied by the scale in
    force when the joint is reached, the scale is then turned through that
    joint's rpy, and every axis is multiplied by the turned scale and
    normalized.  The scale handed to the next frame is therefore the link's
    scale turned through the rpy of every matching joint in turn (not of
    the first one alone), and the next frame is the child link of the first
    matching joint. *)
Theorem joints_are_processed_in_turn (name : string) (w w' : Walk F) :
  loop_body rot name w = Ok w' -> link_processed rot name w w'.
Proof.
  intros H. destruct (loop_body_spec _ _ _ H) as (pl & js & Hpl & Hjs & Hf & Hs & Hn).
  exists pl, js. split; [assumption|]. split; [assumption|]. split.
  - unfold loop_body in H. rewrite Hpl in H. cbn [bind] in H.
    destruct (scale_link (cur_scale w) pl (object_tree w)) as [u|] eqn:Eu;
      [|discriminate]. cbn [bind] in H.
    pose proof (scale_link_frame _ _ _ Eu) as Hu.
    rewrite <- (agree_joints_from Hu (@frame_attr F)), Hjs in H.
    cbn [bind] in H. exists u. split; [reflexivity|].
    destruct js; [cbn [for_each]|]; exact H.
  - split; [|split; assumption].
    intros j x x' Hj. split.
    + now apply process_joint_frame in Hj.
    + exact (process_joint_spec rot js j x Hj).
Qed.

(** C8: on a tree none of whose joints carries a rotation, the scale with
    which every link is processed, and with which the joints and axes are
    rescaled, is the base scale [bounding_box / original_bbox]. *)
Theorem scale_is_kept_without_rotation
  (bounding_box original_bbox : vec F) (t : Element F) (w : Walk F) :
  no_joint_rotation t ->
  reaches rot
    (Build_Walk t (np_divide bounding_box original_bbox)
       (Some "base_link"%string)) w ->
  scale_kept rot (np_divide bounding_box original_bbox) w.
Proof.
  intros Hrot Hr.
  assert (Hs : cur_scale w = np_divide bounding_box original_bbox).
  { induction Hr as [|name w1 w2 Hr IH Hn Hb]; [reflexivity|].
    pose proof (reaches_frame Hr) as Hf. cbn [object_tree] in Hf.
    apply loop_body_spec in Hb.
    destruct Hb as (pl & js & _ & Hjs & _ & Hs & _).
    rewrite Hs, IH. clear Hs.
    assert (Hall : forall j, In j js -> rpy_of j (object_tree w1) = None).
    { intros j Hj. eapply frame_no_joint_rotation; [exact Hf|exact Hrot|].
      eapply in_joints_from; eassumption. }
    clear Hjs. generalize (np_divide bounding_box original_bbox) as s.
    induction js as [|j js IHjs]; intros s; [reflexivity|].
    cbn [fold_left]. rewrite (Hall j) by now left. cbn [turn].
    apply IHjs. intros k Hk. apply Hall. now right. }
  split; [assumption|]. intros j Hj.
  pose proof (reaches_frame Hr) as Hf. cbn [object_tree] in Hf.
  rewrite (frame_no_joint_rotation Hf Hrot _ Hj). exact Hs.
Qed.
End TraversalClaims.

(** ** The traversal in exact arithmetic *)

Section ExactClaims.
Local Open Scope R_scope.
Local Open Scope string_scope.

(** Evaluation of the model, leaving the arithmetic alone. *)
Ltac run :=
  lazy -[IZR Rdiv Rmult Rplus Rminus Ropp Rinv Rabs sqrt cos sin PI].

Ltac run_in H :=
  lazy -[IZR Rdiv Rmult Rplus Rminus Ropp Rinv Rabs sqrt cos sin PI] in H.

(** The absolute value of an expression of known sign. *)
Ltac abs_value :=
  repeat match goal with
         | |- context [Rabs ?x] =>
             first [ rewrite (Rabs_pos_eq x) by lra
                   | rewrite (Rabs_left x) by lra ]
         end.

Lemma plain_doc_rescales :
  rescale rotate_vector_3d small_target unit_bbox plain_doc 2
  = Some (Ok (rescaled plain_doc small_target unit_bbox 2)).
Proof. run. reflexivity. Qed.

Lemma plain_doc_no_rotation : no_joint_rotation plain_doc.
Proof.
  intros j Hj. run_in Hj. destruct Hj as [<-|[]]. reflexivity.
Qed.

Lemma norm_first_axis : np_linalg_norm (Vec 1 0 0) = 1.
Proof.
  unfold np_linalg_norm. cbn.
  replace (1 * 1 + 0 * 0 + 0 * 0) with 1 by ring. apply sqrt_1.
Qed.

Lemma plain_doc_unit_axes : unit_axes plain_doc.
Proof.
  intros p tg a n v Hn Htg Hx.
  assert (Hin : In p (iter plain_doc)).
  { apply in_iter. unfold node in Hn. destruct (get p plain_doc); congruence. }
  run_in Hin.
  repeat (destruct Hin as [<-|Hin]; [run_in Hn; injection Hn as <- <- <-;
                                      try discriminate Htg|]);
    [|contradiction].
  injection Hx as <-. apply norm_first_axis.
Qed.

Lemma plain_doc_first_step :
  loop_body rotate_vector_3d "base_link"
    (start_walk plain_doc small_target unit_bbox)
  = Ok (after_base_link plain_doc small_target unit_bbox).
Proof. run. reflexivity. Qed.

Lemma two_joint_first_step :
  loop_body rotate_vector_3d "base_link"
    (start_walk two_joint_doc small_target unit_bbox)
  = Ok (after_base_link two_joint_doc small_target unit_bbox).
Proof. run. reflexivity. Qed.

(** C2, witness: the base link of [two_joint_doc]. *)
Lemma joints_are_processed_in_turn_witness :
  link_processed rotate_vector_3d "base_link"
    (start_walk two_joint_doc small_target unit_bbox)
    (after_base_link two_joint_doc small_target unit_bbox).
Proof.
  apply (@joints_are_processed_in_turn R exact rotate_vector_3d "base_link"
           (start_walk two_joint_doc small_target unit_bbox)).
  run. reflexivity.
Defined.

(** C2, counterexample: the base link of [two_joint_doc] has two outgoing
    joints, of which the first has no rotation and the second a quarter
    turn about z.  Going by the first joint's rotation alone the scale
    (2, 1, 1/2) would be handed on unchanged; the loop hands on
    (1, 2, 1/2), to the child of the first joint. *)
Lemma later_joint_turns_the_scale :
  loop_body rotate_vector_3d "base_link"
    (start_walk two_joint_doc small_target unit_bbox)
  = Ok (after_base_link two_joint_doc small_target unit_bbox) /\
  joints_from [0]%nat two_joint_doc = Ok [[3]; [4]]%nat /\
  rpy_of [3]%nat two_joint_doc = None /\
  cur_scale (start_walk two_joint_doc small_target unit_bbox)
  = Vec 2 1 (1 / 2) /\
  parent_link_name (after_base_link two_joint_doc small_target unit_bbox)
  = Some "left" /\
  cur_scale (after_base_link two_joint_doc small_target unit_bbox)
  = Vec 1 2 (1 / 2).
Proof.
  split; [apply two_joint_first_step|].
  split; [reflexivity|]. split; [reflexivity|].
  split; [run; f_equal; field|]. split; [reflexivity|].
  run. rewrite cos_PI2, sin_PI2, cos_0, sin_0. f_equal; abs_value; lra.
Qed.


(** C8, witness: [plain_doc] after the iteration at its base link. *)
Lemma scale_is_kept_witness :
  scale_kept rotate_vector_3d (np_divide small_target unit_bbox)
    (after_base_link plain_doc small_target unit_bbox).
Proof.
  apply (@scale_is_kept_without_rotation R exact rotate_vector_3d
           small_target unit_bbox plain_doc).
  - exact plain_doc_no_rotation.
  - eapply reaches_next;
      [apply reaches_here|reflexivity|exact plain_doc_first_step].
Defined.
End ExactClaims.

(** ** The Object base class *)

Section ObjectClaims.
Context {PE : PhysicsEngine}.
Variable Fields : Type.
Variable _load : Fields -> World -> result (BodyId * Fields * World).
Implicit Types (self : Object Fields) (w : World).

(** C4: after a first [load()] that returned, a second one returns the
    same handle without calling [_load] or the engine, and leaves object
    and simulation as they are; the loaded flag, once set, is cleared by no
    call on the object. *)
Theorem load_is_idempotent self w self1 (h : option BodyId) w1 :
  load _load self w = (self1, Ok (h, w1)) ->
  loaded_for_good self1 h w1.
Proof.
  unfold load. intros H.
  assert (H1 : loaded self1 = true /\ h = body_id self1).
  { destruct (loaded self) eqn:El.
    - injection H as <- <- <-. auto.
    - destruct (_load (fields self) w) as [[[b d] w']|]; [|discriminate].
      injection H as <- <- <-. auto. }
  destruct H1 as [Hl ->]. split; [assumption|]. split.
  - intros _load'. unfold load. now rewrite Hl.
  - intros _load' c o x Ho. destruct c; cbn; try assumption.
    + unfold load. rewrite Ho. assumption.
    + destruct (_load' (fields o) x) as [[[b d] x']|]; assumption.
Qed.

(** A setter: the query, then the reset with what the query returned. *)
Ltac settle_setter self w :=
  destruct (getBasePositionAndOrientation (body_id self) w)
    as [[pos0 orn0]|e0] eqn:Eg; cbn;
  [ match goal with
    | |- context [resetBasePositionAndOrientation ?b ?p ?o ?x] =>
        destruct (resetBasePositionAndOrientation b p o x) as [w'|e1] eqn:Er
    end; cbn;
    (split;
     [ intros H;
       first [ discriminate H
             | injection H as <-; right; exists pos0, orn0;
               split; [reflexivity|assumption] ]
     | intros [H|(old_pos & old_orn & H1 & H)];
       [discriminate H|injection H1 as <- <-; congruence] ])
  | split;
    [ intros H; left; congruence
    | intros [H|(old_pos & old_orn & H1 & H)];
      [congruence|discriminate H1] ] ].

(** C5, amended: on an object that is not loaded, a pose accessor or
    mutator makes no check of the loaded flag.  It passes the stored body
    handle ([None] before the first load) to the engine and leaves the
    object as it is; it fails exactly when one of its engine calls fails,
    and with that call's exception.  The module itself raises no
    [NotLoadedError]. *)
Theorem pose_calls_are_settled_by_the_engine (c : call Fields) self w :
  pose_call c = true -> loaded self = false ->
  engine_decides _load c self w.
Proof.
  intros Hc _. unfold engine_decides, engine_fails.
  destruct c; try discriminate; cbn.
  all: split; [reflexivity|]; split; [reflexivity|]; intros e.
  - destruct (getBasePositionAndOrientation (body_id self) w)
      as [[pos0 orn0]|e0]; cbn; split; intros H;
      first [discriminate H|congruence].
  - destruct (getBasePositionAndOrientation (body_id self) w)
      as [[pos0 orn0]|e0]; cbn; split; intros H;
      first [discriminate H|congruence].
  - settle_setter self w.
  - settle_setter self w.
  - destruct (resetBasePositionAndOrientation (body_id self) pos orn w)
      as [w'|e0]; cbn; split; intros H; first [discriminate H|congruence].
Qed.

End ObjectClaims.

(** ** The Object class on the small engine *)

Section SimulationClaims.
Import PrimFloat.
Local Open Scope float_scope.

Lemma sim_pose_is_stored : pose_is_stored (PE := simulation).
Proof.
  intros b pos orn w w'. cbn. unfold sim_reset, sim_get.
  destruct b as [i|]; [|discriminate].
  destruct (Nat.ltb i (List.length (poses w))) eqn:E; [|discriminate].
  intros [= <-]. cbn. rewrite nth_error_update_nth.
  destruct (Nat.eq_dec i i); [|contradiction].
  apply Nat.ltb_lt in E. apply nth_error_Some in E.
  destruct (nth_error (poses w) i); [reflexivity|contradiction].
Qed.

Lemma box_loads :
  load BoxShape_load default_box empty_sim
  = (loaded_box, Ok (Some 0%nat, sim_with_box)).
Proof. vm_compute. reflexivity. Qed.

(** C4, witness: a box loaded into the empty simulation. *)
Lemma load_is_idempotent_witness :
  loaded_for_good loaded_box (Some 0%nat) sim_with_box.
Proof.
  apply (@load_is_idempotent simulation BoxShape BoxShape_load default_box
           empty_sim loaded_box (Some 0%nat) sim_with_box).
  exact box_loads.
Defined.

(** C5, counterexample: a box that was never loaded.  Each of the five
    pose calls hands [None] to the engine and fails with the engine's
    [TypeError]; none fails with [NotLoadedError]. *)
Lemma unloaded_pose_calls_raise_type_error :
  loaded default_box = false /\
  snd (get_position default_box empty_sim) = Raise TypeError /\
  snd (get_orientation default_box empty_sim) = Raise TypeError /\
  snd (set_position default_box (Vec 0 0 1) empty_sim) = Raise TypeError /\
  snd (set_orientation default_box (0, 0, 0, 1) empty_sim) = Raise TypeError /\
  snd (set_position_orientation default_box (Vec 0 0 1) (0, 0, 0, 1) empty_sim)
  = Raise TypeError.
Proof. repeat split. Qed.

(** C5, witness: [set_position] on the box that was never loaded. *)
Lemma pose_calls_witness :
  engine_decides BoxShape_load
    (SetPosition (PE := simulation) BoxShape (Vec 0 0 1)) default_box
    empty_sim.
Proof.
  apply (@pose_calls_are_settled_by_the_engine simulation BoxShape
           BoxShape_load
           (SetPosition (PE := simulation) BoxShape (Vec 0 0 1)) default_box
           empty_sim);
    reflexivity.
Defined.
End SimulationClaims.

(** ** What the rescaling leaves alone *)

Section KeepsFacts.
Context {F : Type} {SF : Scalar F}.
Implicit Types (t u : Element F) (w : Walk F).

Lemma rescaled_only_trans tg (a b c : Attrib F) :
  rescaled_only tg a b -> rescaled_only tg b c -> rescaled_only tg a c.
Proof.
  unfold rescaled_only.
  intros (H1 & H2 & H3 & H4 & H5 & H6 & H7) (G1 & G2 & G3 & G4 & G5 & G6 & G7).
  repeat match goal with |- _ /\ _ => split end; try congruence;
    try tauto.
  - intros Hm. rewrite (G5 Hm). auto.
  - intros Ho Ha. rewrite (G6 Ho Ha). auto.
Qed.

Lemma same_but_rescaled_refl t : same_but_rescaled t t.
Proof.
  intros p. destruct (node p t) as [[[tg a] n]|]; [|exact I].
  repeat split; auto. all: try tauto.
Qed.

Lemma same_but_rescaled_trans t u v :
  same_but_rescaled t u -> same_but_rescaled u v -> same_but_rescaled t v.
Proof.
  intros H1 H2 p. specialize (H1 p). specialize (H2 p).
  destruct (node p t) as [[[tg1 a1] n1]|], (node p u) as [[[tg2 a2] n2]|],
           (node p v) as [[[tg3 a3] n3]|]; try tauto.
  destruct H1 as (-> & -> & H1), H2 as (-> & -> & H2).
  split; [reflexivity|]. split; [reflexivity|].
  eapply rescaled_only_trans; eassumption.
Qed.

Lemma mesh_scaled_only s (a : Attrib F) : rescaled_only "mesh" a (mesh_scaled s a).
Proof.
  unfold rescaled_only, mesh_scaled.
  destruct (at_scale a); simpl; repeat split; auto; congruence.
Qed.

Lemma xyz_scaled_only tg s (a : Attrib F) :
  tg = "origin"%string \/ tg = "axis"%string ->
  rescaled_only tg a (xyz_scaled s a).
Proof.
  unfold rescaled_only, xyz_scaled. intros Htg.
  destruct (at_xyz a) eqn:E; simpl; repeat split; auto; try congruence.
  all: try (intros; destruct Htg; congruence).
Qed.

Lemma axis_scaled_only s (a : Attrib F) :
  rescaled_only "axis" a (axis_scaled s a).
Proof.
  unfold rescaled_only, axis_scaled.
  destruct (at_xyz a) eqn:E; simpl; repeat split; auto; congruence.
Qed.

(** A loop over the elements of one tag changes them as its step does. *)
Lemma rescale_tag_only tg f q t t' :
  (forall a b, f a = Ok b -> rescaled_only tg a b) ->
  for_each (iter_tag tg q t) (mutate f) t = Ok t' -> same_but_rescaled t t'.
Proof.
  intros Hf H p.
  destruct (in_dec path_eq_dec p (iter_tag tg q t)) as [Hin|Hout].
  - destruct (node p t) as [[[tg0 a0] n0]|] eqn:E0.
    + destruct (rescale_tag_in _ _ _ _ p H Hin E0) as (b & Hb & ->).
      apply in_iter_tag in Hin. destruct Hin as [Hin _].
      rewrite (node_has_tag _ _ _ E0) in Hin. apply String.eqb_eq in Hin.
      subst tg0. auto.
    + apply in_iter_tag in Hin. destruct Hin as [Hin _].
      unfold has_tag in Hin. unfold node in E0.
      destruct (get p t); discriminate.
  - rewrite (rescale_tag_out _ _ _ _ p H Hout).
    apply same_but_rescaled_refl.
Qed.

Lemma scale_link_only s pl t t' :
  scale_link s pl t = Ok t' -> same_but_rescaled t t'.
Proof.
  unfold scale_link. apply for_each_preserves;
    [apply same_but_rescaled_refl|apply same_but_rescaled_trans|].
  intros c u u' _ H.
  destruct (for_each (iter_tag "mesh" c u) (mutate (scale_mesh s)) u)
    as [v|] eqn:E; [|discriminate]. simpl in H.
  apply same_but_rescaled_trans with v.
  - eapply rescale_tag_only; [|exact E]. intros a b.
    rewrite scale_mesh_total. intros [= <-]. apply mesh_scaled_only.
  - eapply rescale_tag_only; [|exact H]. intros a b Hb.
    apply scale_origin_ok in Hb as ->. apply xyz_scaled_only. now left.
Qed.

Variable rot : vec F -> F -> F -> F -> bool -> vec F.

Lemma process_joint_only js j w w' :
  process_joint rot js j w = Ok w' ->
  same_but_rescaled (object_tree w) (object_tree w').
Proof.
  unfold process_joint. intros H.
  destruct (for_each (iter_tag "origin" j (object_tree w)) _ _)
    as [u|] eqn:Eu; [|discriminate]. simpl in H.
  destruct (for_each (iter_tag "axis" [] u) _ _) as [v|] eqn:Ev;
    [|discriminate]. simpl in H.
  destruct (first_child js v) as [child|]; [|discriminate].
  injection H as <-. cbn [object_tree].
  apply same_but_rescaled_trans with u.
  - eapply rescale_tag_only; [|exact Eu]. intros a b Hb.
    apply scale_origin_ok in Hb as ->. apply xyz_scaled_only. now left.
  - eapply rescale_tag_only; [|exact Ev]. intros a b Hb.
    apply scale_axis_ok in Hb as ->. apply axis_scaled_only.
Qed.

Lemma loop_body_only name w w' :
  loop_body rot name w = Ok w' ->
  same_but_rescaled (object_tree w) (object_tree w').
Proof.
  unfold loop_body. intros H.
  destruct (find_parent_link name (object_tree w)) as [pl|]; [|discriminate].
  simpl in H.
  destruct (scale_link (cur_scale w) pl (object_tree w)) as [u|] eqn:Eu;
    [|discriminate]. simpl in H.
  apply scale_link_only in Eu.
  destruct (joints_from pl u) as [js|]; [|discriminate]. simpl in H.
  destruct js as [|j js].
  - injection H as <-. exact Eu.
  - apply same_but_rescaled_trans with u; [exact Eu|].
    revert H. generalize (j :: js) at 1 as l. intros l H.
    change u with (object_tree (Build_Walk u (cur_scale w) (Some name))).
    revert H.
    apply (for_each_preserves
             (fun x y => same_but_rescaled (object_tree x) (object_tree y))).
    + intros x. apply same_but_rescaled_refl.
    + intros x y z. apply same_but_rescaled_trans.
    + intros x y z _. apply process_joint_only.
Qed.

Lemma while_loop_only fuel w w' :
  while_loop rot fuel w = Some (Ok w') ->
  same_but_rescaled (object_tree w) (object_tree w').
Proof.
  revert w; induction fuel as [|fuel IH]; intros w H; simpl in H;
    destruct (parent_link_name w) as [name|];
    try discriminate;
    try (injection H as <-; apply same_but_rescaled_refl).
  destruct (loop_body rot name w) as [w1|] eqn:Eb; [|discriminate].
  eapply same_but_rescaled_trans; [eapply loop_body_only; exact Eb|].
  now apply IH.
Qed.

(** X1. A rescaling that completes returns a document of the same shape
    and tags as the one it was given; of the attributes it has changed
    nothing but the [scale] of mesh elements and the [xyz] of origin and
    axis elements, and it has added or removed no [xyz]. *)
Theorem rescale_changes_scaled_values_only
  (bounding_box original_bbox : vec F) (t t' : Element F) (fuel : nat) :
  rescale rot bounding_box original_bbox t fuel = Some (Ok t') ->
  same_but_rescaled t t'.
Proof.
  unfold rescale. intros H.
  destruct (while_loop rot fuel _) as [[w|]|] eqn:E; try discriminate.
  injection H as <-. now apply while_loop_only in E.
Qed.
End KeepsFacts.

(** ** Links that cannot be found, and loops that do not end *)

Section LookupFacts.
Context {F : Type} {SF : Scalar F}.
Implicit Types (t u : Element F) (w : Walk F).

Lemma comprehension_all_false {A} (c : A -> result bool) (l : list A) :
  (forall x, In x l -> c x = Ok false) -> comprehension c l = Ok [].
Proof.
  induction l as [|x l IHl]; intros H; simpl; [reflexivity|].
  rewrite (H x) by now left. simpl.
  rewrite IHl; [reflexivity|]. intros y Hy. apply H. now right.
Qed.

Lemma comprehension_raise {A} (c : A -> result bool) (l : list A) x e :
  In x l -> c x = Raise e ->
  (forall y e', In y l -> c y = Raise e' -> e' = e) ->
  comprehension c l = Raise e.
Proof.
  induction l as [|y l IHl]; intros Hin Hx Hall; [contradiction|].
  simpl. destruct (c y) as [b|e'] eqn:Ey.
  - simpl. rewrite IHl; [reflexivity| |assumption|].
    + destruct Hin as [->|Hin]; [congruence|assumption].
    + intros z e' Hz. apply Hall. now right.
  - simpl. f_equal. eapply Hall; [now left|exact Ey].
Qed.

Lemma find_parent_link_missing name t :
  (forall link, In link (findall "link" [] t) ->
                exists n, attrib_str at_name link t = Ok n /\ n <> name) ->
  find_parent_link name t = Raise IndexError.
Proof.
  intros H. unfold find_parent_link.
  rewrite comprehension_all_false; [reflexivity|].
  intros link Hin. destruct (H link Hin) as (n & -> & Hn). simpl.
  apply String.eqb_neq in Hn. now rewrite Hn.
Qed.

Lemma find_parent_link_nameless name t link :
  In link (findall "link" [] t) -> at_name (attrib_at t link) = None ->
  find_parent_link name t = Raise KeyError.
Proof.
  intros Hin Hn. unfold find_parent_link.
  rewrite (@comprehension_raise _ _ _ link KeyError); [reflexivity|assumption| |].
  - unfold attrib_str. unfold attrib_at in Hn.
    destruct (get link t); [now rewrite Hn|reflexivity].
  - intros y e' _ Hy.
    destruct (attrib_str at_name y t) as [n|e0] eqn:E; [discriminate|].
    apply attrib_str_raises in E. simpl in Hy. congruence.
Qed.

Variable rot : vec F -> F -> F -> F -> bool -> vec F.

(** X2. When the loop is at a link name that no [link] child of the root
    carries (all of them having a name), it raises [IndexError]: so does a
    rescaling of a document without a link called [base_link]. *)
Theorem missing_link_raises_index_error
  (name : string) (w : Walk F) (fuel : nat) :
  parent_link_name w = Some name ->
  (forall link,
      In link (findall "link" [] (object_tree w)) ->
      exists n,
        attrib_str at_name link (object_tree w) = Ok n /\ n <> name) ->
  while_loop rot (S fuel) w = Some (Raise IndexError) /\
  (name = "base_link"%string ->
   forall bounding_box original_bbox,
     rescale rot bounding_box original_bbox (object_tree w) (S fuel)
     = Some (Raise IndexError)).
Proof.
  intros Hn H. split.
  - simpl. rewrite Hn. unfold loop_body.
    now rewrite (find_parent_link_missing _ H).
  - intros -> b o. unfold rescale. simpl. unfold loop_body.
    cbn [object_tree]. now rewrite (find_parent_link_missing _ H).
Qed.

(** X3. A [link] child of the root without a [name] attribute makes the
    rescaling raise [KeyError] at its first step, wherever that link
    stands and whether or not a link called [base_link] exists. *)
Theorem nameless_link_raises_key_error
  (bounding_box original_bbox : vec F) (t : Element F) (link : path)
  (fuel : nat) :
  In link (findall "link" [] t) -> at_name (attrib_at t link) = None ->
  rescale rot bounding_box original_bbox t (S fuel) = Some (Raise KeyError).
Proof.
  intros Hin Hn. unfold rescale. simpl. unfold loop_body. cbn [object_tree].
  now rewrite (find_parent_link_nameless _ _ _ Hin Hn).
Qed.

(** The course of the loop depends on the frame of the document only:
    two runs from documents of the same frame, at the same link, end
    alike, whatever their scales. *)
Lemma while_loop_frame fuel w1 w2 :
  frame (object_tree w1) (object_tree w2) ->
  parent_link_name w1 = parent_link_name w2 ->
  rel_option
    (rel_result (fun x y => frame (object_tree x) (object_tree y)))
    (while_loop rot fuel w1) (while_loop rot fuel w2).
Proof.
  intros Hf Hn.
  pose proof (@while_loop_lockstep F SF rot (tag_at (object_tree w1))
                (fun _ => @attr_frame F) (fun _ _ => True)) as L.
  specialize (L (fun _ _ _ H => H)).
  specialize (L (fun p s1 s2 a1 a2 b1 b2 _ _ Ha H1 H2 =>
                   attr_frame_trans
                     (attr_frame_trans
                        (attr_frame_sym (scale_mesh_frame _ _ H1)) Ha)
                     (scale_mesh_frame _ _ H2))).
  specialize (L (fun p s1 s2 a1 a2 b1 b2 _ _ Ha H1 H2 =>
                   attr_frame_trans
                     (attr_frame_trans
                        (attr_frame_sym (scale_origin_frame _ _ H1)) Ha)
                     (scale_origin_frame _ _ H2))).
  specialize (L (fun p s1 s2 a1 a2 b1 b2 _ _ Ha H1 H2 =>
                   attr_frame_trans
                     (attr_frame_trans
                        (attr_frame_sym (scale_axis_frame _ _ H1)) Ha)
                     (scale_axis_frame _ _ H2))).
  specialize (L (fun _ _ _ _ _ _ _ _ _ _ => I)).
  specialize (L fuel w1 w2).
  assert (H0 : walk_rel (tag_at (object_tree w1)) (fun _ => @attr_frame F)
                 (fun _ _ => True) w1 w2).
  { repeat split; [|assumption]. intros p. specialize (Hf p).
    destruct (node p (object_tree w1)) as [[[tg a] n]|] eqn:E;
      destruct (node p (object_tree w2)) as [[[tg2 a2] n2]|]; try tauto.
    destruct (node_tag_at _ _ E) as [Htag _].
    destruct Hf as (Ht & Hk & Hf).
    split; [exact Ht|]. split; [exact Hk|].
    split; [symmetry; exact Htag|exact Hf]. }
  specialize (L H0).
  destruct (while_loop rot fuel w1) as [[x|e1]|],
           (while_loop rot fuel w2) as [[y|e2]|]; simpl in *; auto.
  destruct L as (L & _). intros p. specialize (L p).
  destruct (node p (object_tree x)) as [[[tg1 a1] n1]|],
           (node p (object_tree y)) as [[[tg2 a2] n2]|]; auto.
  destruct L as (-> & -> & _ & L). auto.
Qed.

Lemma reaches_fuel w w' :
  reaches rot w w' ->
  forall fuel,
    while_loop rot fuel w = None \/
    exists fuel', fuel' <= fuel /\
                  while_loop rot fuel w = while_loop rot fuel' w'.
Proof.
  induction 1 as [|name w1 w2 _ IH Hn Hb]; intros fuel.
  - right. exists fuel. split; [lia|reflexivity].
  - destruct (IH fuel) as [H|(fuel' & Hle & H)]; [now left|].
    destruct fuel' as [|fuel'].
    + left. rewrite H. simpl. now rewrite Hn.
    + right. exists fuel'. split; [lia|]. rewrite H. simpl.
      now rewrite Hn, Hb.
Qed.

(** X4. A kinematic cycle keeps the loop going for ever: if the loop,
    after one or more iterations, is again at the link name it started
    from, then no amount of fuel lets it finish. *)
Theorem kinematic_cycle_never_terminates
  (w w1 w2 : Walk F) (name : string) :
  reaches rot w w1 -> parent_link_name w1 = Some name ->
  loop_body rot name w1 = Ok w2 ->
  parent_link_name w2 = parent_link_name w ->
  forall fuel, while_loop rot fuel w = None.
Proof.
  intros Hr Hn Hb Hback fuel.
  induction fuel as [fuel IH] using lt_wf_ind.
  destruct (reaches_fuel Hr fuel) as [H|(fuel' & Hle & H)]; [assumption|].
  destruct fuel' as [|fuel'].
  - rewrite H. simpl. now rewrite Hn.
  - rewrite H. simpl. rewrite Hn, Hb.
    assert (Hf : frame (object_tree w2) (object_tree w)).
    { apply frame_sym. apply frame_trans with (object_tree w1).
      - now apply (reaches_frame (rot := rot)).
      - apply loop_body_spec in Hb.
        destruct Hb as (pl & js & _ & _ & Hf & _). exact Hf. }
    pose proof (while_loop_frame fuel' _ _ Hf Hback) as L.
    rewrite (IH fuel') in L by lia.
    destruct (while_loop rot fuel' w2); [contradiction|reflexivity].
Qed.
End LookupFacts.

(** ** The loops over a link, element by element *)

Section LinkFacts.
Context {F : Type} {SF : Scalar F}.
Implicit Types (t u : Element F) (w : Walk F) (p q r : path).

Lemma prefix_of_spec q p : prefix_of q p = true <-> below q p.
Proof.
  revert p; induction q as [|i q IHq]; intros p; simpl.
  - split; [intros _; now exists p|reflexivity].
  - destruct p as [|j p].
    + split; [discriminate|intros (r & Hr); discriminate].
    + rewrite andb_true_iff, Nat.eqb_eq, IHq. split.
      * intros (-> & r & ->). now exists r.
      * intros (r & Hr). injection Hr as -> ->. split; [reflexivity|].
        now exists r.
Qed.

Lemma prefix_of_app q x p : prefix_of (q ++ x) (q ++ p) = prefix_of x p.
Proof.
  induction q as [|i q IHq]; simpl; [reflexivity|].
  now rewrite Nat.eqb_refl, IHq.
Qed.

Lemma visits_app l1 l2 p : visits (l1 ++ l2) p = visits l1 p + visits l2 p.
Proof. unfold visits. now rewrite filter_app, length_app. Qed.

Lemma visits_map_app q l p : visits (map (app q) l) (q ++ p) = visits l p.
Proof.
  unfold visits. induction l as [|x l IHl]; simpl; [reflexivity|].
  rewrite prefix_of_app. destruct (prefix_of x p); simpl; now rewrite IHl.
Qed.

Lemma visits_map_cons i l j p :
  visits (map (cons i) l) (j :: p) = if Nat.eqb i j then visits l p else 0.
Proof.
  unfold visits. induction l as [|x l IHl]; simpl.
  - now destruct (Nat.eqb i j).
  - destruct (Nat.eqb i j) eqn:E; simpl in *; [|assumption].
    destruct (prefix_of x p); simpl; now rewrite IHl.
Qed.

Lemma visits_children (cs : list (Element F)) k i p :
  visits (imap (fun j c => map (cons j) (iter c)) k cs) (i :: p) =
  if Nat.leb k i
  then match nth_error cs (i - k) with
       | Some c => visits (iter c) p
       | None => 0
       end
  else 0.
Proof.
  revert k; induction cs as [|c cs IH]; intros k; simpl.
  - destruct (Nat.leb k i); [|reflexivity]. now destruct (i - k).
  - rewrite visits_app, visits_map_cons, IH.
    destruct (Nat.eqb k i) eqn:E.
    + apply Nat.eqb_eq in E. subst i.
      rewrite Nat.leb_refl, Nat.sub_diag.
      assert (E' : Nat.leb (S k) k = false) by (apply Nat.leb_gt; lia).
      rewrite E'. cbn [nth_error]. apply Nat.add_0_r.
    + apply Nat.eqb_neq in E. destruct (Nat.leb k i) eqn:E1.
      * apply Nat.leb_le in E1.
        assert (E2 : Nat.leb (S k) i = true) by (apply Nat.leb_le; lia).
        rewrite E2. replace (i - k) with (S (i - S k)) by lia. reflexivity.
      * apply Nat.leb_gt in E1.
        assert (E2 : Nat.leb (S k) i = false) by (apply Nat.leb_gt; lia).
        now rewrite E2.
Qed.

Lemma visits_children_root (cs : list (Element F)) k :
  visits (imap (fun j c => map (cons j) (iter c)) k cs) [] = 0.
Proof.
  revert k; induction cs as [|c cs IH]; intros k; simpl; [reflexivity|].
  rewrite visits_app, IH, Nat.add_0_r. unfold visits.
  now induction (iter c) as [|x l IHl].
Qed.

(** The elements of [iter e] that are [r] or above it are as many as [r]
    has ancestors, itself included. *)
Lemma visits_iter (e : Element F) r :
  get r e <> None -> visits (iter e) r = S (List.length r).
Proof.
  revert r. induction e as [tg a cs IH] using Element_induction.
  intros r Hr. cbn [iter].
  change (visits ([] :: ?l) r) with (S (visits l r)).
  f_equal. destruct r as [|i r].
  - apply visits_children_root.
  - rewrite visits_children. simpl. rewrite Nat.sub_0_r.
    simpl in Hr. destruct (nth_error cs i) as [c|] eqn:E; [|contradiction].
    rewrite Forall_forall in IH. apply IH; [|assumption].
    eapply nth_error_In; eassumption.
Qed.

Lemma visits_outside q l p :
  ~ below q p -> visits (map (app q) l) p = 0.
Proof.
  intros Hp. unfold visits. induction l as [|x l IHl]; simpl; [reflexivity|].
  destruct (prefix_of (q ++ x) p) eqn:E; [|assumption].
  apply prefix_of_spec in E. destruct E as (r & ->).
  exfalso. apply Hp. exists (x ++ r). now rewrite app_assoc.
Qed.

(** One round of the inner loops, started from the element [x]. *)
Lemma link_round s x t t' q tg a n :
  (u <- for_each (iter_tag "mesh" x t) (mutate (scale_mesh s)) t ;;
   for_each (iter_tag "origin" x u) (mutate (scale_origin s)) u) = Ok t' ->
  node q t = Some (tg, a, n) ->
  node q t' = Some (tg, if prefix_of x q then link_step tg s a else a, n).
Proof.
  intros H Hn.
  destruct (for_each (iter_tag "mesh" x t) _ t) as [u|] eqn:Eu;
    [|discriminate]. simpl in H.
  assert (Hu : node q u
               = Some (tg, if prefix_of x q && String.eqb tg "mesh"
                           then mesh_scaled s a else a, n)).
  { destruct (in_dec path_eq_dec q (iter_tag "mesh" x t)) as [Hin|Hout].
    - destruct (rescale_tag_in _ _ _ _ q Eu Hin Hn) as (b & Hb & ->).
      rewrite scale_mesh_total in Hb. injection Hb as <-.
      apply in_iter_tag in Hin. destruct Hin as [Hin Hr].
      rewrite (node_has_tag _ _ _ Hn) in Hin. rewrite Hin.
      apply prefix_of_spec in Hr. now rewrite Hr.
    - rewrite (rescale_tag_out _ _ _ _ q Eu Hout), Hn.
      destruct (prefix_of x q && String.eqb tg "mesh") eqn:E; [|reflexivity].
      exfalso. apply Hout. apply andb_true_iff in E. destruct E as [E1 E2].
      apply in_iter_tag. rewrite (node_has_tag _ _ _ Hn).
      split; [assumption|]. now apply prefix_of_spec. }
  remember (if prefix_of x q && String.eqb tg "mesh"
            then mesh_scaled s a else a) as a1 eqn:Ea1.
  assert (Ht' : node q t'
                = Some (tg, if prefix_of x q && String.eqb tg "origin"
                            then xyz_scaled s a1 else a1, n)).
  { destruct (in_dec path_eq_dec q (iter_tag "origin" x u)) as [Hin|Hout].
    - destruct (rescale_tag_in _ _ _ _ q H Hin Hu) as (b & Hb & ->).
      apply scale_origin_ok in Hb as ->.
      apply in_iter_tag in Hin. destruct Hin as [Hin Hr].
      rewrite (node_has_tag _ _ _ Hu) in Hin. rewrite Hin.
      apply prefix_of_spec in Hr. now rewrite Hr.
    - rewrite (rescale_tag_out _ _ _ _ q H Hout), Hu.
      destruct (prefix_of x q && String.eqb tg "origin") eqn:E; [|reflexivity].
      exfalso. apply Hout. apply andb_true_iff in E. destruct E as [E1 E2].
      apply in_iter_tag. rewrite (node_has_tag _ _ _ Hu).
      split; [assumption|]. now apply prefix_of_spec. }
  rewrite Ht'. subst a1. unfold link_step.
  destruct (prefix_of x q); simpl; [|reflexivity].
  destruct (String.eqb tg "mesh") eqn:Em.
  - apply String.eqb_eq in Em. subst tg. reflexivity.
  - destruct (String.eqb tg "origin"); reflexivity.
Qed.

Lemma link_rounds s (l : list path) t t' q tg a n :
  for_each l
    (fun xml_child t =>
       t <- for_each (iter_tag "mesh" xml_child t)
              (mutate (scale_mesh s)) t ;;
       for_each (iter_tag "origin" xml_child t)
         (mutate (scale_origin s)) t) t = Ok t' ->
  node q t = Some (tg, a, n) ->
  node q t' = Some (tg, Nat.iter (visits l q) (link_step tg s) a, n).
Proof.
  revert t a; induction l as [|x l IHl]; intros t a H Hn; simpl in H.
  - injection H as <-. exact Hn.
  - match type of H with bind ?m _ = _ => destruct m as [t1|] eqn:E1 end;
      [|discriminate]. simpl in H.
    pose proof (link_round _ _ _ _ E1 Hn) as H1.
    rewrite (IHl _ _ H H1). f_equal. f_equal. f_equal.
    unfold visits. simpl.
    destruct (prefix_of x q); [|reflexivity].
    rewrite <- Nat.iter_succ_r. reflexivity.
Qed.

(** What the loops over the link at [pl] make of any element of the
    document. *)
Lemma scale_link_spec s pl t t' q tg a n :
  scale_link s pl t = Ok t' -> node q t = Some (tg, a, n) ->
  node q t'
  = Some (tg, Nat.iter (visits (iter_all pl t) q) (link_step tg s) a, n).
Proof. unfold scale_link. apply link_rounds. Qed.

Lemma scale_link_outside s pl t t' q :
  scale_link s pl t = Ok t' -> ~ below pl q -> node q t' = node q t.
Proof.
  intros H Hq. destruct (node q t) as [[[tg a] n]|] eqn:E.
  - erewrite scale_link_spec; [|exact H|exact E]. unfold iter_all.
    destruct (get pl t); [|reflexivity]. now rewrite visits_outside.
  - apply scale_link_frame in H. specialize (H q). rewrite E in H.
    rename H into Hf.
    destruct (node q t') as [[[? ?] ?]|]; [contradiction|reflexivity].
Qed.

Lemma visits_below pl t r :
  get (pl ++ r) t <> None -> visits (iter_all pl t) (pl ++ r) = S (List.length r).
Proof.
  intros H. unfold iter_all. rewrite get_app in H.
  destruct (get pl t) as [e|]; [|contradiction].
  now rewrite visits_map_app, visits_iter.
Qed.

(** X6. The loops over a link come to an element of the link once from
    each of its ancestors within the link and once from itself: a mesh or
    an origin [r] levels below the link element has its rescaling step
    applied [r + 1] times, and the other elements of the link are left as
    they are. *)
Theorem link_elements_are_rescaled_once_per_level
  (scale : vec F) (parent_link : path) (t t' : Element F) (r : path)
  (tg : string) (a : Attrib F) (n : nat) :
  scale_link scale parent_link t = Ok t' ->
  node (parent_link ++ r) t = Some (tg, a, n) ->
  node (parent_link ++ r) t'
  = Some (tg, Nat.iter (S (List.length r)) (link_step tg scale) a, n).
Proof.
  intros H Hn. erewrite scale_link_spec; [|exact H|exact Hn].
  rewrite visits_below; [reflexivity|].
  unfold node in Hn. destruct (get (parent_link ++ r) t); discriminate.
Qed.
End LinkFacts.

(** ** One iteration of the loop, and objects of a single link *)

Section SuccessFacts.
Context {F : Type} {SF : Scalar F}.
Implicit Types (t u : Element F) (p q r : path).

Lemma for_each_ok {A S} (Inv : S -> Prop) (l : list A)
  (body : A -> S -> result S) :
  (forall x s, In x l -> Inv s -> exists s', body x s = Ok s' /\ Inv s') ->
  forall s, Inv s -> exists s', for_each l body s = Ok s' /\ Inv s'.
Proof.
  induction l as [|x l IHl]; intros Hb s Hs; simpl.
  - now exists s.
  - destruct (Hb x s) as (s1 & -> & Hs1); [now left|assumption|]. simpl.
    apply IHl; [|assumption]. intros y u Hy. apply Hb. now right.
Qed.

(** A loop over the elements of one tag succeeds when its step succeeds
    on every attribute dictionary of the frame of those it will meet. *)
Lemma rescale_tag_ok tg f q t :
  (forall a b, f a = Ok b -> attr_frame a b) ->
  (forall p a, In p (iter_tag tg q t) -> attr_frame (attrib_at t p) a ->
               exists b, f a = Ok b) ->
  exists t', for_each (iter_tag tg q t) (mutate f) t = Ok t' /\ frame t t'.
Proof.
  intros Hf Hok.
  apply (for_each_ok (fun u => frame t u)); [|apply frame_refl].
  intros p u Hin Hu.
  assert (H : exists u', mutate f p u = Ok u').
  { unfold mutate. destruct (get p u) as [e|] eqn:E; [|now exists u].
    destruct (Hok p (attrib e) Hin) as (b & ->); [|now eexists].
    specialize (Hu p). unfold node in Hu. rewrite E in Hu.
    unfold attrib_at. destruct (get p t); [|contradiction]. apply Hu. }
  destruct H as (u' & H). exists u'. split; [assumption|].
  apply frame_trans with u; [assumption|].
  eapply mutate_frame; [exact Hf|exact H].
Qed.

(** The loops over a link succeed when every origin of the link has an
    [xyz]. *)
Lemma scale_link_ok s pl t :
  (forall r tg a n,
      node (pl ++ r) t = Some (tg, a, n) -> tg = "origin"%string ->
      at_xyz a <> None) ->
  exists t', scale_link s pl t = Ok t'.
Proof.
  intros Hxyz. unfold scale_link.
  destruct (for_each_ok (fun u => frame t u) (iter_all pl t)
              (fun xml_child t =>
                 t <- for_each (iter_tag "mesh" xml_child t)
                        (mutate (scale_mesh s)) t ;;
                 for_each (iter_tag "origin" xml_child t)
                   (mutate (scale_origin s)) t)) with (s := t)
    as (t' & H & _); [|apply frame_refl|now exists t'].
  intros x u Hx Hu.
  assert (Hbx : below pl x).
  { unfold iter_all in Hx. destruct (get pl t); [|contradiction].
    apply in_map_iff in Hx. destruct Hx as (r & <- & _). now exists r. }
  destruct (@rescale_tag_ok "mesh" (scale_mesh s) x u) as (u1 & -> & Hu1).
  { apply scale_mesh_frame. }
  { intros p a _ _. rewrite scale_mesh_total. now eexists. }
  simpl.
  destruct (@rescale_tag_ok "origin" (scale_origin s) x u1) as (u2 & -> & Hu2).
  { apply scale_origin_frame. }
  { intros p a Hin Ha. apply in_iter_tag in Hin.
    destruct Hin as [Htag (r & ->)]. destruct Hbx as (r0 & ->).
    assert (Ht1 : frame t u1) by (eapply frame_trans; eassumption).
    specialize (Ht1 ((pl ++ r0) ++ r)).
    destruct (node ((pl ++ r0) ++ r) u1) as [[[tg1 a1] n1]|] eqn:E1.
    - destruct (node ((pl ++ r0) ++ r) t) as [[[tg0 a0] n0]|] eqn:E0;
        [|contradiction].
      destruct Ht1 as (-> & -> & Ht1).
      rewrite (node_has_tag _ _ _ E1) in Htag.
      apply String.eqb_eq in Htag. subst tg1.
      rewrite <- app_assoc in E0.
      pose proof (Hxyz _ _ _ _ E0 eq_refl) as Hx0.
      destruct (node_tag_at _ _ E1) as [_ Hat]. rewrite Hat in Ha.
      assert (Hxa : at_xyz a <> None).
      { destruct Ht1 as (_ & _ & _ & _ & Hi1).
        destruct Ha as (_ & _ & _ & _ & Hi2). tauto. }
      unfold scale_origin. destruct (at_xyz a); [now eexists|contradiction].
    - unfold has_tag in Htag. unfold node in E1.
      destruct (get ((pl ++ r0) ++ r) u1); discriminate. }
  exists u2. split; [reflexivity|].
  eapply frame_trans; [exact Hu|]. eapply frame_trans; eassumption.
Qed.
End SuccessFacts.

Section IterationFacts.
Context {F : Type} {SF : Scalar F}.
Variable rot : vec F -> F -> F -> F -> bool -> vec F.
Implicit Types (t u : Element F) (w : Walk F) (p q r : path).

Lemma joints_keep js js' w w' p tg a n :
  for_each js' (process_joint rot js) w = Ok w' ->
  node p (object_tree w) = Some (tg, a, n) -> tg <> "axis"%string ->
  (forall j, In j js' -> ~ below j p) ->
  node p (object_tree w') = Some (tg, a, n).
Proof.
  revert w; induction js' as [|j js' IH]; intros w H Hn Htg Hj; simpl in H.
  - now injection H as <-.
  - destruct (process_joint rot js j w) as [w1|] eqn:E1; [|discriminate].
    simpl in H. apply (IH w1); [assumption| |assumption|].
    + eapply process_joint_spec; [exact E1|exact Hn| |exact Htg].
      intros Hin. apply in_iter_tag in Hin. destruct Hin as [_ Hr].
      apply (Hj j); [now left|exact Hr].
    + intros k Hk. apply Hj. now right.
Qed.

(** X5. One iteration of the loop changes nothing outside the link it is
    at, the joints that leave this link and the axis elements of the
    document; when no joint leaves the link, the axes are left alone as
    well. *)
Theorem one_iteration_is_local (name : string) (w w' : Walk F) :
  loop_body rot name w = Ok w' ->
  exists parent_link joint_news,
    find_parent_link name (object_tree w) = Ok parent_link /\
    joints_from parent_link (object_tree w) = Ok joint_news /\
    forall p tg a n,
      node p (object_tree w) = Some (tg, a, n) ->
      ~ below parent_link p ->
      (forall joint, In joint joint_news -> ~ below joint p) ->
      tg <> "axis"%string \/ joint_news = [] ->
      node p (object_tree w') = Some (tg, a, n).
Proof.
  unfold loop_body. intros H.
  destruct (find_parent_link name (object_tree w)) as [pl|]; [|discriminate].
  simpl in H.
  destruct (scale_link (cur_scale w) pl (object_tree w)) as [u|] eqn:Eu;
    [|discriminate]. simpl in H.
  pose proof (scale_link_frame _ _ _ Eu) as Hu.
  destruct (joints_from pl u) as [js|] eqn:Ejs; [|discriminate]. simpl in H.
  exists pl, js. split; [reflexivity|].
  split; [now rewrite (agree_joints_from Hu (@frame_attr F))|].
  intros p tg a n Hn Hpl Hjs Htg.
  assert (Hnu : node p u = Some (tg, a, n)).
  { erewrite scale_link_outside; [exact Hn|exact Eu|exact Hpl]. }
  destruct js as [|j js].
  - now injection H as <-.
  - destruct Htg as [Htg|Htg]; [|discriminate].
    eapply joints_keep; [exact H|exact Hnu|exact Htg|exact Hjs].
Qed.

(** X7. An object of a single link: when no joint leaves the base link
    and every origin of the base link has an [xyz], the rescaling returns
    after one iteration; a mesh or an origin [r] levels below the link
    element has had its step applied [r + 1] times with the base scale,
    and nothing outside the base link has changed. *)
Theorem single_link_object_is_rescaled
  (bounding_box original_bbox : vec F) (t : Element F) (parent_link : path)
  (fuel : nat) :
  find_parent_link "base_link" t = Ok parent_link ->
  joints_from parent_link t = Ok [] ->
  (forall r tg a n,
      node (parent_link ++ r) t = Some (tg, a, n) -> tg = "origin"%string ->
      at_xyz a <> None) ->
  exists t',
    rescale rot bounding_box original_bbox t (S fuel) = Some (Ok t') /\
    (forall r tg a n,
        node (parent_link ++ r) t = Some (tg, a, n) ->
        node (parent_link ++ r) t'
        = Some (tg,
                Nat.iter (S (List.length r))
                  (link_step tg (np_divide bounding_box original_bbox)) a,
                n)) /\
    (forall q, ~ below parent_link q -> node q t' = node q t).
Proof.
  intros Hpl Hjs Hxyz.
  destruct (scale_link_ok (np_divide bounding_box original_bbox) _ _ Hxyz)
    as (u & Hu).
  exists u. split; [|split].
  - unfold rescale. simpl. unfold loop_body. cbn [object_tree cur_scale].
    rewrite Hpl. simpl. rewrite Hu. simpl.
    rewrite <- (agree_joints_from (scale_link_frame _ _ _ Hu) (@frame_attr F)).
    rewrite Hjs. simpl. now destruct fuel.
  - intros r tg a n Hn. erewrite scale_link_spec; [|exact Hu|exact Hn].
    rewrite visits_below; [reflexivity|].
    unfold node in Hn. destruct (get (parent_link ++ r) t); discriminate.
  - intros q Hq. eapply scale_link_outside; eassumption.
Qed.
End IterationFacts.

(** ** The mesh file names *)

Section ResolveFacts.
Context {F : Type} {SF : Scalar F}.
Implicit Types (t u : Element F) (p q : path).

Lemma agree_trans (P : path -> string -> Attrib F -> Attrib F -> Prop) t u v :
  (forall q tg a b c, P q tg a b -> P q tg b c -> P q tg a c) ->
  agree P t u -> agree P u v -> agree P t v.
Proof.
  intros HP H1 H2 p. specialize (H1 p). specialize (H2 p).
  destruct (node p t) as [[[tg1 a1] n1]|], (node p u) as [[[tg2 a2] n2]|],
           (node p v) as [[[tg3 a3] n3]|]; try tauto.
  destruct H1 as (-> & -> & H1), H2 as (-> & -> & H2).
  split; [reflexivity|]. split; [reflexivity|]. eapply HP; eassumption.
Qed.

Lemma mutate_agree (P : path -> string -> Attrib F -> Attrib F -> Prop)
  f p t t' :
  (forall q tg a, P q tg a a) ->
  (forall tg a n b, node p t = Some (tg, a, n) -> f a = Ok b -> P p tg a b) ->
  mutate f p t = Ok t' -> agree P t t'.
Proof.
  intros Hrefl Hf H q. destruct (path_eq_dec q p) as [->|Hq].
  - destruct (node p t) as [[[tg a] n]|] eqn:En.
    + destruct (mutate_same _ _ _ H En) as (b & Hb & ->).
      split; [reflexivity|]. split; [reflexivity|]. eapply Hf; eauto.
    + rewrite (mutate_none _ _ _ H En), En. exact I.
  - rewrite (mutate_other _ _ H Hq).
    destruct (node q t) as [[[tg a] n]|]; [|exact I]. auto.
Qed.

Local Abbreviation resolve_step model_path :=
  (fun a : Attrib F =>
     match at_filename a with
     | Some f => Ok (set_filename (model_path ++ "/" ++ f) a)
     | None => Raise KeyError
     end).

Lemma resolve_mesh_paths_spec model_path t t' p tg a n :
  resolve_mesh_paths model_path t = Ok t' ->
  node p t = Some (tg, a, n) ->
  node p t' = Some (tg, prefixed model_path tg a, n) /\
  (tg = "mesh"%string -> at_filename a <> None).
Proof.
  unfold resolve_mesh_paths. intros H Hn.
  destruct (in_dec path_eq_dec p (iter_tag "mesh" [] t)) as [Hin|Hout].
  - destruct (rescale_tag_in _ _ _ _ p H Hin Hn) as (b & Hb & ->).
    apply in_iter_tag_root in Hin. rewrite (node_has_tag _ _ _ Hn) in Hin.
    unfold prefixed. rewrite Hin.
    destruct (at_filename a); [|discriminate]. injection Hb as <-.
    split; [reflexivity|discriminate].
  - rewrite (rescale_tag_out _ _ _ _ p H Hout), Hn.
    assert (Htg : String.eqb tg "mesh" = false).
    { destruct (String.eqb tg "mesh") eqn:E; [|reflexivity].
      exfalso. apply Hout. apply in_iter_tag_root.
      now rewrite (node_has_tag _ _ _ Hn). }
    unfold prefixed. rewrite Htg. split; [reflexivity|].
    intros ->. discriminate.
Qed.

Lemma resolve_mesh_paths_raises model_path t e :
  resolve_mesh_paths model_path t = Raise e -> e = KeyError.
Proof.
  unfold resolve_mesh_paths.
  apply (for_each_raises (fun e => e = KeyError)).
  intros p u e0. apply (mutate_raises (fun e => e = KeyError)). intros a e1.
  destruct (at_filename a); [discriminate|]. now intros [= <-].
Qed.

(** X8. When every mesh of the parsed document has a [filename], the
    constructor's first loop returns, having put the model path and a
    slash before the file name of every mesh and changed nothing else. *)
Theorem mesh_filenames_are_resolved (model_path : string) (t : Element F) :
  meshes_have_files t ->
  exists t',
    resolve_mesh_paths model_path t = Ok t' /\
    forall p tg a n,
      node p t = Some (tg, a, n) ->
      node p t' = Some (tg, prefixed model_path tg a, n).
Proof.
  intros Hall.
  assert (H : exists t', resolve_mesh_paths model_path t = Ok t').
  { unfold resolve_mesh_paths.
    set (P := fun (_ : path) (_ : string) (a b : Attrib F) =>
                at_filename a = None <-> at_filename b = None).
    destruct (for_each_ok (fun u => agree P t u) (iter_tag "mesh" [] t)
                (mutate (resolve_step model_path))) with (s := t)
      as (t' & H & _); [| |now exists t'].
    - intros p u Hin Hu.
      assert (Hrefl : forall (q : path) (tg : string) (a : Attrib F),
                 P q tg a a) by (unfold P; tauto).
      assert (H : exists u', mutate (resolve_step model_path) p u = Ok u').
      { unfold mutate. destruct (get p u) as [e|] eqn:E; [|now exists u].
        apply in_iter_tag_root in Hin. specialize (Hu p).
        unfold node in Hu. rewrite E in Hu.
        destruct (node p t) as [[[tg a] n]|] eqn:En.
        - unfold node in Hu. unfold node in En.
          destruct (get p t) as [e0|] eqn:E0; [|discriminate].
          injection En as <- <- <-. destruct Hu as (Htg & _ & Hu).
          assert (Hm : tag e0 = "mesh"%string).
          { unfold has_tag in Hin. rewrite E0 in Hin.
            now apply String.eqb_eq in Hin. }
          assert (Hf0 : at_filename (attrib e0) <> None).
          { eapply Hall; [|exact Hm]. unfold node. now rewrite E0. }
          destruct (at_filename (attrib e)) eqn:Ef; [now eexists|].
          exfalso. apply Hf0. now apply Hu.
        - unfold node in En. destruct (get p t); [discriminate|].
          contradiction. }
      destruct H as (u' & H). exists u'. split; [assumption|].
      apply agree_trans with u; [|assumption|].
      + unfold P. intros; tauto.
      + eapply mutate_agree; [exact Hrefl| |exact H].
        intros tg a n b _ Hb. cbv beta in Hb.
        destruct (at_filename a) eqn:Ea; [|discriminate Hb].
        injection Hb as <-. unfold P. rewrite Ea. simpl. split; discriminate.
    - intros p. destruct (node p t) as [[[tg a] n]|]; [|exact I].
      unfold P. tauto. }
  destruct H as (t' & H). exists t'. split; [assumption|].
  intros p tg a n Hn. eapply resolve_mesh_paths_spec; eassumption.
Qed.

(** X9. A mesh without a [filename] makes the constructor raise
    [KeyError] before it rescales anything, whether or not a bounding box
    is requested. *)
Theorem mesh_without_filename_raises_key_error
  (rot : vec F -> F -> F -> F -> bool -> vec F) (model_path : string)
  (parsed : Element F) (bounding_box : option (vec F)) (data : bbox_json F)
  (fuel : nat) (p : path) (a : Attrib F) (n : nat) :
  node p parsed = Some ("mesh"%string, a, n) -> at_filename a = None ->
  InteractiveObj2_init rot model_path parsed bounding_box data fuel
  = Some (Raise KeyError).
Proof.
  intros Hn Ha. unfold InteractiveObj2_init.
  destruct (resolve_mesh_paths model_path parsed) as [t'|e] eqn:E.
  - eapply resolve_mesh_paths_spec in E; [|exact Hn].
    destruct E as (_ & H). exfalso. now apply H.
  - apply resolve_mesh_paths_raises in E. now subst e.
Qed.
End ResolveFacts.

(** ** Numeric attributes as text *)

Section TextFacts.
Import Ascii.
Context {F : Type}.
Variable str : F -> string.
Variable float : string -> option F.

Lemma split_not_nil s : split s <> [].
Proof.
  destruct s as [|c s]; simpl; [discriminate|].
  destruct (is_space c); [discriminate|].
  destruct (split s); discriminate.
Qed.

(** Splitting at a space: the pieces before it, then the pieces after
    it. *)
Lemma split_app_space r s :
  split (r ++ " " ++ s)%string = split r ++ split s.
Proof.
  change (" " ++ s)%string with (String " "%char s).
  induction r as [|c r IH]; simpl; [reflexivity|].
  rewrite IH. destruct (is_space c); [reflexivity|].
  pose proof (split_not_nil r) as Hr.
  destruct (split r) as [|piece pieces]; [contradiction|reflexivity].
Qed.

Lemma split_no_space x : has_space x = false -> split x = [x].
Proof.
  induction x as [|c x IH]; simpl; [reflexivity|].
  intros H. apply orb_false_iff in H. destruct H as [-> H].
  now rewrite (IH H).
Qed.

Lemma split_join l :
  l <> [] -> Forall (fun x => has_space x = false) l -> split (join l) = l.
Proof.
  induction l as [|x l IH]; intros Hl Hs; [contradiction|].
  inversion Hs as [|? ? Hx Hs']; subst.
  destruct l as [|y l]; [now apply split_no_space|].
  change (join (x :: y :: l)) with (x ++ " " ++ join (y :: l))%string.
  rewrite split_app_space, (split_no_space _ Hx), IH; [reflexivity| |assumption].
  discriminate.
Qed.

Lemma floats_map_str v :
  Forall (fun x => float (str x) = Some x) v -> floats float (map str v) = Some v.
Proof.
  induction 1 as [|x v Hx _ IH]; simpl; [reflexivity|].
  now rewrite Hx, IH.
Qed.

Lemma floats_empty_piece l :
  float EmptyString = None -> In EmptyString l -> floats float l = None.
Proof.
  intros H0. induction l as [|x l IH]; intros Hin; [contradiction|]. simpl.
  destruct Hin as [->|Hin]; [now rewrite H0|].
  destruct (float x); [|reflexivity]. now rewrite IH.
Qed.

(** X10. What the rescaler writes it reads back unchanged: printing a
    non-empty array with [' '.join(map(str, v))] and parsing the text with
    [[float(val) for val in s.split(" ")]] gives the array again, provided
    that [str] prints each of its numbers without a space and [float]
    reads that text as the number. *)
Theorem written_attribute_reads_back (v : list F) :
  v <> [] ->
  Forall (fun x => float (str x) = Some x /\ has_space (str x) = false) v ->
  parse float (format str v) = Some v.
Proof.
  intros Hv H. unfold parse, format. rewrite split_join.
  - apply floats_map_str. eapply Forall_impl; [|exact H]. now intros x [Hx _].
  - destruct v; [contradiction|discriminate].
  - apply Forall_map. eapply Forall_impl; [|exact H]. now intros x [_ Hx].
Qed.

(** X11. [split(" ")] keeps the empty pieces: an attribute that is empty,
    begins or ends with a space, or has two spaces in a row does not
    parse, since [float] rejects the empty text. *)
Theorem stray_space_does_not_parse (s : string) :
  float EmptyString = None -> stray_space s -> parse float s = None.
Proof.
  intros H0 Hs. apply floats_empty_piece; [assumption|].
  destruct Hs as [->|[(r & ->)|[(r & ->)|(r1 & r2 & ->)]]].
  - now left.
  - now left.
  - change (r ++ " ")%string with (r ++ " " ++ "")%string.
    rewrite split_app_space. apply in_or_app. right. now left.
  - change (r1 ++ "  " ++ r2)%string with (r1 ++ " " ++ (" " ++ r2))%string.
    rewrite split_app_space. apply in_or_app. right. now left.
Qed.

End TextFacts.

(** ** The states of an object *)

Section ObjectStateFacts.
Context {PE : PhysicsEngine}.
Variable Fields : Type.
Variable _load : Fields -> World -> result (BodyId * Fields * World).

(** X12. However a client calls the methods of an object, and whether
    the calls return or raise, [body_id] is a handle exactly when [loaded]
    is set: it is [None] until a [load] has returned, and a handle from
    then on. *)
Theorem handle_is_set_exactly_when_loaded (self : Object Fields) :
  reachable _load self -> handle_matches_flag self.
Proof.
  induction 1 as [d|c self w _ IH].
  - right. split; reflexivity.
  - destruct c; simpl; try exact IH.
    + unfold load. destruct (loaded self) eqn:El; [exact IH|].
      destruct (_load (fields self) w) as [[[b d] w']|]; simpl; [|exact IH].
      left. split; [reflexivity|now exists b].
    + destruct (_load (fields self) w) as [[[b d] w']|]; simpl; exact IH.
Qed.

(** X13. Setting the position and then the orientation, in either order,
    leaves the object at the pose that [set_position_orientation] gives it
    in one call, on an engine that returns the pose it has stored. *)
Theorem pose_setters_compose (self : Object Fields) (pos : Pos) (orn : Orn)
  (w w1 w2 : World) :
  pose_is_stored ->
  (snd (set_position self pos w) = Ok (tt, w1) ->
   snd (set_orientation self orn w1) = Ok (tt, w2) ->
   pose_after self w2 pos orn) /\
  (snd (set_orientation self orn w) = Ok (tt, w1) ->
   snd (set_position self pos w1) = Ok (tt, w2) ->
   pose_after self w2 pos orn) /\
  (snd (set_position_orientation self pos orn w) = Ok (tt, w2) ->
   pose_after self w2 pos orn).
Proof.
  intros Hlaw.
  assert (Hafter : forall p o x y,
             resetBasePositionAndOrientation (body_id self) p o x = Ok y ->
             pose_after self y p o).
  { intros p o x y Hr. unfold pose_after, get_position, get_orientation.
    simpl. now rewrite (Hlaw _ _ _ _ _ Hr). }
  assert (Hget : forall p o x, pose_after self x p o ->
             getBasePositionAndOrientation (body_id self) x = Ok (p, o)).
  { intros p o x [Hp Ho]. unfold get_position, get_orientation in *.
    simpl in *.
    destruct (getBasePositionAndOrientation (body_id self) x) as [[p' o']|];
      [|discriminate]. simpl in *. congruence. }
  unfold set_position, set_orientation, set_position_orientation. simpl.
  split; [|split].
  - intros H1 H2.
    destruct (getBasePositionAndOrientation (body_id self) w) as [[p0 o0]|];
      [|discriminate]. simpl in H1.
    destruct (resetBasePositionAndOrientation (body_id self) pos o0 w)
      as [x|] eqn:E1; [|discriminate]. injection H1 as <-.
    rewrite (Hget _ _ _ (Hafter _ _ _ _ E1)) in H2. simpl in H2.
    destruct (resetBasePositionAndOrientation (body_id self) pos orn x)
      as [y|] eqn:E2; [|discriminate]. injection H2 as <-.
    now apply (Hafter _ _ _ _ E2).
  - intros H1 H2.
    destruct (getBasePositionAndOrientation (body_id self) w) as [[p0 o0]|];
      [|discriminate]. simpl in H1.
    destruct (resetBasePositionAndOrientation (body_id self) p0 orn w)
      as [x|] eqn:E1; [|discriminate]. injection H1 as <-.
    rewrite (Hget _ _ _ (Hafter _ _ _ _ E1)) in H2. simpl in H2.
    destruct (resetBasePositionAndOrientation (body_id self) pos orn x)
      as [y|] eqn:E2; [|discriminate]. injection H2 as <-.
    now apply (Hafter _ _ _ _ E2).
  - intros H.
    destruct (resetBasePositionAndOrientation (body_id self) pos orn w)
      as [y|] eqn:E; [|discriminate]. injection H as <-.
    now apply (Hafter _ _ _ _ E).
Qed.
End ObjectStateFacts.

(** ** Whole runs of the loop *)

Section RunFacts.
Context {F : Type} {SF : Scalar F}.
Variable rot : vec F -> F -> F -> F -> bool -> vec F.
Implicit Types (t u : Element F) (w : Walk F) (p q r : path).

Lemma after_iterations_while k w w' fuel :
  after_iterations rot k w = Some w' ->
  while_loop rot (k + fuel) w = while_loop rot fuel w'.
Proof.
  revert w; induction k as [|k IH]; intros w H; simpl in H.
  - now injection H as <-.
  - simpl. destruct (parent_link_name w) as [name|]; [|discriminate].
    destruct (loop_body rot name w) as [w1|]; [|discriminate].
    now apply IH.
Qed.

Lemma after_iterations_frame k w w' :
  after_iterations rot k w = Some w' ->
  frame (object_tree w) (object_tree w').
Proof.
  revert w; induction k as [|k IH]; intros w H; simpl in H.
  - injection H as <-. apply frame_refl.
  - destruct (parent_link_name w) as [name|]; [|discriminate].
    destruct (loop_body rot name w) as [w1|] eqn:Eb; [|discriminate].
    apply loop_body_spec in Eb. destruct Eb as (pl & js & _ & _ & Hf & _).
    eapply frame_trans; [exact Hf|]. now apply IH.
Qed.

(** A run that comes back to the link name it started from does not
    end. *)
Lemma cycle_diverges k w w' :
  after_iterations rot (S k) w = Some w' ->
  parent_link_name w' = parent_link_name w ->
  forall fuel, while_loop rot fuel w = None.
Proof.
  intros Hk Hback fuel.
  induction fuel as [fuel IH] using lt_wf_ind.
  destruct (Nat.le_gt_cases (S k) fuel) as [Hle|Hlt].
  - replace fuel with (S k + (fuel - S k)) by lia.
    erewrite after_iterations_while; [|exact Hk].
    assert (Hf : frame (object_tree w') (object_tree w))
      by (apply frame_sym; eapply after_iterations_frame; exact Hk).
    pose proof (while_loop_frame rot (fuel - S k) _ _ Hf Hback) as L.
    rewrite (IH (fuel - S k)) in L by lia.
    destruct (while_loop rot (fuel - S k) w'); [contradiction|reflexivity].
  - destruct (while_loop rot fuel w) as [r|] eqn:E; [|reflexivity].
    exfalso.
    assert (E' : while_loop rot (S k + 0) w = Some r)
      by (eapply while_loop_fuel; [exact E|lia]).
    erewrite after_iterations_while in E'; [|exact Hk]. simpl in E'.
    assert (Hn : parent_link_name w <> None).
    { simpl in Hk. destruct (parent_link_name w); [discriminate|discriminate]. }
    rewrite Hback in E'. destruct (parent_link_name w); [discriminate|].
    now apply Hn.
Qed.

Lemma comprehension_true {A} (c : A -> result bool) (l l' : list A) :
  comprehension c l = Ok l' -> forall x, In x l' -> c x = Ok true.
Proof.
  revert l'; induction l as [|y l IH]; intros l' H x Hx; simpl in H.
  - injection H as <-. contradiction.
  - destruct (c y) as [b|] eqn:Ey; [|discriminate]. simpl in H.
    destruct (comprehension c l) as [rest|]; [|discriminate]. simpl in H.
    injection H as <-. destruct b.
    + destruct Hx as [<-|Hx]; [assumption|]. now apply (IH rest).
    + now apply (IH rest).
Qed.

Lemma find_parent_link_found name t pl :
  find_parent_link name t = Ok pl ->
  In pl (findall "link" [] t) /\ attrib_str at_name pl t = Ok name.
Proof.
  unfold find_parent_link. intros H.
  destruct (comprehension _ (findall "link" [] t)) as [links|] eqn:E;
    [|discriminate]. simpl in H.
  destruct links as [|pl' links]; [discriminate|]. injection H as ->.
  split.
  - eapply comprehension_incl; [exact E|now left].
  - eapply comprehension_true in E; [|now left]. cbv beta in E.
    destruct (attrib_str at_name pl t) as [n|]; [|discriminate].
    simpl in E. injection E as E. apply String.eqb_eq in E. now subst.
Qed.

Lemma in_trail k w pl :
  In pl (trail rot k w) ->
  exists j w' name,
    j < k /\ after_iterations rot j w = Some w' /\
    parent_link_name w' = Some name /\
    find_parent_link name (object_tree w') = Ok pl.
Proof.
  revert w; induction k as [|k IH]; intros w H; simpl in H; [contradiction|].
  destruct (parent_link_name w) as [name|] eqn:En; [|contradiction].
  destruct (find_parent_link name (object_tree w)) as [pl0|] eqn:Ef;
    [|contradiction].
  destruct H as [->|H].
  - exists 0, w, name. repeat split; [lia|assumption..].
  - destruct (loop_body rot name w) as [w1|] eqn:Eb; [|contradiction].
    destruct (IH _ H) as (j & w' & name' & Hj & Ha & Hn & Hf).
    exists (S j), w', name'. repeat split; [lia| |assumption..].
    simpl. now rewrite En, Eb.
Qed.

(** As long as the loop goes on it is at a new link in every iteration,
    or else it never ends. *)
Lemma trail_NoDup k w :
  NoDup (trail rot k w) \/ forall fuel, while_loop rot fuel w = None.
Proof.
  revert w; induction k as [|k IH]; intros w; simpl; [left; constructor|].
  destruct (parent_link_name w) as [name|] eqn:En; [|left; constructor].
  destruct (find_parent_link name (object_tree w)) as [pl|] eqn:Ef;
    [|left; constructor].
  destruct (loop_body rot name w) as [w1|] eqn:Eb;
    [|left; constructor; [intros []|constructor]].
  destruct (IH w1) as [Hnd|Hdiv].
  - destruct (in_dec path_eq_dec pl (trail rot k w1)) as [Hin|Hout];
      [|left; now constructor].
    right. destruct (in_trail _ _ _ Hin) as (j & w' & name' & _ & Ha & Hn & Hf).
    apply (@cycle_diverges j w w').
    + simpl. now rewrite En, Eb.
    + rewrite Hn, En. f_equal.
      apply find_parent_link_found in Ef. destruct Ef as [_ Ef].
      apply find_parent_link_found in Hf. destruct Hf as [_ Hf].
      assert (Hfr : frame (object_tree w) (object_tree w')).
      { eapply frame_trans; [|eapply after_iterations_frame; exact Ha].
        apply loop_body_spec in Eb.
        destruct Eb as (? & ? & _ & _ & Hfr & _). exact Hfr. }
      rewrite (agree_name Hfr (@frame_attr F)) in Ef. congruence.
  - right. intros fuel. destruct fuel as [|fuel]; simpl; rewrite En;
      [reflexivity|]. rewrite Eb. apply Hdiv.
Qed.

Lemma trail_length k w :
  while_loop rot k w = None -> List.length (trail rot k w) = k.
Proof.
  revert w; induction k as [|k IH]; intros w H; simpl in *; [reflexivity|].
  destruct (parent_link_name w) as [name|] eqn:En; [|discriminate].
  destruct (loop_body rot name w) as [w1|] eqn:Eb; [|discriminate].
  pose proof Eb as Hs. apply loop_body_spec in Hs.
  destruct Hs as (pl & js & -> & _). simpl. f_equal. now apply IH.
Qed.

Lemma trail_incl k w :
  incl (trail rot k w) (findall "link" [] (object_tree w)).
Proof.
  revert w; induction k as [|k IH]; intros w; simpl; [intros x []|].
  destruct (parent_link_name w) as [name|] eqn:En; [|intros x []].
  destruct (find_parent_link name (object_tree w)) as [pl|] eqn:Ef;
    [|intros x []].
  apply find_parent_link_found in Ef. destruct Ef as [Hin _].
  intros x [<-|Hx]; [assumption|].
  destruct (loop_body rot name w) as [w1|] eqn:Eb; [|contradiction].
  apply loop_body_spec in Eb. destruct Eb as (? & ? & _ & _ & Hfr & _).
  rewrite (agree_findall Hfr "link"%string []). now apply (IH w1).
Qed.

(** X14. If the loop ends at all, with a result or with an exception, it
    ends within as many iterations as the root has [link] children, and
    one more: a run that is longer never ends. *)
Theorem loop_ends_within_the_number_of_links
  (fuel : nat) (w : Walk F) (r : result (Walk F)) :
  while_loop rot fuel w = Some r ->
  while_loop rot (S (List.length (findall "link" [] (object_tree w)))) w
  = Some r.
Proof.
  intros H.
  set (L := List.length (findall "link" [] (object_tree w))).
  destruct (while_loop rot (S L) w) as [r'|] eqn:E.
  - destruct (Nat.le_ge_cases fuel (S L)) as [Hle|Hge].
    + rewrite <- E. eapply while_loop_fuel; eassumption.
    + rewrite <- H. symmetry. eapply while_loop_fuel; eassumption.
  - exfalso. destruct (trail_NoDup (S L) w) as [Hnd|Hdiv].
    + pose proof (NoDup_incl_length Hnd (@trail_incl (S L) w)) as Hlen.
      rewrite (trail_length _ _ E) in Hlen. fold L in Hlen. lia.
    + rewrite Hdiv in H. discriminate.
Qed.

Lemma loop_body_elsewhere name w w' i r tg a n :
  loop_body rot name w = Ok w' ->
  tag_at (object_tree w) [i] = "link"%string ->
  find_parent_link name (object_tree w) <> Ok [i] ->
  node ([i] ++ r) (object_tree w) = Some (tg, a, n) -> tg <> "axis"%string ->
  node ([i] ++ r) (object_tree w') = Some (tg, a, n).
Proof.
  unfold loop_body. intros H Hi Hne Hn Htg.
  destruct (find_parent_link name (object_tree w)) as [pl|] eqn:Ef;
    [|discriminate]. simpl in H.
  destruct (scale_link (cur_scale w) pl (object_tree w)) as [u|] eqn:Eu;
    [|discriminate]. simpl in H.
  pose proof (scale_link_frame _ _ _ Eu) as Hu.
  destruct (joints_from pl u) as [js|] eqn:Ejs; [|discriminate]. simpl in H.
  assert (Hnu : node ([i] ++ r) u = Some (tg, a, n)).
  { erewrite scale_link_outside; [exact Hn|exact Eu|].
    apply find_parent_link_found in Ef. destruct Ef as [Hin _].
    apply in_findall_root in Hin. destruct Hin as (k & ->).
    intros (r' & Hr). simpl in Hr. injection Hr as -> _. now apply Hne. }
  destruct js as [|j js].
  - now injection H as <-.
  - eapply joints_keep; [exact H|exact Hnu|exact Htg|].
    intros j' Hj' (r' & Hr).
    assert (Hin : In j' (findall "joint" [] u))
      by (eapply in_joints_from; eassumption).
    pose proof Hin as Hroot. apply in_findall_root in Hroot.
    destruct Hroot as (k & ->). simpl in Hr. injection Hr as <- _.
    unfold findall in Hin. simpl in Hin.
    apply filter_In in Hin. destruct Hin as [_ Htag].
    unfold has_tag in Htag. unfold tag_at in Hi.
    specialize (Hu [i]). unfold node in Hu.
    destruct (get [i] (object_tree w)) as [e|], (get [i] u) as [e'|];
      try contradiction; try discriminate.
    destruct Hu as (Ht & _). apply String.eqb_eq in Htag. congruence.
Qed.

Lemma frame_tag_at t u p : frame t u -> tag_at u p = tag_at t p.
Proof.
  intros H. specialize (H p). unfold node in H. unfold tag_at.
  destruct (get p t), (get p u); try contradiction; [|reflexivity].
  destruct H as (H & _). now symmetry.
Qed.

Lemma while_loop_elsewhere fuel w w' i r tg a n :
  while_loop rot fuel w = Some (Ok w') ->
  tag_at (object_tree w) [i] = "link"%string ->
  ~ In [i] (trail rot fuel w) ->
  node ([i] ++ r) (object_tree w) = Some (tg, a, n) -> tg <> "axis"%string ->
  node ([i] ++ r) (object_tree w') = Some (tg, a, n).
Proof.
  revert w; induction fuel as [|fuel IH]; intros w H Hi Hout Hn Htg;
    simpl in H, Hout;
    destruct (parent_link_name w) as [name|] eqn:En;
    try discriminate; try (now injection H as <-).
  destruct (loop_body rot name w) as [w1|] eqn:Eb; [|discriminate].
  pose proof Eb as Hs. apply loop_body_spec in Hs.
  destruct Hs as (pl & js & Ef & _ & Hfr & _). rewrite Ef in Hout.
  apply (IH w1); [assumption| | | |assumption].
  - rewrite (frame_tag_at _ Hfr). exact Hi.
  - intros Hin. apply Hout. now right.
  - eapply loop_body_elsewhere; [exact Eb|exact Hi| |exact Hn|exact Htg].
    rewrite Ef. intros [= ->]. apply Hout. now left.
Qed.

(** A joint of the root does not lie in a link of the root. *)
Lemma joint_not_in_link t i j r :
  tag_at t [i] = "link"%string -> In j (findall "joint" [] t) ->
  ~ below j ([i] ++ r).
Proof.
  intros Hi Hin (r' & Hr).
  pose proof Hin as Hroot. apply in_findall_root in Hroot.
  destruct Hroot as (k & ->). simpl in Hr. injection Hr as <- _.
  unfold findall in Hin. simpl in Hin.
  apply filter_In in Hin. destruct Hin as [_ Htag].
  unfold has_tag in Htag. unfold tag_at in Hi.
  destruct (get [i] t) as [e|]; [|discriminate].
  apply String.eqb_eq in Htag. congruence.
Qed.

Lemma loop_body_here name w w' pl r tg a n :
  loop_body rot name w = Ok w' ->
  find_parent_link name (object_tree w) = Ok pl ->
  node (pl ++ r) (object_tree w) = Some (tg, a, n) -> tg <> "axis"%string ->
  node (pl ++ r) (object_tree w')
  = Some (tg, Nat.iter (S (List.length r)) (link_step tg (cur_scale w)) a, n).
Proof.
  unfold loop_body. intros H Ef Hn Htg. rewrite Ef in H. simpl in H.
  destruct (scale_link (cur_scale w) pl (object_tree w)) as [u|] eqn:Eu;
    [|discriminate]. simpl in H.
  pose proof (scale_link_frame _ _ _ Eu) as Hu.
  destruct (joints_from pl u) as [js|] eqn:Ejs; [|discriminate]. simpl in H.
  assert (Hnu : node (pl ++ r) u
                = Some (tg, Nat.iter (S (List.length r))
                              (link_step tg (cur_scale w)) a, n)).
  { erewrite scale_link_spec; [|exact Eu|exact Hn].
    rewrite visits_below; [reflexivity|].
    unfold node in Hn. destruct (get (pl ++ r) (object_tree w)); discriminate. }
  destruct js as [|j js].
  - now injection H as <-.
  - eapply joints_keep; [exact H|exact Hnu|exact Htg|].
    intros j' Hj'.
    apply find_parent_link_found in Ef. destruct Ef as [Hin _].
    pose proof Hin as Hroot. apply in_findall_root in Hroot.
    destruct Hroot as (i & ->). apply (@joint_not_in_link u).
    + rewrite (frame_tag_at _ Hu). unfold findall in Hin. simpl in Hin.
      apply filter_In in Hin. destruct Hin as [_ Htag].
      unfold has_tag in Htag. unfold tag_at.
      destruct (get [i] (object_tree w)); [|discriminate].
      now apply String.eqb_eq in Htag.
    + eapply in_joints_from; eassumption.
Qed.

Lemma while_loop_visit fuel w w' k wk pl r tg a n :
  while_loop rot fuel w = Some (Ok w') ->
  nth_error (trail rot fuel w) k = Some pl ->
  after_iterations rot k w = Some wk ->
  node (pl ++ r) (object_tree w) = Some (tg, a, n) -> tg <> "axis"%string ->
  node (pl ++ r) (object_tree w')
  = Some (tg, Nat.iter (S (List.length r)) (link_step tg (cur_scale wk)) a, n).
Proof.
  revert w k; induction fuel as [|fuel IH]; intros w k H Hk Hwk Hn Htg;
    simpl in H, Hk; [now destruct k|].
  destruct (parent_link_name w) as [name|] eqn:En; [|now destruct k].
  destruct (loop_body rot name w) as [w1|] eqn:Eb; [|discriminate].
  pose proof Eb as Hs. apply loop_body_spec in Hs.
  destruct Hs as (pl0 & js & Ef & _ & Hfr & _). rewrite Ef in Hk.
  assert (Hnd : NoDup (pl0 :: trail rot fuel w1)).
  { destruct (trail_NoDup (S fuel) w) as [Hnd|Hdiv].
    - simpl in Hnd. now rewrite En, Ef, Eb in Hnd.
    - specialize (Hdiv (S fuel)). simpl in Hdiv. rewrite En, Eb in Hdiv.
      congruence. }
  inversion Hnd as [|? ? Hout Hnd']; subst.
  assert (Hlink : forall i, pl = [i] -> In pl (findall "link" [] (object_tree w)) ->
                            tag_at (object_tree w) [i] = "link"%string).
  { intros i -> Hin. unfold findall in Hin. simpl in Hin.
    apply filter_In in Hin. destruct Hin as [_ Htag].
    unfold has_tag in Htag. unfold tag_at.
    destruct (get [i] (object_tree w)); [|discriminate].
    now apply String.eqb_eq in Htag. }
  destruct k as [|k]; simpl in Hk, Hwk.
  - injection Hk as ->. injection Hwk as <-.
    assert (H1 := @loop_body_here name w w1 pl r tg a n Eb Ef Hn Htg).
    pose proof Ef as Hfound. apply find_parent_link_found in Hfound.
    destruct Hfound as [Hin _].
    pose proof Hin as Hroot. apply in_findall_root in Hroot.
    destruct Hroot as (i & ->).
    eapply while_loop_elsewhere; [exact H| |exact Hout|exact H1|exact Htg].
    rewrite (frame_tag_at _ Hfr). now apply Hlink.
  - rewrite En, Eb in Hwk.
    assert (Hin : In pl (findall "link" [] (object_tree w))).
    { rewrite (agree_findall Hfr "link"%string []).
      apply (@trail_incl fuel w1). eapply nth_error_In; exact Hk. }
    pose proof Hin as Hroot. apply in_findall_root in Hroot.
    destruct Hroot as (i & ->).
    apply (IH w1 k); [exact H|exact Hk|exact Hwk| |exact Htg].
    eapply loop_body_elsewhere; [exact Eb| | |exact Hn|exact Htg].
    + now apply Hlink.
    + rewrite Ef. intros [= ->]. apply Hout. eapply nth_error_In; exact Hk.
Qed.

(** X21. In a rescaling that completes, every link the loop is at is
    rescaled once, in the iteration that is at it and with the scale then
    in force: a mesh or an origin [r] levels below the link element has had
    its step applied [r + 1] times with that scale, and nothing else was
    done to it. *)
Theorem visited_link_is_rescaled_at_its_visit
  (bounding_box original_bbox : vec F) (t t' : Element F) (fuel k : nat)
  (wk : Walk F) (parent_link r : path) (tg : string) (a : Attrib F)
  (n : nat) :
  rescale rot bounding_box original_bbox t fuel = Some (Ok t') ->
  nth_error
    (trail rot fuel
       (Build_Walk t (np_divide bounding_box original_bbox)
          (Some "base_link"%string))) k
  = Some parent_link ->
  after_iterations rot k
    (Build_Walk t (np_divide bounding_box original_bbox)
       (Some "base_link"%string))
  = Some wk ->
  node (parent_link ++ r) t = Some (tg, a, n) -> tg <> "axis"%string ->
  node (parent_link ++ r) t'
  = Some (tg,
          Nat.iter (S (List.length r)) (link_step tg (cur_scale wk)) a, n).
Proof.
  unfold rescale. intros H Hk Hwk Hn Htg.
  destruct (while_loop rot fuel _) as [[w'|]|] eqn:E; try discriminate.
  injection H as <-.
  eapply while_loop_visit; [exact E|exact Hk|exact Hwk|exact Hn|exact Htg].
Qed.

(** X15. A link that the loop is never at is not rescaled: its meshes
    and origins are in the result as they were in the document.  So are
    the links that only a second or later joint of their parent leads to,
    since the loop goes on from the child of the first joint alone. *)
Theorem unvisited_links_are_untouched
  (bounding_box original_bbox : vec F) (t t' : Element F) (fuel i : nat)
  (r : path) (tg : string) (a : Attrib F) (n : nat) :
  rescale rot bounding_box original_bbox t fuel = Some (Ok t') ->
  tag_at t [i] = "link"%string ->
  ~ In [i]
      (trail rot fuel
         (Build_Walk t (np_divide bounding_box original_bbox)
            (Some "base_link"%string))) ->
  node ([i] ++ r) t = Some (tg, a, n) -> tg <> "axis"%string ->
  node ([i] ++ r) t' = Some (tg, a, n).
Proof.
  unfold rescale. intros H Hi Hout Hn Htg.
  destruct (while_loop rot fuel _) as [[w'|]|] eqn:E; try discriminate.
  injection H as <-.
  eapply while_loop_elsewhere; [exact E|exact Hi|exact Hout|exact Hn|exact Htg].
Qed.
End RunFacts.

(** ** Rescaling to the size the model has *)

Section OwnSize.
Local Open Scope R_scope.
Implicit Types (v s : vec R) (a : Attrib R).
Variable rot : vec R -> R -> R -> R -> bool -> vec R.

Local Abbreviation one := (Vec 1 1 1).

Lemma multiply_one v : np_multiply v one = v.
Proof. destruct v as [x y z]. unfold np_multiply. cbn. f_equal; ring. Qed.

Lemma divide_self b : nonzero b -> np_divide b b = one.
Proof.
  intros (Hx & Hy & Hz). destruct b as [x y z]. unfold np_divide. cbn in *.
  f_equal; field; assumption.
Qed.

Lemma normalized_unit v : np_linalg_norm v = 1 -> normalized v = v.
Proof.
  intros Hv. unfold normalized. rewrite Hv. destruct v as [x y z].
  unfold div_scalar. cbn. f_equal; field.
Qed.

Lemma xyz_scaled_one a : xyz_scaled one a = a.
Proof.
  unfold xyz_scaled. destruct a as [nm lk fn sc [v|] rp]; cbn; [|reflexivity].
  unfold set_xyz. cbn. now rewrite multiply_one.
Qed.

Lemma axis_scaled_one a :
  (forall v, at_xyz a = Some v -> np_linalg_norm v = 1) ->
  axis_scaled one a = a.
Proof.
  intros Hu. unfold axis_scaled.
  destruct a as [nm lk fn sc [v|] rp]; cbn in *; [|reflexivity].
  unfold set_xyz. cbn. rewrite multiply_one, normalized_unit; [reflexivity|].
  now apply Hu.
Qed.

Lemma iter_fixed {A} (f : A -> A) k x : f x = x -> Nat.iter k f x = x.
Proof.
  intros H. induction k as [|k IH]; [reflexivity|].
  rewrite Nat.iter_succ, IH. exact H.
Qed.

Lemma step_of_one tg k a :
  (tg = "axis"%string -> forall v, at_xyz a = Some v -> np_linalg_norm v = 1) ->
  same_attrib a (Nat.iter k (step_of tg one) a).
Proof.
  intros Hu. unfold step_of.
  destruct (String.eqb tg "mesh") eqn:Em;
    [|destruct (String.eqb tg "origin") eqn:Eo;
      [|destruct (String.eqb tg "axis") eqn:Ea]].
  - destruct (mesh_scaled_iter one a k) as (Hf & Hx & Hs).
    split; [exact Hf|]. split; [exact Hx|]. rewrite Hs.
    apply iter_fixed, multiply_one.
  - rewrite iter_fixed by apply xyz_scaled_one. apply same_attrib_refl.
  - apply String.eqb_eq in Ea.
    rewrite iter_fixed by (apply axis_scaled_one; auto).
    apply same_attrib_refl.
  - rewrite iter_fixed by reflexivity. apply same_attrib_refl.
Qed.

(** X16. Asking for the bounding box the model already has changes
    nothing of a document none of whose joints is rotated and whose axes
    are unit vectors: every mesh scale (an absent one counting as
    (1, 1, 1)), origin and axis is in the result as it was (in exact
    arithmetic). *)
Theorem rescale_to_own_size_changes_nothing
  (bounding_box : vec R) (t t1 : Element R) (fuel : nat) :
  nonzero bounding_box -> no_joint_rotation t -> unit_axes t ->
  rescale rot bounding_box bounding_box t fuel = Some (Ok t1) ->
  same_values t t1.
Proof.
  intros Hb Hrot Hunit H.
  destruct (rescale_ok _ _ _ _ _ H) as (w1 & H1 & <-).
  rewrite (divide_self Hb) in H1.
  assert (Hfr : frame t t) by apply frame_refl.
  destruct (while_loop_alike rot fuel one one (Some "base_link"%string)
              Hrot Hfr H1) as (w2 & H2 & Hal).
  assert (Hfr1 : frame t (object_tree w1)).
  { apply while_loop_reaches in H1. destruct H1 as [H1 _].
    apply reaches_frame in H1. exact H1. }
  intros p. specialize (Hal p). specialize (Hfr1 p).
  destruct (node p t) as [[[tg0 a0] n0]|] eqn:E0,
           (node p (object_tree w1)) as [[[tg1 a1] n1]|] eqn:E1;
    try contradiction; [|exact I].
  destruct (node p (object_tree w2)) as [[[tg2 a2] n2]|]; [|contradiction].
  destruct Hfr1 as (<- & <- & _).
  destruct Hal as (_ & _ & Htag & _ & _ & k & Ha1 & _).
  destruct (node_tag_at _ _ E0) as [Et Ea0].
  rewrite Ea0, Et in Ha1. subst a1.
  split; [reflexivity|]. split; [reflexivity|].
  apply step_of_one.
  intros -> v Hv. eapply Hunit; [exact E0|reflexivity|exact Hv].
Qed.
End OwnSize.

(** ** Where a box is after [load] *)

Section BoxFacts.
Import PrimFloat.
Local Open Scope float_scope.
Variable B : Bullet.
Local Abbreviation PE := (Bullet_engine B).

(** X17. A box that [load] has just created is where its constructor
    said: on an engine that returns the pose it has stored,
    [get_position] gives [basePos] and [get_orientation] gives
    [0, 0, 0, 1], for a visual-only box as for a solid one. *)
Theorem loaded_box_is_at_its_base_position
  (self self' : Object (PE := PE) BoxShape) (w w' : bullet_World)
  (h : option bullet_BodyId) :
  pose_is_stored (PE := PE) ->
  loaded self = false ->
  load (PE := PE) (BoxShape__load B) self w = (self', Ok (h, w')) ->
  loaded self' = true /\
  pose_after (PE := PE) self' w' (basePos (fields self)) (0, 0, 0, 1).
Proof.
  intros Hlaw Hl H. unfold load in H. rewrite Hl in H.
  destruct (BoxShape__load B (fields self) w) as [[[b d] x]|] eqn:E;
    [|discriminate].
  injection H as <- _ <-. split; [reflexivity|].
  unfold BoxShape__load in E.
  destruct (createCollisionShape _ w) as [[c w1]|]; [|discriminate].
  simpl in E.
  destruct (createVisualShape _ w1) as [[v w2]|]; [|discriminate].
  simpl in E.
  match type of E with
  | bind ?m _ = _ => destruct m as [[b' w3]|]; [|discriminate]
  end.
  simpl in E.
  destruct (bullet_reset (Some b') (basePos (fields self)) (0, 0, 0, 1) w3)
    as [w4|] eqn:Er; [|discriminate].
  simpl in E. injection E as <- _ <-.
  pose proof (Hlaw _ _ _ _ _ Er) as Hg.
  unfold pose_after, get_position, get_orientation. cbn in Hg |- *.
  now rewrite Hg.
Qed.
End BoxFacts.

(** On the small engine of the examples the method is the one used
    there. *)
Lemma BoxShape_load_on_sim (self : BoxShape) (w : sim) :
  BoxShape__load sim_bullet self w = BoxShape_load self w.
Proof.
  unfold BoxShape__load, BoxShape_load. simpl.
  destruct (visual_only self); reflexivity.
Qed.

(** ** Documents that lack what an iteration reads *)

Section FailureFacts.
Context {F : Type} {SF : Scalar F}.
Variable rot : vec F -> F -> F -> F -> bool -> vec F.
Implicit Types (t u : Element F) (w : Walk F) (p q r : path).

(** In a loop that returns, every pass of the body has returned, from a
    state the loop had brought about. *)
Lemma for_each_passes {A S} (R : S -> S -> Prop) (l : list A)
  (body : A -> S -> result S) :
  (forall s, R s s) -> (forall s1 s2 s3, R s1 s2 -> R s2 s3 -> R s1 s3) ->
  (forall x s s', In x l -> body x s = Ok s' -> R s s') ->
  forall s s' x,
    for_each l body s = Ok s' -> In x l ->
    exists s1 s2, R s s1 /\ body x s1 = Ok s2.
Proof.
  intros Hrefl Htrans. induction l as [|y l IHl]; intros Hb s s' x H Hx;
    [contradiction|]. simpl in H.
  destruct (body y s) as [s1|] eqn:E; [|discriminate]. simpl in H.
  destruct Hx as [->|Hx].
  - exists s, s1. split; [apply Hrefl|exact E].
  - destruct (IHl (fun z st st' Hz => Hb z st st' (or_intror Hz)) s1 s' x H Hx)
      as (s2 & s3 & Hu & Hbody).
    exists s2, s3. split; [|exact Hbody].
    apply Htrans with s1; [|exact Hu]. apply (Hb y); [now left|exact E].
Qed.

Lemma scale_link_raises_key_error s pl t e :
  scale_link s pl t = Raise e -> e = KeyError.
Proof.
  unfold scale_link. apply (for_each_raises (fun e => e = KeyError)).
  intros x u e0 H.
  destruct (for_each (iter_tag "mesh" x u) (mutate (scale_mesh s)) u)
    as [v|e1] eqn:E; simpl in H.
  - revert H. apply (for_each_raises (fun e => e = KeyError)).
    intros p v' e2. apply (mutate_raises (fun e => e = KeyError)).
    intros a e3. unfold scale_origin. destruct (at_xyz a); [discriminate|].
    now intros [= <-].
  - injection H as <-. revert E.
    apply (for_each_raises (fun e => e = KeyError)).
    intros p v' e2. apply (mutate_raises (fun e => e = KeyError)).
    intros a e3. rewrite scale_mesh_total. discriminate.
Qed.

(** The loops over a link return only if every origin of the link has an
    [xyz]. *)
Lemma scale_link_needs_xyz s pl t t' r a n :
  scale_link s pl t = Ok t' ->
  node (pl ++ r) t = Some ("origin"%string, a, n) -> at_xyz a <> None.
Proof.
  unfold scale_link. intros H Hn.
  assert (Hpl : In pl (iter_all pl t)).
  { unfold iter_all. unfold node in Hn. rewrite get_app in Hn.
    destruct (get pl t) as [e|]; [|discriminate].
    apply in_map_iff. exists []. split; [apply app_nil_r|].
    apply in_iter. discriminate. }
  match type of H with
  | for_each ?l ?body _ = _ =>
      assert (Hstep : forall x u u', In x l -> body x u = Ok u' -> frame u u')
  end.
  { intros x u u' _ Hb. cbv beta in Hb.
    destruct (for_each (iter_tag "mesh" x u) (mutate (scale_mesh s)) u)
      as [v|] eqn:E; [|discriminate]. simpl in Hb.
    apply frame_trans with v.
    - eapply rescale_tag_frame; [|exact E]. apply scale_mesh_frame.
    - eapply rescale_tag_frame; [|exact Hb]. apply scale_origin_frame. }
  destruct (@for_each_passes _ _ (@frame F) _ _ (@frame_refl F)
              (@frame_trans F) Hstep t t' pl H Hpl)
    as (u1 & u2 & Hu1 & Hbody).
  cbv beta in Hbody.
  destruct (for_each (iter_tag "mesh" pl u1) (mutate (scale_mesh s)) u1)
    as [v|] eqn:E; [|discriminate]. simpl in Hbody.
  assert (Hv : frame t v).
  { apply frame_trans with u1; [exact Hu1|].
    eapply rescale_tag_frame; [|exact E]. apply scale_mesh_frame. }
  specialize (Hv (pl ++ r)). rewrite Hn in Hv.
  destruct (node (pl ++ r) v) as [[[tg a'] n']|] eqn:En; [|contradiction].
  destruct Hv as (<- & <- & Hf).
  assert (Hin : In (pl ++ r) (iter_tag "origin" pl v)).
  { apply in_iter_tag. split; [|now exists r].
    now rewrite (node_has_tag _ _ _ En). }
  destruct (rescale_tag_in _ _ _ _ (pl ++ r) Hbody Hin En) as (b & Hb & _).
  unfold scale_origin in Hb. destruct Hf as (_ & _ & _ & _ & Hx).
  destruct (at_xyz a'); [|discriminate]. intros Ha. apply Hx in Ha.
  discriminate.
Qed.

(** X18. An origin without an [xyz] in the link the loop is at makes the
    iteration raise [KeyError]. *)
Theorem origin_without_xyz_raises_key_error
  (name : string) (w : Walk F) (parent_link r : path) (a : Attrib F)
  (n fuel : nat) :
  parent_link_name w = Some name ->
  find_parent_link name (object_tree w) = Ok parent_link ->
  node (parent_link ++ r) (object_tree w) = Some ("origin"%string, a, n) ->
  at_xyz a = None ->
  while_loop rot (S fuel) w = Some (Raise KeyError).
Proof.
  intros Hn Hpl Hnode Ha. simpl. rewrite Hn. unfold loop_body. rewrite Hpl.
  simpl.
  destruct (scale_link (cur_scale w) parent_link (object_tree w))
    as [u|e] eqn:E; simpl.
  - exfalso. eapply scale_link_needs_xyz; eassumption.
  - apply scale_link_raises_key_error in E. now subst e.
Qed.

(** X19. A joint without a [parent] element makes the iteration raise
    [AttributeError] when it gets to the joints: that is, when the link
    was found and its origins have their [xyz], and every [parent] element
    there is in a joint names a link. *)
Theorem joint_without_parent_raises_attribute_error
  (name : string) (w : Walk F) (parent_link joint : path) (fuel : nat) :
  parent_link_name w = Some name ->
  find_parent_link name (object_tree w) = Ok parent_link ->
  (forall r tg a n,
      node (parent_link ++ r) (object_tree w) = Some (tg, a, n) ->
      tg = "origin"%string -> at_xyz a <> None) ->
  In joint (findall "joint" [] (object_tree w)) ->
  find "parent" joint (object_tree w) = None ->
  (forall joint' parent,
      In joint' (findall "joint" [] (object_tree w)) ->
      find "parent" joint' (object_tree w) = Some parent ->
      at_link (attrib_at (object_tree w) parent) <> None) ->
  while_loop rot (S fuel) w = Some (Raise AttributeError).
Proof.
  intros Hn Hpl Hxyz Hj Hnone Hlinks. simpl. rewrite Hn. unfold loop_body.
  rewrite Hpl. simpl.
  destruct (scale_link_ok (cur_scale w) _ _ Hxyz) as (u & Hu).
  rewrite Hu. simpl.
  rewrite <- (agree_joints_from (scale_link_frame _ _ _ Hu) (@frame_attr F)).
  assert (E : joints_from parent_link (object_tree w) = Raise AttributeError).
  { unfold joints_from.
    apply (@comprehension_raise _ _ _ joint AttributeError); [exact Hj| |].
    - now rewrite Hnone.
    - intros y e' Hy. destruct (find "parent" y (object_tree w)) as [par|] eqn:Ep;
        [|now intros [= <-]].
      specialize (Hlinks y par Hy Ep).
      apply find_parent_link_found in Hpl. destruct Hpl as [_ Hname].
      rewrite Hname. unfold attrib_str. unfold attrib_at in Hlinks.
      destruct (get par (object_tree w)) as [e|]; [|contradiction].
      destruct (at_link (attrib e)); [discriminate|contradiction]. }
  now rewrite E.
Qed.
End FailureFacts.

(** ** Documents on which the constructor does not raise *)

Section WellFormedFacts.
Context {F : Type} {SF : Scalar F}.
Implicit Types (t u : Element F) (p q r : path).

Lemma frame_attrib_at t u p :
  frame t u -> attr_frame (attrib_at t p) (attrib_at u p).
Proof.
  intros H. specialize (H p). unfold node in H. unfold attrib_at.
  destruct (get p t), (get p u); try contradiction.
  - apply H.
  - apply attr_frame_refl.
Qed.

Lemma has_link_frame name t u : frame t u -> has_link name t -> has_link name u.
Proof.
  intros H (link & Hin & Hn). exists link. split.
  - now rewrite <- (agree_findall H "link"%string []).
  - destruct (frame_attrib_at link H) as (Hname & _). congruence.
Qed.

Lemma well_formed_frame t u : frame t u -> well_formed t -> well_formed u.
Proof.
  intros H (Hl & Hx & Hj). split; [|split].
  - intros link Hin. rewrite <- (agree_findall H "link"%string []) in Hin.
    destruct (frame_attrib_at link H) as (Hname & _). rewrite <- Hname.
    now apply Hl.
  - intros p tg a n Hn Htg. specialize (H p). rewrite Hn in H.
    destruct (node p t) as [[[tg0 a0] n0]|] eqn:E; [|contradiction].
    destruct H as (-> & _ & Hf). destruct Hf as (_ & _ & _ & _ & Hi).
    intros Ha. apply Hi in Ha. revert Ha. eapply Hx; eassumption.
  - intros joint Hin. rewrite <- (agree_findall H "joint"%string []) in Hin.
    destruct (Hj joint Hin) as (par & child & name & Hp & Hpl & Hc & Hcl & Hhas).
    exists par, child, name.
    rewrite <- (agree_find H "parent"%string joint).
    rewrite <- (agree_find H "child"%string joint).
    destruct (frame_attrib_at par H) as (_ & Hlink & _).
    destruct (frame_attrib_at child H) as (_ & Hlink' & _).
    repeat split; try assumption; try congruence.
    now apply (has_link_frame H).
Qed.

Lemma comprehension_ok {A} (c : A -> result bool) (l : list A) :
  (forall x, In x l -> exists b, c x = Ok b) ->
  exists l', comprehension c l = Ok l' /\
             forall x, In x l -> c x = Ok true -> In x l'.
Proof.
  induction l as [|y l IH]; intros H; simpl.
  - exists []. split; [reflexivity|]. intros x [].
  - destruct (H y) as (b & Hb); [now left|]. rewrite Hb. simpl.
    destruct IH as (l' & -> & Hl'); [intros x Hx; apply H; now right|].
    simpl. eexists. split; [reflexivity|].
    intros x [->|Hx] Hc.
    + rewrite Hb in Hc. injection Hc as ->. now left.
    + destruct b; [right|]; now apply Hl'.
Qed.

Lemma attrib_str_ok (key : Attrib F -> option string) p t s :
  key no_attrib = None -> key (attrib_at t p) = Some s ->
  attrib_str key p t = Ok s.
Proof.
  unfold attrib_str, attrib_at. intros H0 H.
  destruct (get p t); [now rewrite H|congruence].
Qed.

Lemma find_parent_link_ok name t :
  well_formed t -> has_link name t ->
  exists pl, find_parent_link name t = Ok pl.
Proof.
  intros (Hl & _) (link & Hin & Hn). unfold find_parent_link.
  destruct (@comprehension_ok _
              (fun link => n <- attrib_str at_name link t ;;
                           Ok (String.eqb n name))
              (findall "link" [] t)) as (links & -> & Hlinks).
  - intros x Hx. specialize (Hl x Hx).
    destruct (at_name (attrib_at t x)) as [n|] eqn:E; [|contradiction].
    rewrite (attrib_str_ok at_name x t eq_refl E). simpl. now eexists.
  - simpl. specialize (Hlinks link Hin).
    rewrite (attrib_str_ok at_name link t eq_refl Hn) in Hlinks. simpl in Hlinks.
    rewrite String.eqb_refl in Hlinks. specialize (Hlinks eq_refl).
    destruct links; [contradiction|now eexists].
Qed.

Lemma joints_from_ok pl t :
  well_formed t -> at_name (attrib_at t pl) <> None ->
  exists js, joints_from pl t = Ok js.
Proof.
  intros (_ & _ & Hj) Hpl. unfold joints_from.
  destruct (@comprehension_ok _
              (fun joint =>
                 match find "parent" joint t with
                 | Some parent =>
                     l <- attrib_str at_link parent t ;;
                     n <- attrib_str at_name pl t ;;
                     Ok (String.eqb l n)
                 | None => Raise AttributeError
                 end)
              (findall "joint" [] t)) as (js & -> & _); [|now eexists].
  intros j Hin.
  destruct (Hj j Hin) as (par & _ & _ & -> & Hlink & _).
  destruct (at_link (attrib_at t par)) as [l|] eqn:El; [|contradiction].
  destruct (at_name (attrib_at t pl)) as [n|] eqn:En; [|contradiction].
  rewrite (attrib_str_ok at_link par t eq_refl El). simpl.
  rewrite (attrib_str_ok at_name pl t eq_refl En). simpl. now eexists.
Qed.

Lemma rescale_xyz_ok tg f q t :
  tg = "origin"%string \/ tg = "axis"%string ->
  (forall a b, f a = Ok b -> attr_frame a b) ->
  (forall a, at_xyz a <> None -> exists b, f a = Ok b) ->
  well_formed t ->
  exists t', for_each (iter_tag tg q t) (mutate f) t = Ok t' /\ frame t t'.
Proof.
  intros Htg Hf Hok (_ & Hx & _). apply rescale_tag_ok; [exact Hf|].
  intros p a Hin Ha. apply Hok. apply in_iter_tag in Hin.
  destruct Hin as [Htag _]. unfold has_tag in Htag. unfold attrib_at in Ha.
  destruct (get p t) as [e|] eqn:E; [|discriminate].
  apply String.eqb_eq in Htag.
  assert (Hxe : at_xyz (attrib e) <> None).
  { apply (Hx p tg (attrib e) (List.length (children e))).
    - unfold node. rewrite E. now rewrite Htag.
    - exact Htg. }
  destruct Ha as (_ & _ & _ & _ & Hi). tauto.
Qed.

Lemma scale_origin_some s (a : Attrib F) :
  at_xyz a <> None -> exists b, scale_origin s a = Ok b.
Proof.
  unfold scale_origin. destruct (at_xyz a); [now eexists|contradiction].
Qed.

Lemma scale_axis_some s (a : Attrib F) :
  at_xyz a <> None -> exists b, scale_axis s a = Ok b.
Proof.
  unfold scale_axis. destruct (at_xyz a); [now eexists|contradiction].
Qed.

Variable rot : vec F -> F -> F -> F -> bool -> vec F.
Implicit Types (w : Walk F).

Lemma process_joint_ok js j w :
  well_formed (object_tree w) ->
  js <> [] -> incl js (findall "joint" [] (object_tree w)) ->
  exists w',
    process_joint rot js j w = Ok w' /\
    frame (object_tree w) (object_tree w') /\
    exists name,
      parent_link_name w' = Some name /\ has_link name (object_tree w').
Proof.
  intros Hwf Hjs Hincl. unfold process_joint.
  destruct (@rescale_xyz_ok "origin" (scale_origin (cur_scale w)) j
              (object_tree w)) as (u & -> & Hu);
    [now left|apply scale_origin_frame|apply scale_origin_some|exact Hwf|].
  simpl. pose proof (well_formed_frame Hu Hwf) as Hwfu.
  match goal with
  | |- context [mutate (scale_axis ?s)] =>
      destruct (@rescale_xyz_ok "axis" (scale_axis s) [] u) as (v & -> & Hv);
        [now right|apply scale_axis_frame|apply scale_axis_some|exact Hwfu|]
  end.
  simpl. pose proof (well_formed_frame Hv Hwfu) as Hwfv.
  assert (Hfr : frame (object_tree w) v) by (eapply frame_trans; eassumption).
  destruct js as [|j0 js]; [contradiction|].
  assert (Hj0 : In j0 (findall "joint" [] v)).
  { rewrite <- (agree_findall Hfr "joint"%string []). apply Hincl. now left. }
  destruct Hwfv as (_ & _ & Hj).
  destruct (Hj j0 Hj0) as (par & child & name & _ & _ & Hc & Hcl & Hhas).
  unfold first_child. rewrite Hc.
  rewrite (attrib_str_ok at_link child v eq_refl Hcl). simpl.
  eexists. split; [reflexivity|]. cbn [object_tree parent_link_name].
  split; [exact Hfr|]. exists name. split; [reflexivity|exact Hhas].
Qed.

Lemma loop_body_ok name w :
  well_formed (object_tree w) -> has_link name (object_tree w) ->
  exists w',
    loop_body rot name w = Ok w' /\
    well_formed (object_tree w') /\
    forall name', parent_link_name w' = Some name' ->
                  has_link name' (object_tree w').
Proof.
  intros Hwf Hhas. unfold loop_body.
  destruct (find_parent_link_ok Hwf Hhas) as (pl & Hpl). rewrite Hpl. simpl.
  destruct (scale_link_ok (cur_scale w) pl (object_tree w)) as (u & Hu).
  { intros r tg a n Hn Htg. destruct Hwf as (_ & Hx & _).
    eapply Hx; [exact Hn|now left]. }
  rewrite Hu. simpl. pose proof (scale_link_frame _ _ _ Hu) as Hfu.
  pose proof (well_formed_frame Hfu Hwf) as Hwfu.
  destruct (@joints_from_ok pl u Hwfu) as (js & Hjs).
  { apply find_parent_link_found in Hpl. destruct Hpl as [Hin _].
    destruct Hwfu as (Hl & _). apply Hl.
    now rewrite <- (agree_findall Hfu "link"%string []). }
  rewrite Hjs. simpl. destruct js as [|j js].
  - eexists. split; [reflexivity|]. cbn [object_tree parent_link_name].
    split; [exact Hwfu|discriminate].
  - set (l := j :: js) in *.
    assert (Hl : l <> []) by discriminate.
    assert (Hincl : incl l (findall "joint" [] u))
      by (intros x Hx; eapply in_joints_from; eassumption).
    destruct (for_each_ok
                (fun x : Walk F =>
                   frame u (object_tree x) /\
                   forall name', parent_link_name x = Some name' ->
                                 has_link name' (object_tree x))
                l (process_joint rot l))
      with (s := Build_Walk u (cur_scale w) (Some name))
      as (w' & Hw' & Hfw & Hnm).
    + intros x st _ (Hfs & _).
      pose proof (well_formed_frame Hfs Hwfu) as Hwfs.
      destruct (@process_joint_ok l x st Hwfs Hl) as (st' & Hst & Hf' & nm & Hn1 & Hn2).
      { intros y Hy. rewrite <- (agree_findall Hfs "joint"%string []).
        now apply Hincl. }
      exists st'. split; [exact Hst|]. split.
      * eapply frame_trans; eassumption.
      * intros name' Hname'. rewrite Hn1 in Hname'. now injection Hname' as <-.
    + cbn [object_tree parent_link_name]. split; [apply frame_refl|].
      intros name' [= <-]. now apply (has_link_frame Hfu).
    + exists w'. split; [exact Hw'|]. split; [|exact Hnm].
      now apply (well_formed_frame Hfw).
Qed.

(** X20. On a well-formed document with a link called [base_link] every
    lookup of the rescaling succeeds: whatever the bounding boxes and the
    fuel, the run raises no [IndexError], no [KeyError] and no
    [AttributeError]. *)
Theorem well_formed_document_passes_every_lookup
  (bounding_box original_bbox : vec F) (t : Element F) (fuel : nat) :
  well_formed t -> has_link "base_link" t ->
  lookups_succeed (rescale rot bounding_box original_bbox t fuel).
Proof.
  intros Hwf Hbase. unfold rescale.
  assert (G : forall w,
             well_formed (object_tree w) ->
             (forall name, parent_link_name w = Some name ->
                           has_link name (object_tree w)) ->
             while_loop rot fuel w = None \/
             exists w', while_loop rot fuel w = Some (Ok w')).
  { induction fuel as [|fuel IH]; intros w Hw Hn; simpl;
      destruct (parent_link_name w) as [name|] eqn:En;
      try (now left); try (right; now eexists).
    destruct (@loop_body_ok name w Hw (Hn name eq_refl))
      as (w1 & -> & Hw1 & Hn1).
    now apply IH. }
  destruct (G (Build_Walk t (np_divide bounding_box original_bbox)
                 (Some "base_link"%string))) as [->|(w' & ->)].
  - exact Hwf.
  - cbn. now intros name [= <-].
  - exact I.
  - exact I.
Qed.
End WellFormedFacts.

(** ** The further properties on the example documents *)

Section MoreExamples.
Import PrimFloat.
Local Open Scope float_scope.

Lemma rescale_changes_scaled_values_only_witness :
  same_but_rescaled plain_doc (rescaled plain_doc small_target unit_bbox 2).
Proof.
  apply (@rescale_changes_scaled_values_only R exact rotate_vector_3d
           small_target unit_bbox plain_doc
           (rescaled plain_doc small_target unit_bbox 2) 2).
  exact plain_doc_rescales.
Defined.

Lemma missing_link_witness :
  rescale no_rotation (Vec 2 1 0.5) (Vec 1 1 1) no_base_doc 1
  = Some (Raise IndexError).
Proof.
  refine (proj2 (@missing_link_raises_index_error float binary64 no_rotation
                   "base_link" (start_at no_base_doc (Vec 2 1 0.5)) 0
                   eq_refl _) eq_refl (Vec 2 1 0.5) (Vec 1 1 1)).
  intros link Hin. vm_compute in Hin. destruct Hin as [<-|[]].
  exists "body"%string. split; [reflexivity|discriminate].
Defined.

Lemma nameless_link_witness :
  rescale no_rotation (Vec 2 1 0.5) (Vec 1 1 1) nameless_link_doc 1
  = Some (Raise KeyError).
Proof.
  apply (@nameless_link_raises_key_error float binary64 no_rotation
           (Vec 2 1 0.5) (Vec 1 1 1) nameless_link_doc [1%nat] 0).
  - vm_compute. right. left. reflexivity.
  - reflexivity.
Defined.

Lemma kinematic_cycle_witness :
  while_loop no_rotation 1000 (start_at loop_doc (Vec 2 1 0.5)) = None.
Proof.
  refine (@kinematic_cycle_never_terminates float binary64 no_rotation
            (start_at loop_doc (Vec 2 1 0.5))
            (start_at loop_doc (Vec 2 1 0.5)) _ "base_link"
            (reaches_here _ _) eq_refl _ _ 1000).
  - vm_compute. reflexivity.
  - reflexivity.
Defined.

Lemma one_iteration_witness :
  exists parent_link joint_news,
    find_parent_link "base_link" plain_doc = Ok parent_link /\
    joints_from parent_link plain_doc = Ok joint_news /\
    forall p tg a n,
      node p plain_doc = Some (tg, a, n) ->
      ~ below parent_link p ->
      (forall joint, In joint joint_news -> ~ below joint p) ->
      tg <> "axis"%string \/ joint_news = [] ->
      node p (object_tree (after_base_link plain_doc small_target unit_bbox))
      = Some (tg, a, n).
Proof.
  apply (@one_iteration_is_local R exact rotate_vector_3d "base_link"
           (start_walk plain_doc small_target unit_bbox)
           (after_base_link plain_doc small_target unit_bbox)).
  exact plain_doc_first_step.
Defined.

Lemma link_elements_witness :
  node ([0%nat] ++ visual_mesh_below) visual_doc_scaled
  = Some ("mesh"%string,
          Nat.iter (S (List.length visual_mesh_below))
            (link_step "mesh" (Vec 2 1 0.5))
            (attrib_at visual_doc ([0%nat] ++ visual_mesh_below)),
          0%nat).
Proof.
  apply (@link_elements_are_rescaled_once_per_level float binary64
           (Vec 2 1 0.5) [0%nat] visual_doc visual_doc_scaled
           visual_mesh_below).
  - vm_compute. reflexivity.
  - reflexivity.
Defined.

Ltac each_node Hn :=
  match type of Hn with
  | node ?p ?t = Some _ =>
      let Hin := fresh "Hin" in
      assert (Hin : In p (iter t))
        by (apply in_iter; unfold node in Hn; destruct (get p t); congruence);
      vm_compute in Hin;
      repeat (destruct Hin as [Hin|Hin];
              [first [discriminate Hin
                     |first [injection Hin as <-|subst p];
                      vm_compute in Hn; injection Hn as <- <- <-]|]);
      try contradiction
  end.

Lemma visual_doc_origins r tg a n :
  node ([0%nat] ++ r) visual_doc = Some (tg, a, n) -> tg = "origin"%string ->
  at_xyz a <> None.
Proof.
  intros Hn Htg. each_node Hn; first [discriminate Htg|simpl; discriminate].
Qed.

Lemma single_link_object_witness :
  exists t',
    rescale no_rotation (Vec 2 1 0.5) (Vec 1 1 1) visual_doc 1 = Some (Ok t') /\
    (forall r tg a n,
        node ([0%nat] ++ r) visual_doc = Some (tg, a, n) ->
        node ([0%nat] ++ r) t'
        = Some (tg,
                Nat.iter (S (List.length r))
                  (link_step tg (np_divide (Vec 2 1 0.5) (Vec 1 1 1))) a,
                n)) /\
    (forall q, ~ below [0%nat] q -> node q t' = node q visual_doc).
Proof.
  apply (@single_link_object_is_rescaled float binary64 no_rotation
           (Vec 2 1 0.5) (Vec 1 1 1) visual_doc [0%nat] 0).
  - reflexivity.
  - reflexivity.
  - exact visual_doc_origins.
Defined.

Lemma visual_doc_has_files : meshes_have_files visual_doc.
Proof.
  intros p tg a n Hn Htg.
  each_node Hn; first [discriminate Htg|simpl; discriminate].
Qed.

Lemma mesh_filenames_witness :
  exists t',
    resolve_mesh_paths "/model" visual_doc = Ok t' /\
    forall p tg a n,
      node p visual_doc = Some (tg, a, n) ->
      node p t' = Some (tg, prefixed "/model" tg a, n).
Proof.
  apply (@mesh_filenames_are_resolved float "/model" visual_doc).
  exact visual_doc_has_files.
Defined.

Lemma mesh_without_filename_witness :
  InteractiveObj2_init no_rotation "/model" bare_mesh_doc
    (Some (Vec 2 1 0.5)) unit_box 1
  = Some (Raise KeyError).
Proof.
  apply (@mesh_without_filename_raises_key_error float binary64 no_rotation
           "/model" bare_mesh_doc (Some (Vec 2 1 0.5)) unit_box 1
           [0; 0]%nat no_attrib 0%nat).
  - reflexivity.
  - reflexivity.
Defined.

Lemma written_attribute_witness :
  parse float_nat (format str_nat [2; 10; 5]%nat) = Some [2; 10; 5]%nat.
Proof.
  apply (@written_attribute_reads_back nat str_nat float_nat [2; 10; 5]%nat).
  - discriminate.
  - repeat constructor.
Defined.

Lemma stray_space_witness : parse float_nat "2  1" = None.
Proof.
  apply (@stray_space_does_not_parse nat float_nat "2  1").
  - reflexivity.
  - right. right. right. exists "2"%string, "1"%string. reflexivity.
Defined.

Lemma handle_witness :
  handle_matches_flag default_box /\ handle_matches_flag loaded_box.
Proof.
  split.
  - apply (@handle_is_set_exactly_when_loaded simulation BoxShape
             BoxShape_load default_box).
    exact (reachable_init BoxShape_load _).
  - apply (@handle_is_set_exactly_when_loaded simulation BoxShape
             BoxShape_load loaded_box).
    exact (reachable_call (Load BoxShape) empty_sim
             (reachable_init BoxShape_load _)).
Defined.

Lemma pose_setters_compose_witness :
  pose_after loaded_box
    (sim_after
       (set_orientation loaded_box turned
          (sim_after (set_position loaded_box (Vec 0 0 1) sim_with_box))))
    (Vec 0 0 1) turned /\
  pose_after loaded_box
    (sim_after
       (set_position loaded_box (Vec 0 0 1)
          (sim_after (set_orientation loaded_box turned sim_with_box))))
    (Vec 0 0 1) turned /\
  pose_after loaded_box
    (sim_after
       (set_position_orientation loaded_box (Vec 0 0 1) turned sim_with_box))
    (Vec 0 0 1) turned.
Proof.
  split; [|split].
  - apply (proj1 (@pose_setters_compose simulation BoxShape loaded_box
                    (Vec 0 0 1) turned sim_with_box
                    (sim_after
                       (set_position loaded_box (Vec 0 0 1) sim_with_box))
                    _ sim_pose_is_stored)); reflexivity.
  - apply (proj1 (proj2 (@pose_setters_compose simulation BoxShape loaded_box
                           (Vec 0 0 1) turned sim_with_box
                           (sim_after
                              (set_orientation loaded_box turned sim_with_box))
                           _ sim_pose_is_stored))); reflexivity.
  - apply (proj2 (proj2 (@pose_setters_compose simulation BoxShape loaded_box
                           (Vec 0 0 1) turned sim_with_box sim_with_box
                           _ sim_pose_is_stored))); reflexivity.
Defined.

Lemma loop_ends_witness :
  while_loop no_rotation
    (S (List.length
          (findall "link" []
             (object_tree (start_at fork_doc (Vec 2 1 0.5))))))
    (start_at fork_doc (Vec 2 1 0.5))
  = Some fork_end.
Proof.
  apply (@loop_ends_within_the_number_of_links float binary64 no_rotation 10
           (start_at fork_doc (Vec 2 1 0.5)) fork_end).
  vm_compute. reflexivity.
Defined.

Lemma unvisited_link_witness :
  node ([2%nat] ++ [0%nat]) fork_rescaled
  = Some ("mesh"%string, attrib_at fork_doc [2; 0]%nat, 0%nat).
Proof.
  apply (@unvisited_links_are_untouched float binary64 no_rotation
           (Vec 2 1 0.5) (Vec 1 1 1) fork_doc fork_rescaled 3 2 [0%nat]).
  - vm_compute. reflexivity.
  - reflexivity.
  - vm_compute. intros [H|[H|[]]]; discriminate H.
  - reflexivity.
  - discriminate.
Defined.

Lemma visited_link_witness :
  node ([1%nat] ++ [0%nat]) fork_rescaled
  = Some ("mesh"%string,
          Nat.iter (S (List.length [0%nat]))
            (link_step "mesh" (cur_scale fork_at_left))
            (attrib_at fork_doc [1; 0]%nat),
          0%nat).
Proof.
  apply (@visited_link_is_rescaled_at_its_visit float binary64 no_rotation
           (Vec 2 1 0.5) (Vec 1 1 1) fork_doc fork_rescaled 3 1 fork_at_left
           [1%nat] [0%nat]).
  - vm_compute. reflexivity.
  - vm_compute. reflexivity.
  - vm_compute. reflexivity.
  - reflexivity.
  - discriminate.
Defined.

Lemma plain_doc_keeps_own_size :
  rescale rotate_vector_3d unit_bbox unit_bbox plain_doc 2
  = Some (Ok (rescaled plain_doc unit_bbox unit_bbox 2)).
Proof.
  lazy -[IZR Rdiv Rmult Rplus Rminus Ropp Rinv Rabs sqrt cos sin PI].
  reflexivity.
Qed.

Lemma own_size_witness :
  same_values plain_doc (rescaled plain_doc unit_bbox unit_bbox 2).
Proof.
  apply (@rescale_to_own_size_changes_nothing rotate_vector_3d unit_bbox
           plain_doc (rescaled plain_doc unit_bbox unit_bbox 2) 2).
  - unfold nonzero, unit_bbox. cbn. repeat split; lra.
  - exact plain_doc_no_rotation.
  - exact plain_doc_unit_axes.
  - exact plain_doc_keeps_own_size.
Defined.

Lemma loaded_box_witness :
  loaded ghost_loaded = true /\
  pose_after (PE := Bullet_engine sim_bullet) ghost_loaded sim_with_ghost
    (Vec 0 0 2) (0, 0, 0, 1).
Proof.
  apply (@loaded_box_is_at_its_base_position sim_bullet ghost_box ghost_loaded
           empty_sim sim_with_ghost (Some 0%nat)).
  - exact sim_pose_is_stored.
  - reflexivity.
  - vm_compute. reflexivity.
Defined.

Lemma origin_without_xyz_witness :
  while_loop no_rotation 1 (start_at bare_origin_doc (Vec 2 1 0.5))
  = Some (Raise KeyError).
Proof.
  apply (@origin_without_xyz_raises_key_error float binary64 no_rotation
           "base_link" (start_at bare_origin_doc (Vec 2 1 0.5)) [0%nat]
           [0%nat] no_attrib 0%nat 0%nat); reflexivity.
Defined.

Lemma orphan_joint_doc_origins r tg a n :
  node ([0%nat] ++ r) orphan_joint_doc = Some (tg, a, n) ->
  tg = "origin"%string -> at_xyz a <> None.
Proof.
  intros Hn Htg. each_node Hn; first [discriminate Htg|simpl; discriminate].
Qed.

Lemma joint_without_parent_witness :
  while_loop no_rotation 1 (start_at orphan_joint_doc (Vec 2 1 0.5))
  = Some (Raise AttributeError).
Proof.
  apply (@joint_without_parent_raises_attribute_error float binary64
           no_rotation "base_link" (start_at orphan_joint_doc (Vec 2 1 0.5))
           [0%nat] [3%nat] 0%nat).
  - reflexivity.
  - reflexivity.
  - exact orphan_joint_doc_origins.
  - vm_compute. right. left. reflexivity.
  - reflexivity.
  - intros joint' parent Hin Hp. vm_compute in Hin.
    destruct Hin as [<-|[<-|[]]]; vm_compute in Hp; [|discriminate Hp].
    injection Hp as <-. vm_compute. discriminate.
Defined.

Lemma door_doc_well_formed : well_formed door_doc.
Proof.
  split; [|split].
  - intros link Hin. vm_compute in Hin.
    destruct Hin as [<-|[<-|[]]]; vm_compute; discriminate.
  - intros p tg a n Hn Htg.
    each_node Hn; destruct Htg as [Htg|Htg];
      first [discriminate Htg|simpl; discriminate].
  - intros joint Hin. vm_compute in Hin. destruct Hin as [<-|[]].
    exists [2; 0]%nat, [2; 1]%nat, "door"%string.
    repeat split; try reflexivity; try discriminate.
    exists [1%nat]. split; [|reflexivity]. vm_compute. right. left. reflexivity.
Qed.

Lemma door_doc_has_base_link : has_link "base_link" door_doc.
Proof.
  exists [0%nat]. split; [|reflexivity]. vm_compute. left. reflexivity.
Qed.

Lemma well_formed_witness :
  lookups_succeed
    (rescale no_rotation (Vec 2 1 0.5) (Vec 1 1 1) door_doc 3).
Proof.
  apply (@well_formed_document_passes_every_lookup float binary64 no_rotation
           (Vec 2 1 0.5) (Vec 1 1 1) door_doc 3).
  - exact door_doc_well_formed.
  - exact door_doc_has_base_link.
Defined.
End MoreExamples.

(** ** The passes over the axes *)

Section AxisPassFacts.
Context {F : Type} {SF : Scalar F}.
Variable rot : vec F -> F -> F -> F -> bool -> vec F.
Implicit Types (t u : Element F) (w : Walk F) (a : Attrib F).









End AxisPassFacts.

(** ** The round trip, step by step *)

Section RetraceFacts.
Context {F : Type} {SF : Scalar F}.
Variable rot : vec F -> F -> F -> F -> bool -> vec F.
Variable Srel : vec F -> vec F -> Prop.
Implicit Types (t u : Element F) (w : Walk F) (a : Attrib F).

Lemma step_of_frame tg s a : attr_frame a (step_of tg s a).
Proof.
  unfold step_of.
  destruct (String.eqb tg "mesh"); [apply mesh_scaled_frame|].
  destruct (String.eqb tg "origin"); [apply xyz_scaled_frame|].
  destruct (String.eqb tg "axis"); [apply axis_scaled_frame|].
  apply attr_frame_refl.
Qed.

Lemma forth_frame tg l a : attr_frame a (forth tg l a).
Proof.
  revert a. induction l as [|x l IH]; intros a; [apply attr_frame_refl|].
  simpl. eapply attr_frame_trans; [apply step_of_frame|apply IH].
Qed.

Lemma forth_snoc tg l x a :
  forth tg (l ++ [x]) a = step_of tg (fst x) (forth tg l a).
Proof. unfold forth. now rewrite fold_left_app. Qed.

Lemma back_snoc tg l x a :
  back tg (l ++ [x]) a = step_of tg (snd x) (back tg l a).
Proof. unfold back. now rewrite fold_left_app. Qed.

Lemma frame_retracing t t1 :
  frame t t1 -> agree (tagged (tag_at t) (retracing Srel t t1)) t t1.
Proof.
  intros H p. specialize (H p).
  destruct (node p t) as [[[tg a] n]|] eqn:E,
           (node p t1) as [[[tg1 a1] n1]|] eqn:E1; try contradiction;
    [|exact I].
  destruct H as (<- & <- & H).
  destruct (node_tag_at _ _ E) as [Ht Ha].
  destruct (node_tag_at _ _ E1) as [_ Ha1].
  split; [reflexivity|]. split; [reflexivity|].
  split; [now symmetry|]. split; [assumption|].
  exists []. split; [constructor|]. simpl. split; congruence.
Qed.

(** Two runs on the same frame, the second with a scale related to the
    scale of the first: when the first ends, so does the second, and every
    element has gone through the same steps in both, with related
    scales. *)
Lemma while_loop_retraces fuel t t1 s s' name w1 :
  Srel s s' -> keeps_related rot Srel t -> frame t t1 ->
  while_loop rot fuel (Build_Walk t s name) = Some (Ok w1) ->
  exists w2,
    while_loop rot fuel (Build_Walk t1 s' name) = Some (Ok w2) /\
    agree (tagged (tag_at t) (retracing Srel t t1))
      (object_tree w1) (object_tree w2).
Proof.
  intros Hs Hrot Hfr H1.
  pose proof (@while_loop_lockstep F SF rot (tag_at t)
                (retracing Srel t t1) Srel) as L.
  assert (Hstep : forall tg p s1 s2 a1 a2 (f : vec F -> Attrib F -> Attrib F),
             tag_at t p = tg -> (forall x, step_of tg x = f x) ->
             (forall x a, attr_frame a (f x a)) ->
             Srel s1 s2 -> retracing Srel t t1 p a1 a2 ->
             retracing Srel t t1 p (f s1 a1) (f s2 a2)).
  { intros tg p s1 s2 a1 a2 f Ht Hf Hfr' Hs12 (Ha & l & Hl & -> & ->).
    subst tg. split.
    - eapply attr_frame_trans; [apply attr_frame_sym, Hfr'|].
      eapply attr_frame_trans; [exact Ha|apply Hfr'].
    - exists (l ++ [(s1, s2)]). split.
      + apply Forall_app. split; [exact Hl|]. constructor; [exact Hs12|].
        constructor.
      + rewrite forth_snoc, back_snoc. cbn [fst snd]. now rewrite !Hf. }
  specialize (L (fun p a1 a2 H => proj1 H)).
  assert (L1 : forall p s1 s2 a1 a2 b1 b2,
             tag_at t p = "mesh"%string -> Srel s1 s2 ->
             retracing Srel t t1 p a1 a2 ->
             scale_mesh s1 a1 = Ok b1 -> scale_mesh s2 a2 = Ok b2 ->
             retracing Srel t t1 p b1 b2).
  { intros p s1 s2 a1 a2 b1 b2 Ht Hs12 Ha. rewrite !scale_mesh_total.
    intros [= <-] [= <-].
    apply (Hstep "mesh"%string); auto using mesh_scaled_frame. }
  assert (L2 : forall p s1 s2 a1 a2 b1 b2,
             tag_at t p = "origin"%string -> Srel s1 s2 ->
             retracing Srel t t1 p a1 a2 ->
             scale_origin s1 a1 = Ok b1 -> scale_origin s2 a2 = Ok b2 ->
             retracing Srel t t1 p b1 b2).
  { intros p s1 s2 a1 a2 b1 b2 Ht Hs12 Ha H H'.
    apply scale_origin_ok in H, H'. subst b1 b2.
    apply (Hstep "origin"%string); auto using xyz_scaled_frame. }
  assert (L3 : forall p s1 s2 a1 a2 b1 b2,
             tag_at t p = "axis"%string -> Srel s1 s2 ->
             retracing Srel t t1 p a1 a2 ->
             scale_axis s1 a1 = Ok b1 -> scale_axis s2 a2 = Ok b2 ->
             retracing Srel t t1 p b1 b2).
  { intros p s1 s2 a1 a2 b1 b2 Ht Hs12 Ha H H'.
    apply scale_axis_ok in H, H'. subst b1 b2.
    apply (Hstep "axis"%string); auto using axis_scaled_frame. }
  specialize (L L1 L2 L3). clear L1 L2 L3 Hstep.
  assert (L4 : forall i s1 s2 a1 a2 r,
             tag_at t [i] = "joint"%string -> Srel s1 s2 ->
             retracing Srel t t1 [i] a1 a2 -> at_rpy a1 = Some r ->
             Srel (np_absolute (rot s1 (vx r) (vy r) (vz r) true))
                  (np_absolute (rot s2 (vx r) (vy r) (vz r) true))).
  { intros i s1 s2 a1 a2 r Ht Hs12 (_ & l & _ & -> & _) Hrpy.
    destruct (forth_frame (tag_at t [i]) l (attrib_at t [i]))
      as (_ & _ & _ & Er & _).
    rewrite <- Er in Hrpy. clear Er.
    unfold tag_at in Ht. unfold attrib_at in Hrpy.
    destruct (get [i] t) as [e|] eqn:Eg; [|discriminate].
    apply (Hrot [i] r s1 s2); [| |exact Hs12].
    - apply (@in_findall_child F "joint" t i (attrib e)
               (List.length (children e))).
      unfold node. rewrite Eg. now rewrite Ht.
    - unfold rpy_of. now rewrite Eg. }
  specialize (L L4 fuel (Build_Walk t s name) (Build_Walk t1 s' name)).
  rewrite H1 in L.
  assert (Hw : walk_rel (tag_at t) (retracing Srel t t1) Srel
                 (Build_Walk t s name) (Build_Walk t1 s' name))
    by (repeat split; simpl; auto using frame_retracing).
  destruct (while_loop rot fuel (Build_Walk t1 s' name)) as [[w2|]|];
    simpl in L.
  - exists w2. split; [reflexivity|]. now apply L.
  - exfalso. now apply L.
  - exfalso. now apply L.
Qed.

End RetraceFacts.

(** ** The round trip in exact arithmetic

    With real numbers for float64, the steps back undo the steps there
    when their scales are inverse to each other and the axes are unit
    vectors. *)

Section ExactRoundTrip.
Local Open Scope R_scope.
Implicit Types (v s q : vec R) (a : Attrib R) (l : list (vec R * vec R)).
Variable rot : vec R -> R -> R -> R -> bool -> vec R.

Local Abbreviation one := (Vec 1 1 1).

(** The product of the scales of a list of steps. *)
Local Abbreviation prod_of := (fun ls : list (vec R) =>
                                 fold_left np_multiply ls one).

Lemma fold_multiply ls v :
  fold_left np_multiply ls v = np_multiply v (prod_of ls).
Proof.
  revert v. induction ls as [|s ls IH]; intros v; simpl.
  - destruct v as [x y z]. unfold np_multiply. cbn. f_equal; ring.
  - rewrite (IH (np_multiply v s)), (IH (np_multiply one s)).
    destruct v as [x y z], s as [sx sy sz].
    destruct (fold_left np_multiply ls one) as [px py pz].
    unfold np_multiply. cbn. f_equal; ring.
Qed.

Lemma inverse_products l :
  related_steps inverse_scale l ->
  inverse_scale (prod_of (map fst l)) (prod_of (map snd l)).
Proof.
  induction 1 as [|[s s'] l (Hx & Hy & Hz) _ (Ix & Iy & Iz)]; simpl.
  - unfold inverse_scale. cbn. repeat split; ring.
  - rewrite (fold_multiply (map fst l)), (fold_multiply (map snd l)).
    cbn [fst snd] in *.
    destruct s as [sx sy sz], s' as [tx ty tz].
    destruct (fold_left np_multiply (map fst l) one) as [px py pz].
    destruct (fold_left np_multiply (map snd l) one) as [qx qy qz].
    unfold inverse_scale, np_multiply in *. cbn in *.
    repeat split.
    + replace (1 * sx * px * (1 * tx * qx)) with (sx * tx * (px * qx)) by ring.
      rewrite Hx, Ix. ring.
    + replace (1 * sy * py * (1 * ty * qy)) with (sy * ty * (py * qy)) by ring.
      rewrite Hy, Iy. ring.
    + replace (1 * sz * pz * (1 * tz * qz)) with (sz * tz * (pz * qz)) by ring.
      rewrite Hz, Iz. ring.
Qed.

Lemma multiply_there_and_back l v :
  related_steps inverse_scale l ->
  fold_left np_multiply (map snd l) (fold_left np_multiply (map fst l) v) = v.
Proof.
  intros Hl. rewrite (fold_multiply (map snd l)), (fold_multiply (map fst l)).
  apply multiply_inverse, inverse_products, Hl.
Qed.

(** The steps there and back, as folds over the scales. *)
Lemma forth_fold tg l a :
  forth tg l a = fold_left (fun a s => step_of tg s a) (map fst l) a.
Proof.
  unfold forth. revert a. induction l as [|x l IH]; intros a; simpl; auto.
Qed.

Lemma back_fold tg l a :
  back tg l a = fold_left (fun a s => step_of tg s a) (map snd l) a.
Proof.
  unfold back. revert a. induction l as [|x l IH]; intros a; simpl; auto.
Qed.

Lemma steps_frame tg ls a :
  attr_frame a (fold_left (fun a s => step_of tg s a) ls a).
Proof.
  revert a. induction ls as [|s ls IH]; intros a; [apply attr_frame_refl|].
  simpl. eapply attr_frame_trans; [apply step_of_frame|apply IH].
Qed.

Lemma mesh_steps ls a :
  at_xyz (fold_left (fun a s => mesh_scaled s a) ls a) = at_xyz a /\
  scale_value (fold_left (fun a s => mesh_scaled s a) ls a)
  = fold_left np_multiply ls (scale_value a).
Proof.
  revert a. induction ls as [|s ls IH]; intros a; simpl; [now split|].
  destruct (IH (mesh_scaled s a)) as (Hx & Hs).
  rewrite Hx, Hs, scale_value_mesh_scaled. split; [|reflexivity].
  unfold mesh_scaled. destruct (at_scale a); reflexivity.
Qed.

Lemma xyz_steps ls a :
  at_scale (fold_left (fun a s => xyz_scaled s a) ls a) = at_scale a /\
  at_xyz (fold_left (fun a s => xyz_scaled s a) ls a)
  = option_map (fold_left np_multiply ls) (at_xyz a).
Proof.
  revert a. induction ls as [|s ls IH]; intros a; simpl.
  - split; [reflexivity|]. now destruct (at_xyz a).
  - destruct (IH (xyz_scaled s a)) as (Hs & Hx). rewrite Hs, Hx.
    unfold xyz_scaled. destruct (at_xyz a) as [v|] eqn:E; cbn.
    + now split.
    + rewrite E. now split.
Qed.

(** The passes over an axis. *)
Local Abbreviation chain :=
  (fold_left (fun v s => normalized (np_multiply v s))).

Lemma axis_steps ls a :
  at_scale (fold_left (fun a s => axis_scaled s a) ls a) = at_scale a /\
  at_xyz (fold_left (fun a s => axis_scaled s a) ls a)
  = option_map (chain ls) (at_xyz a).
Proof.
  revert a. induction ls as [|s ls IH]; intros a; simpl.
  - split; [reflexivity|]. now destruct (at_xyz a).
  - destruct (IH (axis_scaled s a)) as (Hs & Hx). rewrite Hs, Hx.
    unfold axis_scaled. destruct (at_xyz a) as [v|] eqn:E; cbn.
    + now split.
    + rewrite E. now split.
Qed.

Lemma norm_div w n :
  0 < n -> np_linalg_norm (div_scalar w n) = np_linalg_norm w / n.
Proof.
  intros Hn. pose proof (norm_square w) as Hs.
  pose proof (norm_nonneg w) as H0.
  remember (np_linalg_norm w) as m eqn:Em. clear Em.
  unfold np_linalg_norm, div_scalar. cbn.
  apply sqrt_lem_1.
  - apply sum_squares_nonneg.
  - apply Rmult_le_pos; [exact H0|]. apply Rlt_le, Rinv_0_lt_compat, Hn.
  - replace (m / n * (m / n)) with (m * m / (n * n)) by (field; lra).
    rewrite Hs. field. lra.
Qed.

Lemma normalized_div w n :
  0 < n -> np_linalg_norm w <> 0 -> normalized (div_scalar w n) = normalized w.
Proof.
  intros Hn Hw. unfold normalized. rewrite norm_div by exact Hn.
  remember (np_linalg_norm w) as m eqn:Em. clear Em.
  destruct w as [x y z]. unfold div_scalar. cbn.
  f_equal; field; split; lra.
Qed.

Lemma multiply_div u q n :
  np_multiply (div_scalar u n) q = div_scalar (np_multiply u q) n.
Proof.
  destruct u as [x y z], q as [qx qy qz]. unfold np_multiply, div_scalar.
  cbn. f_equal; unfold Rdiv; ring.
Qed.

(** Normalizing before a scaling step does not change what the step
    stores. *)
Lemma normalized_twice u q :
  np_linalg_norm u <> 0 -> np_linalg_norm (np_multiply u q) <> 0 ->
  normalized (np_multiply (normalized u) q) = normalized (np_multiply u q).
Proof.
  intros Hu Hq. unfold normalized at 2. rewrite multiply_div.
  apply normalized_div; [|exact Hq].
  pose proof (norm_nonneg u). lra.
Qed.

Lemma scaled_nonzero u q :
  np_linalg_norm u <> 0 -> nonzero q -> np_linalg_norm (np_multiply u q) <> 0.
Proof.
  intros Hu (Hx & Hy & Hz) H0. apply Hu.
  pose proof (norm_square u) as Hs.
  pose proof (norm_square (np_multiply u q)) as Hs'. rewrite H0 in Hs'.
  destruct u as [x y z]. unfold np_multiply in Hs'. cbn in *.
  assert (Hxx : x * vx q = 0) by nra.
  assert (Hyy : y * vy q = 0) by nra.
  assert (Hzz : z * vz q = 0) by nra.
  apply Rmult_integral in Hxx, Hyy, Hzz.
  destruct Hxx as [->|]; [|contradiction].
  destruct Hyy as [->|]; [|contradiction].
  destruct Hzz as [->|]; [|contradiction].
  replace (0 * 0 + 0 * 0 + 0 * 0) with 0 by ring. apply sqrt_0.
Qed.

Lemma product_nonzero ls : Forall nonzero ls -> nonzero (prod_of ls).
Proof.
  induction 1 as [|s ls (Hx & Hy & Hz) _ (Ix & Iy & Iz)]; simpl.
  - unfold nonzero. cbn. repeat split; lra.
  - rewrite fold_multiply. destruct s as [sx sy sz].
    destruct (fold_left np_multiply ls one) as [px py pz].
    unfold nonzero, np_multiply in *. cbn in *.
    repeat split; rewrite Rmult_1_l; apply Rmult_integral_contrapositive;
      split; assumption.
Qed.

(** The passes over a unit axis store the axis times the product of
    their scales, normalized once. *)
Lemma chain_closed ls v :
  np_linalg_norm v = 1 -> Forall nonzero ls ->
  chain ls v = normalized (np_multiply v (prod_of ls)).
Proof.
  intros Hv Hls. revert v Hv.
  induction Hls as [|s ls Hs Hls IH]; intros v Hv; simpl.
  - rewrite multiply_one. symmetry. now apply normalized_unit.
  - pose proof (scaled_unit_nonzero _ Hv Hs) as Hn.
    rewrite IH by now apply norm_normalized.
    rewrite (fold_multiply ls (np_multiply one s)).
    assert (E : np_multiply v (np_multiply (np_multiply one s) (prod_of ls))
                = np_multiply (np_multiply v s) (prod_of ls)).
    { destruct v as [x y z], s as [sx sy sz].
      destruct (fold_left np_multiply ls one) as [px py pz].
      unfold np_multiply. cbn. f_equal; ring. }
    rewrite E. apply normalized_twice; [exact Hn|].
    apply scaled_nonzero; [exact Hn|]. now apply product_nonzero.
Qed.

Lemma related_nonzero l :
  related_steps inverse_scale l ->
  Forall nonzero (map fst l) /\ Forall nonzero (map snd l).
Proof.
  induction 1 as [|[s s'] l Hi _ (If & Is)]; simpl; [now split|].
  split; constructor; try assumption.
  - eapply inverse_nonzero. exact Hi.
  - destruct Hi as (Hx & Hy & Hz). cbn [fst snd] in *.
    eapply (@inverse_nonzero s' s). repeat split; rewrite Rmult_comm;
      assumption.
Qed.

Lemma chain_there_and_back l v :
  np_linalg_norm v = 1 -> related_steps inverse_scale l ->
  chain (map snd l) (chain (map fst l) v) = v.
Proof.
  intros Hv Hl. destruct (related_nonzero Hl) as (Hf & Hs).
  pose proof (inverse_products Hl) as Hi.
  assert (Hv0 : np_linalg_norm v <> 0) by lra.
  assert (Hn : np_linalg_norm (np_multiply v (prod_of (map fst l))) <> 0)
    by (apply scaled_nonzero; [exact Hv0|now apply product_nonzero]).
  rewrite (@chain_closed (map fst l) v Hv Hf).
  rewrite chain_closed; [|now apply norm_normalized|exact Hs].
  rewrite normalized_twice; [|exact Hn|].
  - rewrite multiply_inverse by exact Hi. now apply normalized_unit.
  - rewrite multiply_inverse by exact Hi. exact Hv0.
Qed.

(** The steps back undo the steps there. *)
Lemma back_forth_inverse tg l a :
  related_steps inverse_scale l ->
  (tg = "axis"%string -> forall v, at_xyz a = Some v -> np_linalg_norm v = 1) ->
  same_attrib a (back tg l (forth tg l a)).
Proof.
  intros Hl Hu. rewrite back_fold, forth_fold.
  split.
  { eapply attr_frame_trans; apply steps_frame. }
  unfold step_of.
  destruct (String.eqb tg "mesh") eqn:Em;
    [|destruct (String.eqb tg "origin") eqn:Eo;
      [|destruct (String.eqb tg "axis") eqn:Ea]].
  - destruct (mesh_steps (map fst l) a) as (Hx & Hs).
    destruct (mesh_steps (map snd l)
                (fold_left (fun a s => mesh_scaled s a) (map fst l) a))
      as (Hx' & Hs').
    split; [congruence|]. rewrite Hs', Hs. now apply multiply_there_and_back.
  - destruct (xyz_steps (map fst l) a) as (Hs & Hx).
    destruct (xyz_steps (map snd l)
                (fold_left (fun a s => xyz_scaled s a) (map fst l) a))
      as (Hs' & Hx').
    split.
    + rewrite Hx', Hx. destruct (at_xyz a) as [v|]; [|reflexivity]. cbn.
      now rewrite multiply_there_and_back.
    + unfold scale_value. now rewrite Hs', Hs.
  - apply String.eqb_eq in Ea.
    destruct (axis_steps (map fst l) a) as (Hs & Hx).
    destruct (axis_steps (map snd l)
                (fold_left (fun a s => axis_scaled s a) (map fst l) a))
      as (Hs' & Hx').
    split.
    + rewrite Hx', Hx. destruct (at_xyz a) as [v|] eqn:Ev; [|reflexivity].
      cbn. rewrite chain_there_and_back; auto.
    + unfold scale_value. now rewrite Hs', Hs.
  - assert (E : forall ls b,
               fold_left (fun (a : Attrib R) (_ : vec R) => a) ls b = b)
      by (induction ls; simpl; auto).
    rewrite !E. split; reflexivity.
Qed.

(** In exact arithmetic the round trip gives every value back, on a tree
    whose axes are unit vectors and whose joint rotations take inverse
    scales to inverse scales, with bounding boxes free of zero
    components (a mesh without scale counts as scale 1). *)
Lemma round_trip_recovers_in_exact_arithmetic
  (bounding_box original_bbox : vec R) (t t1 : Element R) (fuel : nat) :
  nonzero bounding_box -> nonzero original_bbox ->
  keeps_related rot inverse_scale t -> unit_axes t ->
  rescale rot bounding_box original_bbox t fuel = Some (Ok t1) ->
  exists t2,
    rescale rot original_bbox bounding_box t1 fuel = Some (Ok t2) /\
    same_values t t2.
Proof.
  intros Hb Ho Hrot Hunit H.
  destruct (rescale_ok _ _ _ _ _ H) as (w1 & H1 & <-).
  pose proof (divide_inverse Hb Ho) as Hinv.
  assert (Hfr : frame t (object_tree w1)).
  { apply while_loop_reaches in H1. destruct H1 as [H1 _].
    apply reaches_frame in H1. exact H1. }
  destruct (@while_loop_retraces R exact rot inverse_scale fuel t
              (object_tree w1) _ _ _ w1 Hinv Hrot Hfr H1)
    as (w2 & H2 & Hal).
  exists (object_tree w2). split.
  - unfold rescale. now rewrite H2.
  - intros p. specialize (Hal p). specialize (Hfr p).
    destruct (node p t) as [[[tg0 a0] n0]|] eqn:E0,
             (node p (object_tree w1)) as [[[tg1 a1] n1]|] eqn:E1;
      try contradiction.
    + destruct (node p (object_tree w2)) as [[[tg2 a2] n2]|];
        [|contradiction].
      destruct Hfr as (<- & <- & _).
      destruct Hal as (<- & <- & _ & _ & l & Hl & Ha1 & Ha2).
      destruct (node_tag_at _ _ E0) as [Et Ea0].
      destruct (node_tag_at _ _ E1) as [_ Ea1].
      rewrite Ea0, Et in Ha1. rewrite Ea1, Et in Ha2.
      subst a1 a2. split; [reflexivity|]. split; [reflexivity|].
      apply back_forth_inverse; [exact Hl|].
      intros -> v Hv. eapply Hunit; [exact E0|reflexivity|exact Hv].
    + destruct (node p (object_tree w2)); [contradiction|exact I].
Qed.

(** A tree without joint rotations keeps every relation between two
    scales. *)
Lemma no_rotation_keeps_related (Srel : vec R -> vec R -> Prop) t :
  no_joint_rotation t -> keeps_related rot Srel t.
Proof.
  intros Hno joint r s s' Hin Hr _. rewrite (Hno _ Hin) in Hr. discriminate.
Qed.
End ExactRoundTrip.

(** ** Examples of the axis passes and of the round trip in binary64 *)

Section RetraceExamples.
Import PrimFloat.
Local Open Scope float_scope.
Local Open Scope string_scope.




(** The one axis pass on [door_doc] is made with the base scale: the
    axis (0, 0, 1) becomes (0, 0, 0.5) and, divided by its norm 0.5, is
    stored as (0, 0, 1) again. *)
Lemma door_doc_axis_pass :
  axis_scales no_rotation 3
    (Build_Walk door_doc (np_divide (Vec 2 1 0.5) (Vec 1 1 1))
       (Some "base_link")) = [Vec 2 1 0.5] /\
  at_xyz (attrib_at door_doc_rescaled [2; 3]%nat) = Some (Vec 0 0 1).
Proof. split; vm_compute; reflexivity. Qed.


(** With scales that are powers of two no step rounds, and the round
    trip on [door_doc] gives every value back: the origins and the axis
    as they were, and the scale (1, 1, 1) for the meshes, which had
    none. *)
Lemma round_trip_is_exact_for_powers_of_two :
  exists t2,
    rescale no_rotation (Vec 1 1 1) (Vec 2 1 0.5) door_doc_rescaled 3
    = Some (Ok t2) /\
    at_xyz (attrib_at t2 [0; 0; 0]%nat) = Some (Vec 0 0 1) /\
    at_scale (attrib_at t2 [0; 0; 1; 0]%nat) = Some (Vec 1 1 1) /\
    at_scale (attrib_at t2 [1; 0]%nat) = Some (Vec 1 1 1) /\
    at_xyz (attrib_at t2 [2; 2]%nat) = Some (Vec 1 2 3) /\
    at_xyz (attrib_at t2 [2; 3]%nat) = Some (Vec 0 0 1).
Proof.
  eexists. do 5 (split; [vm_compute; reflexivity|]). vm_compute. reflexivity.
Qed.

(** With the target (3, 1, 0.1) the steps round: the z component of the
    hinge origin, 3 before, is 3.0000000000000004 after the round trip,
    and the z scale of the door's mesh is 1.0000000000000002. *)
Lemma round_trip_rounds :
  exists t1 t2,
    rescale no_rotation (Vec 3 1 tenth) (Vec 1 1 1) door_doc 3
    = Some (Ok t1) /\
    rescale no_rotation (Vec 1 1 1) (Vec 3 1 tenth) t1 3 = Some (Ok t2) /\
    at_xyz (attrib_at t2 [2; 2]%nat) = Some (Vec 1 2 0x1.8000000000001p+1) /\
    at_scale (attrib_at t2 [1; 0]%nat) = Some (Vec 1 1 0x1.0000000000001p+0).
Proof.
  eexists. eexists.
  do 3 (split; [vm_compute; reflexivity|]). vm_compute. reflexivity.
Qed.

(** With the target (1e100, 1, 1e-100) the product of the two base
    scales is still (1, 1, 1), but the steps there overflow and
    underflow: the mesh of the root link, reached four times, gets the
    scale (inf, 1, 0), and the steps back leave it there. *)
Lemma round_trip_overflows :
  undone_by (np_divide (Vec huge 1 tiny) (Vec 1 1 1))
            (np_divide (Vec 1 1 1) (Vec huge 1 tiny)) /\
  exists t1 t2,
    (forall rot,
        rescale rot (Vec huge 1 tiny) (Vec 1 1 1) one_mesh_doc 1
        = Some (Ok t1)) /\
    (forall rot,
        rescale rot (Vec 1 1 1) (Vec huge 1 tiny) t1 1 = Some (Ok t2)) /\
    at_scale (attrib_at t1 one_mesh_path) = Some (Vec infinity 1 0) /\
    at_scale (attrib_at t2 one_mesh_path) = Some (Vec infinity 1 0).
Proof.
  split; [vm_compute; reflexivity|].
  eexists. eexists.
  split; [intros rot; vm_compute; reflexivity|].
  split; [intros rot; vm_compute; reflexivity|].
  split; vm_compute; reflexivity.
Qed.

(** On the loaded box, which starts at (1, 2, 3) with the identity
    orientation, each setter leaves the half it does not set; the small
    engine returns the pose it has stored. *)
Lemma setters_on_the_loaded_box :
  pose_after loaded_box
    (sim_after (set_position loaded_box (Vec 0 0 1) sim_with_box))
    (Vec 0 0 1) (0, 0, 0, 1) /\
  pose_after loaded_box
    (sim_after (set_orientation loaded_box turned sim_with_box))
    (Vec 1 2 3) turned.
Proof. split; split; reflexivity. Qed.
End RetraceExamples.

(** ** An example of the round trip across a rotated joint *)

Section ExactRetraceExamples.
Local Open Scope R_scope.
Local Open Scope string_scope.

Ltac run :=
  lazy -[IZR Rdiv Rmult Rplus Rminus Ropp Rinv Rabs sqrt cos sin PI].

Ltac run_in H :=
  lazy -[IZR Rdiv Rmult Rplus Rminus Ropp Rinv Rabs sqrt cos sin PI] in H.

(** A quarter turn about z swaps the x and y components of a scale, so
    two scales that are inverse to each other stay so. *)
Lemma quarter_turn_keeps_inverse_scales :
  keeps_related rotate_vector_3d inverse_scale quarter_turn_doc.
Proof.
  intros joint r s s' Hin Hr (Hx & Hy & Hz).
  run_in Hin. destruct Hin as [<-|[]]. run_in Hr. injection Hr as <-.
  unfold turn, rotate_vector_3d, inverse_scale, np_absolute.
  cbn [vx vy vz fabs exact].
  rewrite cos_PI2, sin_PI2, cos_0, sin_0, <- !Rabs_mult.
  repeat split.
  - replace ((0 * 1 * vx s + 1 * 1 * vy s + - 0 * vz s) *
             (0 * 1 * vx s' + 1 * 1 * vy s' + - 0 * vz s'))
      with (vy s * vy s') by ring.
    rewrite Hy. apply Rabs_R1.
  - replace (((0 * 0 * 0 - 1 * 1) * vx s + (1 * 0 * 0 + 0 * 1) * vy s +
              1 * 0 * vz s) *
             ((0 * 0 * 0 - 1 * 1) * vx s' + (1 * 0 * 0 + 0 * 1) * vy s' +
              1 * 0 * vz s'))
      with (vx s * vx s') by ring.
    rewrite Hx. apply Rabs_R1.
  - replace (((0 * 0 * 1 + 1 * 0) * vx s + (1 * 0 * 1 - 0 * 0) * vy s +
              1 * 1 * vz s) *
             ((0 * 0 * 1 + 1 * 0) * vx s' + (1 * 0 * 1 - 0 * 0) * vy s' +
              1 * 1 * vz s'))
      with (vz s * vz s') by ring.
    rewrite Hz. apply Rabs_R1.
Qed.

Lemma quarter_turn_doc_rescales :
  rescale rotate_vector_3d (Vec 2 1 1) unit_bbox quarter_turn_doc 2
  = Some (Ok (rescaled quarter_turn_doc (Vec 2 1 1) unit_bbox 2)).
Proof. run. reflexivity. Qed.

Lemma quarter_turn_doc_unit_axes : unit_axes quarter_turn_doc.
Proof.
  intros p tg a n v Hn Htg Hx.
  assert (Hin : In p (iter quarter_turn_doc)).
  { apply in_iter. unfold node in Hn.
    destruct (get p quarter_turn_doc); congruence. }
  run_in Hin.
  repeat (destruct Hin as [<-|Hin]; [run_in Hn; injection Hn as <- <- <-;
                                      try discriminate Htg|]);
    [|contradiction].
  injection Hx as <-. apply norm_first_axis.
Qed.

(** In exact arithmetic the round trip across the quarter-turn joint
    gives every value back. *)
Lemma round_trip_across_a_quarter_turn :
  exists t2,
    rescale rotate_vector_3d unit_bbox (Vec 2 1 1)
      (rescaled quarter_turn_doc (Vec 2 1 1) unit_bbox 2) 2 = Some (Ok t2) /\
    same_values quarter_turn_doc t2.
Proof.
  apply (@round_trip_recovers_in_exact_arithmetic rotate_vector_3d
           (Vec 2 1 1) unit_bbox quarter_turn_doc).
  - unfold nonzero. cbn. repeat split; lra.
  - unfold nonzero, unit_bbox. cbn. repeat split; lra.
  - exact quarter_turn_keeps_inverse_scales.
  - exact quarter_turn_doc_unit_axes.
  - exact quarter_turn_doc_rescales.
Qed.
End ExactRetraceExamples.
